(** * VibeWeave core: Vibe store, weaving, resonance and streams

    A shallow embedding of the TypeScript sources
    [aura-stream-platform/src/data/VibeStore.ts],
    [aura-stream-platform/src/utils/colorUtils.ts],
    [core/VibeProcessor.ts] and [api/auraRoutes.ts].

    Conventions of the embedding.
    - Timestamps ([Date.now()], [createdAt], [expiresAt], [lastResonatedAt])
      and [generation] are integers ([Z]).  Every call of [Date.now()] is an
      explicit argument of the function that makes it.
    - The other JavaScript numbers (scores, intensities, volumes, decay
      rates, interpolation factors) are exact rationals ([Q]); the rounding
      of IEEE-754 arithmetic on them is outside the model.  The one
      expression whose integer result depends on that rounding,
      [Math.floor(limit * 0.7)], is computed on binary64 floats.
    - [Math.random()] reads the next element of an explicit supply of draws;
      [uuidv4()] is an explicit argument.
    - The [Map<string, Vibe>] of the store is an insertion-ordered
      association list with JavaScript's [Map] behaviour. *)

From Stdlib Require Import List ZArith QArith Qround Qminmax String Ascii Bool.
From Stdlib Require Import Lia Lqa Permutation Sorted Floats HexadecimalString.
From Stdlib Require HexadecimalN.
Import ListNotations.

Set Implicit Arguments.

Open Scope Z_scope.

(** ** Data model ([types/Vibe.ts]) *)

Inductive AnimationType := pulse | flow | sparkle | wave | static.
Inductive HapticPattern := short_buzz | long_pulse | gentle_throb | random.
Inductive FontStyle := serif | sans_serif | monospace.
Inductive StreamType := personal | collective.

Module Visual.
Record t := mk {
  palette : list string;
  animationType : AnimationType;
  intensity : Q
}.
End Visual.

Module Audio.
Record t := mk {
  loopUrl : string;
  volume : Q;
  pitchShift : option Q
}.
End Audio.

Module Haptic.
Record t := mk {
  pattern : HapticPattern;
  intensity : Q
}.
End Haptic.

Module Text.
Record t := mk {
  content : string;
  fontStyle : FontStyle;
  color : string
}.
End Text.

Record Internal := mkInternal {
  parentVibeIds : list string;
  resonanceScore : Q;
  generation : Z;
  lastResonatedAt : Z
}.

Record Vibe := mkVibe {
  id : string;
  createdAt : Z;
  expiresAt : Z;
  visual : Visual.t;
  audio : Audio.t;
  haptic : option Haptic.t;
  text : option Text.t;
  _internal : Internal
}.

(** Field updates of [vibe._internal], as the in-place assignments of the
    source write them. *)
Definition set_resonanceScore (v : Vibe) (x : Q) : Vibe :=
  mkVibe (id v) (createdAt v) (expiresAt v) (visual v) (audio v) (haptic v)
    (text v)
    (mkInternal (parentVibeIds (_internal v)) x (generation (_internal v))
       (lastResonatedAt (_internal v))).

Definition set_lastResonatedAt (v : Vibe) (t : Z) : Vibe :=
  mkVibe (id v) (createdAt v) (expiresAt v) (visual v) (audio v) (haptic v)
    (text v)
    (mkInternal (parentVibeIds (_internal v)) (resonanceScore (_internal v))
       (generation (_internal v)) t).

(** ** JavaScript [Map] and array helpers *)

Section JsMap.
Variable V : Type.

(** [Map.prototype.get]. *)
Fixpoint Map_get (m : list (string * V)) (k : string) : option V :=
  match m with
  | [] => None
  | (k', v) :: m' => if String.eqb k' k then Some v else Map_get m' k
  end.

(** [Map.prototype.set]: an existing key keeps its position, a new key is
    appended. *)
Fixpoint Map_set (m : list (string * V)) (k : string) (v : V)
  : list (string * V) :=
  match m with
  | [] => [(k, v)]
  | (k', v') :: m' =>
      if String.eqb k' k then (k, v) :: m' else (k', v') :: Map_set m' k v
  end.

(** [Map.prototype.delete], with the boolean it returns. *)
Fixpoint Map_delete (m : list (string * V)) (k : string)
  : list (string * V) :=
  match m with
  | [] => []
  | (k', v') :: m' =>
      if String.eqb k' k then m' else (k', v') :: Map_delete m' k
  end.

Definition Map_has (m : list (string * V)) (k : string) : bool :=
  match Map_get m k with Some _ => true | None => false end.

Definition Map_values (m : list (string * V)) : list V := map snd m.
Definition Map_keys (m : list (string * V)) : list string := map fst m.

End JsMap.

(** [arr.filter(Boolean)] on an array of objects-or-undefined. *)
Fixpoint filterBoolean (A : Type) (l : list (option A)) : list A :=
  match l with
  | [] => []
  | Some x :: l' => x :: filterBoolean l'
  | None :: l' => filterBoolean l'
  end.

(** [arr.slice(0, end)]: a negative [end] counts from the end of the array. *)
Definition slice0 (A : Type) (l : list A) (e : Z) : list A :=
  let len := Z.of_nat (List.length l) in
  let fin := if e <? 0 then Z.max (len + e) 0 else Z.min e len in
  firstn (Z.to_nat fin) l.

(** [arr.sort(cmp)] for a comparator returning a number: the sort is stable,
    and [a] stays before [b] unless [cmp(a, b) > 0]. *)
Section JsSort.
Variable A : Type.
Variable cmp : A -> A -> Q.

Fixpoint sort_insert (x : A) (l : list A) : list A :=
  match l with
  | [] => [x]
  | y :: l' =>
      if Qle_bool (cmp x y) 0 then x :: y :: l' else y :: sort_insert x l'
  end.

Fixpoint Array_sort (l : list A) : list A :=
  match l with
  | [] => []
  | x :: l' => sort_insert x (Array_sort l')
  end.

End JsSort.

(** [Array.from(new Set(arr))]: first occurrences, in order. *)
Definition Set_add (acc : list string) (x : string) : list string :=
  if existsb (String.eqb x) acc then acc else acc ++ [x].

Definition Set_from (l : list string) : list string :=
  fold_left Set_add l [].

(** ** Numbers *)

(** [Math.round] on a rational: the nearest integer, ties upwards. *)
Definition Math_round (x : Q) : Z := Qfloor (x + (1 # 2))%Q.

(** [Math.max(...xs)] for a non-empty array of integers (with no argument
    JavaScript returns [-Infinity]; [weaveVibes] never gets there). *)
Definition Math_max (xs : list Z) : Z :=
  match xs with
  | [] => 0
  | x :: xs' => fold_left Z.max xs' x
  end.

(** [x > y] on numbers. *)
Definition Qgtb (x y : Q) : bool := negb (Qle_bool x y).

(** The binary64 number nearest to an integer. *)
Definition float_of_Z (z : Z) : float :=
  SF2Prim (SpecFloat.binary_normalize prec emax z 0 false).

(** [Math.floor] of a finite binary64 number. *)
Definition Math_floor_float (f : float) : option Z :=
  match Prim2SF f with
  | SpecFloat.S754_zero _ => Some 0
  | SpecFloat.S754_finite s m e =>
      let v := if s then Z.neg m else Z.pos m in
      Some (if 0 <=? e then Z.shiftl v e else Z.shiftr v (- e))
  | _ => None
  end.

(** [Math.floor(limit * 0.7)]; [0x1.6666666666666p-1] is the binary64
    number that the literal [0.7] denotes.  The product of a finite limit
    is finite; the last branch is for a product that is not. *)
Definition popularCount (limit : Z) : Z :=
  match Math_floor_float (float_of_Z limit * 0x1.6666666666666p-1)%float with
  | Some n => n
  | None => 0
  end.

(** ** VibeStore ([data/VibeStore.ts]) *)

Definition VibeStore := list (string * Vibe).

Definition emptyStore : VibeStore := [].

Definition saveVibe (s : VibeStore) (vibe : Vibe) : VibeStore :=
  Map_set s (id vibe) vibe.

Definition getVibe (s : VibeStore) (i : string) : option Vibe :=
  Map_get s i.

Definition getVibesByIds (s : VibeStore) (ids : list string) : list Vibe :=
  filterBoolean (map (fun i => Map_get s i) ids).

Definition getAllActiveVibes (s : VibeStore) (now : Z) : list Vibe :=
  filter (fun vibe => now <? expiresAt vibe) (Map_values s).

Definition deleteVibe (s : VibeStore) (i : string) : bool * VibeStore :=
  (Map_has s i, Map_delete s i).

(** The body of the loop over [this.vibes.entries()]. *)
Definition deleteIfExpired (now : Z) (m : VibeStore) (entry : string * Vibe)
  : VibeStore :=
  if expiresAt (snd entry) <=? now then Map_delete m (fst entry) else m.

Definition deleteExpiredVibes (s : VibeStore) (now : Z) : VibeStore :=
  fold_left (deleteIfExpired now) s s.

Definition clear (s : VibeStore) : VibeStore := [].


(** ** Randomness: [Math.random()] over an explicit supply of draws *)

Definition Rand (A : Type) : Type := list Q -> option (A * list Q).

Definition ret (A : Type) (a : A) : Rand A := fun s => Some (a, s).

Definition bind (A B : Type) (m : Rand A) (k : A -> Rand B) : Rand B :=
  fun s => match m s with
           | Some (a, s') => k a s'
           | None => None
           end.

Notation "x <- m ;; k" := (bind m (fun x => k))
  (at level 61, m at next level, right associativity).

(** [Math.random()] returns a number in [[0, 1)]; any other head of the
    supply, or an exhausted supply, gives no run. *)
Definition inUnit (r : Q) : bool := Qle_bool 0 r && negb (Qle_bool 1 r).

Definition Math_random : Rand Q :=
  fun s => match s with
           | r :: s' => if inUnit r then Some (r, s') else None
           | [] => None
           end.

(** [Math.floor(r * n)]. *)
Definition scaleIndex (r : Q) (n : nat) : Z :=
  Qfloor (r * inject_Z (Z.of_nat n))%Q.

(** [Math.floor(Math.random() * arr.length)]. *)
Definition randomIndex (n : nat) : Rand Z :=
  r <- Math_random ;; ret (scaleIndex r n).

(** [arr[i]]; an index outside the array (JavaScript's [undefined]) gives
    no run. *)
Definition index (A : Type) (arr : list A) (i : Z) : Rand A :=
  fun s => if i <? 0 then None
           else match nth_error arr (Z.to_nat i) with
                | Some a => Some (a, s)
                | None => None
                end.

(** [arr[Math.floor(Math.random() * arr.length)]]. *)
Definition pickRandom (A : Type) (arr : list A) : Rand A :=
  i <- randomIndex (List.length arr) ;; index arr i.

(** ** Colour helpers ([utils/colorUtils.ts]) *)

Definition RGB : Type := (Z * Z * Z)%type.

(** The character class [[a-f\d]] under the [i] flag. *)
Definition isHexDigit (c : ascii) : bool :=
  let n := Z.of_nat (nat_of_ascii c) in
  ((48 <=? n) && (n <=? 57)) || ((65 <=? n) && (n <=? 70))
  || ((97 <=? n) && (n <=? 102)).

Definition hexDigitValue (c : ascii) : Z :=
  let n := Z.of_nat (nat_of_ascii c) in
  if n <=? 57 then n - 48 else if n <=? 70 then n - 55 else n - 87.

(** The optional leading [#] of both patterns. *)
Definition stripHash (cs : list ascii) : list ascii :=
  match cs with
  | "#"%char :: rest => rest
  | _ => cs
  end.

(** [hex.replace(shorthandRegex, (m, r, g, b) => r + r + g + g + b + b)]. *)
Definition expandShorthand (hex : string) : string :=
  match stripHash (list_ascii_of_string hex) with
  | [r; g; b] =>
      if isHexDigit r && isHexDigit g && isHexDigit b
      then string_of_list_ascii [r; r; g; g; b; b]
      else hex
  | _ => hex
  end.

(** [parseInt(xy, 16)] on two hexadecimal digits. *)
Definition parseHexPair (x y : ascii) : Z :=
  16 * hexDigitValue x + hexDigitValue y.

Definition hexToRgb (hex : string) : option RGB :=
  match stripHash (list_ascii_of_string (expandShorthand hex)) with
  | [r1; r2; g1; g2; b1; b2] =>
      if forallb isHexDigit [r1; r2; g1; g2; b1; b2]
      then Some (parseHexPair r1 r2, parseHexPair g1 g2, parseHexPair b1 b2)
      else None
  | _ => None
  end.

(** [ToInt32] and the 32-bit left shift [x << k]. *)
Definition toInt32 (x : Z) : Z := (x + 2 ^ 31) mod 2 ^ 32 - 2 ^ 31.

Definition shl32 (x k : Z) : Z := toInt32 (Z.shiftl (toInt32 x) k).

(** [n.toString(16)] on an integer. *)
Definition toString16 (n : Z) : string :=
  let digits := NilEmpty.string_of_uint (N.to_hex_uint (Z.to_N (Z.abs n))) in
  if n <? 0 then String "-" digits else digits.

(** [s.slice(1)]. *)
Definition slice1 (s : string) : string :=
  match s with
  | EmptyString => EmptyString
  | String _ rest => rest
  end.

Definition upperChar (c : ascii) : ascii :=
  let n := nat_of_ascii c in
  if (97 <=? n)%nat && (n <=? 122)%nat then ascii_of_nat (n - 32) else c.

Fixpoint toUpperCase (s : string) : string :=
  match s with
  | EmptyString => EmptyString
  | String c rest => String (upperChar c) (toUpperCase rest)
  end.

Definition rgbToHex (r g b : Z) : string :=
  String "#"
    (toUpperCase
       (slice1 (toString16 (shl32 1 24 + shl32 r 16 + shl32 g 8 + b)))).

Definition interpolateRgb (color1 color2 : RGB) (factor : Q) : RGB :=
  let '(r1, g1, b1) := color1 in
  let '(r2, g2, b2) := color2 in
  let mix (x y : Z) :=
    Math_round (inject_Z x + factor * (inject_Z y - inject_Z x))%Q in
  (mix r1 r2, mix g1 g2, mix b1 b2).

(** [Math.round(rgbColors.reduce((sum, c) => sum + c[k], 0) / rgbColors.length)]
    for one channel [k]. *)
Definition averageChannel (channel : RGB -> Z) (rgbColors : list RGB) : Z :=
  let total := fold_left (fun sum c => sum + channel c) rgbColors 0 in
  Math_round (inject_Z total / inject_Z (Z.of_nat (List.length rgbColors)))%Q.

Definition red (c : RGB) : Z := fst (fst c).
Definition green (c : RGB) : Z := snd (fst c).
Definition blue (c : RGB) : Z := snd c.

(** The loop [while (idx2 === idx1) idx2 = Math.floor(Math.random() * n)];
    it ends at the first draw that gives another index. *)
Fixpoint redrawWhileEqual (n : nat) (idx1 idx2 : Z) (s : list Q)
  : option (Z * list Q) :=
  if idx2 =? idx1 then
    match s with
    | r :: s' =>
        if inUnit r then redrawWhileEqual n idx1 (scaleIndex r n) s' else None
    | [] => None
    end
  else Some (idx2, s).

(** One iteration of the loop that interpolates between a random pair. *)
Definition interpolatedColor (rgbColors : list RGB) : Rand string :=
  let n := List.length rgbColors in
  idx1 <- randomIndex n ;;
  idx2 <- randomIndex n ;;
  idx2' <- (if (1 <? n)%nat then redrawWhileEqual n idx1 idx2 else ret idx2) ;;
  factor <- Math_random ;;
  c1 <- index rgbColors idx1 ;;
  c2 <- index rgbColors idx2' ;;
  let interpolated := interpolateRgb c1 c2 factor in
  ret (rgbToHex (red interpolated) (green interpolated) (blue interpolated)).

(** [for (let i = 1; i < numColors; i++) blendedPalette.push(...)], with
    [count] the number of iterations left. *)
Fixpoint interpolationLoop (count : nat) (rgbColors : list RGB)
  (blendedPalette : list string) : Rand (list string) :=
  match count with
  | O => ret blendedPalette
  | S count' =>
      c <- interpolatedColor rgbColors ;;
      interpolationLoop count' rgbColors (blendedPalette ++ [c])
  end.

Definition blendHexPalettes (hexColors : list string) (numColors : nat)
  : Rand (list string) :=
  match hexColors with
  | [] => ret []
  | [c] => ret [c]
  | _ =>
      let rgbColors := filterBoolean (map hexToRgb hexColors) in
      match rgbColors with
      | [] => ret []
      | _ =>
          let avgR := averageChannel red rgbColors in
          let avgG := averageChannel green rgbColors in
          let avgB := averageChannel blue rgbColors in
          blendedPalette <-
            interpolationLoop (numColors - 1) rgbColors
              [rgbToHex avgR avgG avgB] ;;
          ret (firstn numColors (Set_from blendedPalette))
      end
  end.

(** ** VibeProcessor ([core/VibeProcessor.ts]) *)

Definition VIBE_LIFESPAN_MS : Z := 48 * 60 * 60 * 1000.

Definition createNewVibe (s : VibeStore) (visualParams : Visual.t)
  (audioParams : Audio.t) (hapticParams : option Haptic.t)
  (textParams : option Text.t) (now : Z) (uuid : string)
  : Vibe * VibeStore :=
  let newVibe :=
    mkVibe uuid now (now + VIBE_LIFESPAN_MS) visualParams audioParams
      hapticParams textParams (mkInternal [] 0%Q 0 now) in
  (newVibe, saveVibe s newVibe).

(** [Math.min(100, Math.max(0, Math.round(x)))]. *)
Definition clampPercent (x : Q) : Q :=
  inject_Z (Z.min 100 (Z.max 0 (Math_round x))).

(** [xs.reduce((sum, x) => sum + f(x), 0) / xs.length]. *)
Definition averageOf (A : Type) (f : A -> Q) (xs : list A) : Q :=
  (fold_left (fun sum x => sum + f x) xs 0
   / inject_Z (Z.of_nat (List.length xs)))%Q.

Definition blendVisuals (visuals : list Visual.t) : Rand Visual.t :=
  let avgIntensity := averageOf Visual.intensity visuals in
  let animationTypes := map Visual.animationType visuals in
  chosenAnimationType <- pickRandom animationTypes ;;
  let allParentColors := flat_map Visual.palette visuals in
  blendedPalette <- blendHexPalettes allParentColors 3 ;;
  ret (Visual.mk blendedPalette chosenAnimationType
         (clampPercent avgIntensity)).

(** [a.pitchShift || 0]. *)
Definition pitchShiftOrZero (a : Audio.t) : Q :=
  match Audio.pitchShift a with
  | Some p => if Qeq_bool p 0 then 0%Q else p
  | None => 0%Q
  end.

Definition blendAudios (audios : list Audio.t) : Rand Audio.t :=
  let avgVolume := averageOf Audio.volume audios in
  let avgPitchShift := averageOf pitchShiftOrZero audios in
  let loopUrls := map Audio.loopUrl audios in
  chosenLoopUrl <- pickRandom loopUrls ;;
  ret (Audio.mk chosenLoopUrl (clampPercent avgVolume) (Some avgPitchShift)).

Definition blendHaptics (haptics : list Haptic.t) : Rand (option Haptic.t) :=
  match haptics with
  | [] => ret None
  | _ =>
      let avgIntensity := averageOf Haptic.intensity haptics in
      let patterns := map Haptic.pattern haptics in
      chosenPattern <- pickRandom patterns ;;
      ret (Some (Haptic.mk chosenPattern (clampPercent avgIntensity)))
  end.

Definition blendTexts (texts : list Text.t) : Rand (option Text.t) :=
  match texts with
  | [] => ret None
  | _ =>
      let contents := map Text.content texts in
      chosenContent <- pickRandom contents ;;
      let colors := map Text.color texts in
      blendedColor <- pickRandom colors ;;
      let fontStyles := map Text.fontStyle texts in
      chosenFontStyle <- pickRandom fontStyles ;;
      ret (Some (Text.mk chosenContent chosenFontStyle blendedColor))
  end.

(** [weaveVibes] returns the new Vibe, or [None] for JavaScript's [null],
    and the store it leaves. *)
Definition weaveVibes (s : VibeStore) (parentIds : list string) (now : Z)
  (uuid : string) : Rand (option Vibe * VibeStore) :=
  if (List.length parentIds =? 0)%nat || (3 <? List.length parentIds)%nat
  then ret (None, s)
  else
    let parentVibes := getVibesByIds s parentIds in
    if negb (List.length parentVibes =? List.length parentIds)%nat
    then ret (None, s)
    else
      newVisual <- blendVisuals (map visual parentVibes) ;;
      newAudio <- blendAudios (map audio parentVibes) ;;
      newHaptic <- blendHaptics (filterBoolean (map haptic parentVibes)) ;;
      newText <- blendTexts (filterBoolean (map text parentVibes)) ;;
      let newVibe :=
        mkVibe uuid now (now + VIBE_LIFESPAN_MS) newVisual newAudio
          newHaptic newText
          (mkInternal (map id parentVibes) 0%Q
             (Math_max (map (fun v => generation (_internal v)) parentVibes)
              + 1)
             now) in
      ret (Some newVibe, saveVibe s newVibe).

(** [resonateWithVibe] updates the Vibe that [getVibe] returned and saves
    it; every entry of the store sits under its own id, so the save
    rewrites the entry that was read. *)
Definition resonateWithVibe (s : VibeStore) (vibeId : string) (now : Z)
  : option Vibe * VibeStore :=
  match getVibe s vibeId with
  | None => (None, s)
  | Some vibe =>
      let vibe1 :=
        set_resonanceScore vibe (resonanceScore (_internal vibe) + 1)%Q in
      let vibe2 := set_lastResonatedAt vibe1 now in
      (Some vibe2, saveVibe s vibe2)
  end.

(** [(now - vibe._internal.lastResonatedAt) / (1000 * 60 * 60)]. *)
Definition hoursSince (now : Z) (vibe : Vibe) : Q :=
  (inject_Z (now - lastResonatedAt (_internal vibe))
   / inject_Z (1000 * 60 * 60))%Q.

(** The body of the [forEach] of [decayVibeResonance]. *)
Definition decayStep (decayRate : Q) (now : Z) (s : VibeStore) (vibe : Vibe)
  : VibeStore :=
  let hoursSinceLastResonance := hoursSince now vibe in
  if Qgtb hoursSinceLastResonance 1 then
    let score := resonanceScore (_internal vibe) in
    let decayAmount := (score * decayRate * hoursSinceLastResonance)%Q in
    saveVibe s (set_resonanceScore vibe (Qmax 0 (score - decayAmount)))
  else s.

(** [now] is the clock read by [decayVibeResonance], [nowStore] the later
    one read by [getAllActiveVibes]. *)
Definition decayVibeResonance (s : VibeStore) (decayRate : Q)
  (now nowStore : Z) : VibeStore :=
  fold_left (decayStep decayRate now) (getAllActiveVibes s nowStore) s.

(** The comparator [(a, b) => b._internal.resonanceScore - a._internal.resonanceScore]. *)
Definition byResonanceDesc (a b : Vibe) : Q :=
  (resonanceScore (_internal b) - resonanceScore (_internal a))%Q.

(** [arr.includes(v)] on Vibe objects; the objects of a store are told
    apart by their ids. *)
Definition includes (arr : list Vibe) (v : Vibe) : bool :=
  existsb (fun w => String.eqb (id w) (id v)) arr.

(** [shuffle] stands for [.sort(() => 0.5 - Math.random())], whose outcome
    is left to the JavaScript engine. *)
Definition getStreamVibes (shuffle : list Vibe -> list Vibe) (s : VibeStore)
  (streamType : StreamType) (associatedId : string) (limit : Z)
  (nowStore : Z) : list string :=
  let allActiveVibes := getAllActiveVibes s nowStore in
  match streamType with
  | personal =>
      let sorted := Array_sort byResonanceDesc allActiveVibes in
      let highlyResonated := slice0 sorted (popularCount limit) in
      let randomVibes :=
        slice0
          (shuffle (filter (fun v => negb (includes highlyResonated v)) sorted))
          (limit - Z.of_nat (List.length highlyResonated)) in
      Set_from (map id (highlyResonated ++ randomVibes))
  | collective =>
      map id (slice0 (Array_sort byResonanceDesc allActiveVibes) limit)
  end.

(** ** Request handlers ([api/auraRoutes.ts]) *)

Inductive Json :=
| JMessage (message : string)
| JVibe (vibe : Vibe)
| JResonance (message : string) (vibeId : string) (currentResonanceScore : Q)
| JWoven (message : string) (vibeId : string) (vibe : Vibe)
| JStream (streamType : StreamType) (associatedId : string)
    (vibes : list Vibe).

Record MockResponse := mkResponse { _status : Z; _json : Json }.

Definition notFoundOrExpired (vibeId : string) : string :=
  ("Vibe with ID " ++ vibeId ++ " not found or expired.")%string.

Definition handleGetVibe (s : VibeStore) (vibeId : option string) (now : Z)
  : MockResponse :=
  match vibeId with
  | None => mkResponse 400 (JMessage "Vibe ID is required.")
  | Some i =>
      if String.eqb i "" then mkResponse 400 (JMessage "Vibe ID is required.")
      else
        match getVibe s i with
        | None => mkResponse 404 (JMessage (notFoundOrExpired i))
        | Some vibe =>
            if expiresAt vibe <=? now
            then mkResponse 404 (JMessage (notFoundOrExpired i))
            else mkResponse 200 (JVibe vibe)
        end
  end.

Definition handleResonateVibe (s : VibeStore) (vibeId : option string)
  (now : Z) : MockResponse * VibeStore :=
  match vibeId with
  | None => (mkResponse 400 (JMessage "Vibe ID is required."), s)
  | Some i =>
      if String.eqb i ""
      then (mkResponse 400 (JMessage "Vibe ID is required."), s)
      else
        match resonateWithVibe s i now with
        | (None, s') => (mkResponse 404 (JMessage (notFoundOrExpired i)), s')
        | (Some updatedVibe, s') =>
            (mkResponse 200
               (JResonance "Resonance recorded." (id updatedVibe)
                  (resonanceScore (_internal updatedVibe))), s')
        end
  end.

(** The [parentVibeIds] of a request body: something that is not an array,
    or an array whose items are strings ([Some]) or not ([None]). *)
Inductive WeaveBody :=
| NotAnArray
| ArrayOf (items : list (option string)).

Definition isNone (A : Type) (x : option A) : bool :=
  match x with
  | None => true
  | Some _ => false
  end.

Definition handleWeaveVibes (s : VibeStore) (parentVibeIds : WeaveBody)
  (now : Z) (uuid : string) : Rand (MockResponse * VibeStore) :=
  match parentVibeIds with
  | NotAnArray =>
      ret (mkResponse 400
             (JMessage "Must provide 1 to 3 parent Vibe IDs for weaving."), s)
  | ArrayOf items =>
      if (List.length items =? 0)%nat || (3 <? List.length items)%nat
      then ret (mkResponse 400
                  (JMessage "Must provide 1 to 3 parent Vibe IDs for weaving."),
                s)
      else if existsb (@isNone string) items
      then ret (mkResponse 400 (JMessage "Parent Vibe IDs must be strings."), s)
      else
        r <- weaveVibes s (filterBoolean items) now uuid ;;
        match r with
        | (None, s') =>
            ret (mkResponse 404
                   (JMessage
                      "Failed to weave Vibes. One or more parent Vibes might not exist or are expired."),
                 s')
        | (Some wovenVibe, s') =>
            ret (mkResponse 201
                   (JWoven "Vibes woven successfully" (id wovenVibe) wovenVibe),
                 s')
        end
  end.

(** [streamType] is [None] for a type other than the two stream types,
    [associatedId] is [None] when the parameter is missing, and [limit] is
    what [parseInt(req.query?.limit || '20', 10)] gives, [None] for [NaN]. *)
Definition handleGetStreamVibes (shuffle : list Vibe -> list Vibe)
  (s : VibeStore) (streamType : option StreamType)
  (associatedId : option string) (limit : option Z) (nowStore : Z)
  : MockResponse :=
  match streamType with
  | None =>
      mkResponse 400
        (JMessage "Invalid stream type. Must be 'personal' or 'collective'.")
  | Some type =>
      match associatedId with
      | None => mkResponse 400 (JMessage "Associated ID is required for stream.")
      | Some aid =>
          if String.eqb aid ""
          then mkResponse 400 (JMessage "Associated ID is required for stream.")
          else
            match limit with
            | None =>
                mkResponse 400
                  (JMessage "Limit must be a number between 1 and 100.")
            | Some n =>
                if (n <=? 0) || (100 <? n)
                then mkResponse 400
                       (JMessage "Limit must be a number between 1 and 100.")
                else
                  let vibeIds := getStreamVibes shuffle s type aid n nowStore in
                  let vibes := getVibesByIds s vibeIds in
                  mkResponse 200 (JStream type aid vibes)
            end
      end
  end.

(** ** Sample data *)

Definition visualA : Visual.t := Visual.mk ["#AEC6CF"; "#ADD8E6"]%string flow 60.
Definition audioA : Audio.t := Audio.mk "a.mp3" 70 None.
Definition visualB : Visual.t :=
  Visual.mk ["#FF6347"; "#FFD700"]%string sparkle 85.
Definition audioB : Audio.t := Audio.mk "b.mp3" 80 None.
Definition visualMono : Visual.t := Visual.mk ["#000000"%string] static 50.

(** A store with Vibe A created at time 0 and Vibe B at time 10. *)
Definition vibeA : Vibe :=
  fst (createNewVibe emptyStore visualA audioA None None 0 "A").
Definition storeA : VibeStore :=
  snd (createNewVibe emptyStore visualA audioA None None 0 "A").
Definition storeAB : VibeStore :=
  snd (createNewVibe storeA visualB audioB None None 10 "B").
Definition storeMono : VibeStore :=
  snd (createNewVibe emptyStore visualMono audioA None None 0 "M").

(** Vibe A of [storeAB] resonated three times at time 30. *)
Definition storeResonated : VibeStore :=
  snd (resonateWithVibe
         (snd (resonateWithVibe (snd (resonateWithVibe storeAB "A" 30)) "A" 30))
         "A" 30).

(** A supply of draws that alternates between 0 and 1/2. *)
Fixpoint alternating (zero : bool) (k : nat) : list Q :=
  match k with
  | O => []
  | S k' => (if zero then 0 else 1 # 2)%Q :: alternating (negb zero) k'
  end.

(** The index that a draw of an alternating supply selects. *)
Definition alternatingIndex (zero : bool) (n : nat) : Z :=
  if zero then 0 else Z.of_nat n / 2.

(** [m] returns on every alternating supply of at least [needed] draws,
    and leaves an alternating supply with at most [needed] draws fewer. *)
Definition returnsWithin (A : Type) (m : Rand A) (needed : nat) : Prop :=
  forall zero k,
    (needed <= k)%nat ->
    exists a zero' k',
      (k - needed <= k')%nat
      /\ m (alternating zero k) = Some (a, alternating zero' k').

(** ** Invariants and reachable stores *)

(** A Vibe is active at [now] iff [now < expiresAt]. *)
Definition active (now : Z) (v : Vibe) : Prop := now < expiresAt v.

(** The invariant of the store object: [Map] keys are unique, and
    [saveVibe], its only writer, files every Vibe under its own id. *)
Definition storeWf (s : VibeStore) : Prop :=
  NoDup (Map_keys s) /\ Forall (fun kv => fst kv = id (snd kv)) s.

(** Lineage invariant of one Vibe. *)
Definition lineageOk (v : Vibe) : Prop :=
  0 <= generation (_internal v)
  /\ (parentVibeIds (_internal v) = [] <-> generation (_internal v) = 0)
  /\ (List.length (parentVibeIds (_internal v)) <= 3)%nat.

(** What the processor keeps true of a store. *)
Definition storeOk (s : VibeStore) : Prop :=
  storeWf s /\ Forall (fun kv => lineageOk (snd kv)) s.

(** The demonstration driver ([runDemo]) overwrites [expiresAt] of a stored
    Vibe and saves it again. *)
Definition set_expiresAt (v : Vibe) (t : Z) : Vibe :=
  mkVibe (id v) (createdAt v) t (visual v) (audio v) (haptic v) (text v)
    (_internal v).

Definition expireVibe (s : VibeStore) (i : string) (t : Z) : VibeStore :=
  match getVibe s i with
  | Some v => saveVibe s (set_expiresAt v t)
  | None => s
  end.

(** The stores a program can build from the empty one with the operations
    of the processor and of the store. *)
Inductive Reachable : VibeStore -> Prop :=
| R_empty : Reachable emptyStore
| R_create s vis aud hap txt now uuid :
    Reachable s ->
    Reachable (snd (createNewVibe s vis aud hap txt now uuid))
| R_weave s ids now uuid rnd r s' rnd' :
    Reachable s ->
    weaveVibes s ids now uuid rnd = Some (r, s', rnd') ->
    Reachable s'
| R_resonate s i now :
    Reachable s -> Reachable (snd (resonateWithVibe s i now))
| R_decay s rate now nowStore :
    Reachable s -> Reachable (decayVibeResonance s rate now nowStore)
| R_deleteExpired s now :
    Reachable s -> Reachable (deleteExpiredVibes s now)
| R_delete s i :
    Reachable s -> Reachable (snd (deleteVibe s i))
| R_expire s i t :
    Reachable s -> Reachable (expireVibe s i t)
| R_clear s :
    Reachable s -> Reachable (clear s).

(** The Vibe that [decayVibeResonance] leaves for an active [v]. *)
Definition decayed (decayRate : Q) (now : Z) (v : Vibe) : Vibe :=
  if Qgtb (hoursSince now v) 1 then
    set_resonanceScore v
      (Qmax 0
         (resonanceScore (_internal v)
          - resonanceScore (_internal v) * decayRate * hoursSince now v))%Q
  else v.

(** [c] is the colour code of an interpolation, at a factor in [[0, 1)],
    between the colours at two positions of [rgbColors], which differ when
    [rgbColors] has more than one colour. *)
Definition isInterpolation (rgbColors : list RGB) (c : string) : Prop :=
  exists (i j : nat) (c1 c2 : RGB) (factor : Q),
    nth_error rgbColors i = Some c1 /\ nth_error rgbColors j = Some c2
    /\ ((1 < List.length rgbColors)%nat -> i <> j)
    /\ (0 <= factor)%Q /\ (factor < 1)%Q
    /\ c = rgbToHex (red (interpolateRgb c1 c2 factor))
             (green (interpolateRgb c1 c2 factor))
             (blue (interpolateRgb c1 c2 factor)).

(** The score of the Vibe stored under an id. *)
Definition scoreOf (s : VibeStore) (i : string) : Q :=
  match getVibe s i with
  | Some v => resonanceScore (_internal v)
  | None => 0%Q
  end.

(** Descending order of resonance scores. *)
Definition scoreGe (a b : Vibe) : Prop :=
  (resonanceScore (_internal b) <= resonanceScore (_internal a))%Q.

(** ** Hexadecimal digits

    The digit of value [k] as a hexadecimal numeral and as an upper-case
    character, and the two digits of a byte; they describe what
    [rgbToHex] prints. *)

Definition hexDigitUint (k : Z) (rest : Hexadecimal.uint) : Hexadecimal.uint :=
  match k with
  | 0 => Hexadecimal.D0 rest | 1 => Hexadecimal.D1 rest
  | 2 => Hexadecimal.D2 rest | 3 => Hexadecimal.D3 rest
  | 4 => Hexadecimal.D4 rest | 5 => Hexadecimal.D5 rest
  | 6 => Hexadecimal.D6 rest | 7 => Hexadecimal.D7 rest
  | 8 => Hexadecimal.D8 rest | 9 => Hexadecimal.D9 rest
  | 10 => Hexadecimal.Da rest | 11 => Hexadecimal.Db rest
  | 12 => Hexadecimal.Dc rest | 13 => Hexadecimal.Dd rest
  | 14 => Hexadecimal.De rest | _ => Hexadecimal.Df rest
  end.

Definition upperHexChar (k : Z) : ascii :=
  match k with
  | 0 => "0" | 1 => "1" | 2 => "2" | 3 => "3" | 4 => "4" | 5 => "5"
  | 6 => "6" | 7 => "7" | 8 => "8" | 9 => "9" | 10 => "A" | 11 => "B"
  | 12 => "C" | 13 => "D" | 14 => "E" | _ => "F"
  end%char.

Definition byteDigits (x : Z) (rest : Hexadecimal.uint) : Hexadecimal.uint :=
  hexDigitUint (x / 16) (hexDigitUint (x mod 16) rest).

(** The colour code [#RRGGBB] of three bytes, digit by digit. *)
Definition colourCode (r g b : Z) : string :=
  String "#"
    (String (upperHexChar (r / 16)) (String (upperHexChar (r mod 16))
    (String (upperHexChar (g / 16)) (String (upperHexChar (g mod 16))
    (String (upperHexChar (b / 16)) (String (upperHexChar (b mod 16))
       EmptyString)))))).

(** A colour whose three components are bytes. *)
Definition isByteColour (c : RGB) : Prop :=
  0 <= red c <= 255 /\ 0 <= green c <= 255 /\ 0 <= blue c <= 255.

(** * Properties *)

Unset Implicit Arguments.

(** ** JavaScript [Map] *)

Section MapFacts.
Variable V : Type.
Implicit Types (m : list (string * V)) (k : string) (v : V).

Lemma Map_get_set_same m k v : Map_get (Map_set m k v) k = Some v.
Proof.
  induction m as [|[k' v'] m IH]; simpl.
  - now rewrite String.eqb_refl.
  - destruct (String.eqb k' k) eqn:E; simpl.
    + now rewrite String.eqb_refl.
    + now rewrite E.
Qed.

Lemma Map_get_set_other m k k' v :
  k <> k' -> Map_get (Map_set m k v) k' = Map_get m k'.
Proof.
  intros Hne. induction m as [|[k0 v0] m IH]; simpl.
  - destruct (String.eqb k k') eqn:E; [apply String.eqb_eq in E; easy | easy].
  - destruct (String.eqb k0 k) eqn:E; simpl.
    + apply String.eqb_eq in E. subst k0.
      destruct (String.eqb k k') eqn:E'; [apply String.eqb_eq in E'; easy | easy].
    + now rewrite IH.
Qed.

Lemma Map_get_In m k v : Map_get m k = Some v -> In (k, v) m.
Proof.
  induction m as [|[k' v'] m IH]; simpl; [discriminate|].
  destruct (String.eqb k' k) eqn:E.
  - apply String.eqb_eq in E. intros [= ->]. subst. now left.
  - intros H. right. now apply IH.
Qed.

Lemma In_Map_get m k v :
  NoDup (Map_keys m) -> In (k, v) m -> Map_get m k = Some v.
Proof.
  induction m as [|[k' v'] m IH]; simpl; [easy|].
  intros Hnd [Heq | Hin].
  - injection Heq as -> ->. now rewrite String.eqb_refl.
  - inversion Hnd as [|? ? Hnotin Hnd']; subst.
    destruct (String.eqb k' k) eqn:E.
    + apply String.eqb_eq in E. subst k'. exfalso. apply Hnotin.
      change k with (fst (k, v)). now apply in_map.
    + now apply IH.
Qed.

Lemma Map_get_None_keys m k : Map_get m k = None <-> ~ In k (Map_keys m).
Proof.
  induction m as [|[k' v'] m IH]; simpl; [easy|].
  destruct (String.eqb k' k) eqn:E.
  - apply String.eqb_eq in E. subst. split; [discriminate | intros H; exfalso; auto].
  - apply String.eqb_neq in E. rewrite IH. tauto.
Qed.

Lemma Map_set_In m k v kv :
  In kv (Map_set m k v) -> kv = (k, v) \/ In kv m.
Proof.
  induction m as [|[k' v'] m IH]; simpl.
  - intros [H | []]. now left.
  - destruct (String.eqb k' k) eqn:E; simpl.
    + intros [H | H]; [now left | right; now right].
    + intros [H | H]; [right; now left |].
      destruct (IH H) as [H' | H']; [now left | right; now right].
Qed.

Lemma Map_keys_set_In m k v k' :
  In k' (Map_keys (Map_set m k v)) <-> k' = k \/ In k' (Map_keys m).
Proof.
  induction m as [|[k0 v0] m IH]; simpl.
  - intuition.
  - destruct (String.eqb k0 k) eqn:E; simpl.
    + apply String.eqb_eq in E. subst. intuition.
    + rewrite IH. intuition.
Qed.

Lemma Map_keys_set_has m k v :
  In k (Map_keys m) -> Map_keys (Map_set m k v) = Map_keys m.
Proof.
  induction m as [|[k0 v0] m IH]; simpl; [easy|].
  destruct (String.eqb k0 k) eqn:E; simpl.
  - apply String.eqb_eq in E. now subst.
  - apply String.eqb_neq in E. intros [H | H]; [easy|]. now rewrite IH.
Qed.

Lemma Map_set_NoDup m k v :
  NoDup (Map_keys m) -> NoDup (Map_keys (Map_set m k v)).
Proof.
  induction m as [|[k0 v0] m IH]; simpl; intros Hnd.
  - constructor; [easy | constructor].
  - inversion Hnd as [|? ? Hnotin Hnd']; subst.
    destruct (String.eqb k0 k) eqn:E; simpl.
    + apply String.eqb_eq in E. subst. now constructor.
    + apply String.eqb_neq in E. constructor; [|now apply IH].
      rewrite Map_keys_set_In. intros [H | H]; [now apply E | easy].
Qed.

Lemma Map_delete_In m k kv : In kv (Map_delete m k) -> In kv m.
Proof.
  induction m as [|[k' v'] m IH]; simpl; [easy|].
  destruct (String.eqb k' k); simpl; [now right|].
  intros [H | H]; [now left | right; now apply IH].
Qed.

Lemma Map_delete_NoDup m k :
  NoDup (Map_keys m) -> NoDup (Map_keys (Map_delete m k)).
Proof.
  induction m as [|[k' v'] m IH]; simpl; intros Hnd; [constructor|].
  inversion Hnd as [|? ? Hnotin Hnd']; subst.
  destruct (String.eqb k' k); simpl; [easy|].
  constructor; [|now apply IH].
  intros Hin. apply Hnotin. apply in_map_iff in Hin.
  destruct Hin as [[k0 v0] [Hk Hin]]. simpl in Hk; subst.
  apply Map_delete_In in Hin. change k' with (fst (k', v0)). now apply in_map.
Qed.

End MapFacts.

(** ** The store invariant *)

Lemma storeWf_empty : storeWf emptyStore.
Proof. split; constructor. Qed.

Lemma storeWf_save s v : storeWf s -> storeWf (saveVibe s v).
Proof.
  intros [Hnd Hid]. split.
  - now apply Map_set_NoDup.
  - rewrite Forall_forall in *. intros kv Hin.
    apply Map_set_In in Hin. destruct Hin as [-> | Hin]; [easy | now apply Hid].
Qed.

Lemma storeWf_delete s i : storeWf s -> storeWf (Map_delete s i).
Proof.
  intros [Hnd Hid]. split.
  - now apply Map_delete_NoDup.
  - rewrite Forall_forall in *. intros kv Hin. apply Hid.
    now apply Map_delete_In in Hin.
Qed.

Lemma storeWf_get_id s i v : storeWf s -> getVibe s i = Some v -> id v = i.
Proof.
  intros [_ Hid] Hget. apply Map_get_In in Hget.
  rewrite Forall_forall in Hid. now specialize (Hid _ Hget).
Qed.

Lemma storeWf_In_get s v :
  storeWf s -> In v (Map_values s) -> getVibe s (id v) = Some v.
Proof.
  intros [Hnd Hid] Hin. apply in_map_iff in Hin.
  destruct Hin as [[k w] [Hw Hin]]. simpl in Hw. subst w.
  rewrite Forall_forall in Hid. pose proof (Hid _ Hin) as Hk. simpl in Hk.
  subst k. now apply In_Map_get.
Qed.

Lemma storeWf_ids s : storeWf s -> map id (Map_values s) = Map_keys s.
Proof.
  intros [_ Hid]. unfold Map_values, Map_keys. rewrite map_map.
  apply map_ext_in. intros kv Hin. rewrite Forall_forall in Hid.
  symmetry. now apply Hid.
Qed.

Lemma deleteExpired_fold_wf (l : VibeStore) now : forall s,
  storeWf s ->
  storeWf (fold_left (deleteIfExpired now) l s).
Proof.
  induction l as [|kv l IH]; simpl; intros s Hwf; [easy|].
  apply IH. unfold deleteIfExpired.
  destruct (expiresAt (snd kv) <=? now); [now apply storeWf_delete | easy].
Qed.

Lemma deleteExpired_fold_In (l : VibeStore) now : forall s kv,
  In kv (fold_left (deleteIfExpired now) l s) -> In kv s.
Proof.
  induction l as [|kv0 l IH]; simpl; intros s kv Hin; [easy|].
  apply IH in Hin. unfold deleteIfExpired in Hin.
  destruct (expiresAt (snd kv0) <=? now); [|easy].
  now apply Map_delete_In in Hin.
Qed.

(** ** Lookup through the request handler *)

Lemma handleGetVibe_found s i v now :
  i <> ""%string -> getVibe s i = Some v -> now < expiresAt v ->
  handleGetVibe s (Some i) now = mkResponse 200 (JVibe v).
Proof.
  intros Hi Hget Hact. unfold handleGetVibe.
  apply String.eqb_neq in Hi. rewrite Hi, Hget.
  destruct (expiresAt v <=? now) eqn:E; [apply Z.leb_le in E; lia | easy].
Qed.

(** C7. For every store, every non-empty id whose stored Vibe has
    [expiresAt <= now] -- swept or not -- the lookup handler [handleGetVibe]
    answers 404 with the "not found or expired" message; and for every id,
    empty or not, its answer never carries that Vibe (the status is never
    200). *)
Theorem handleGetVibe_expired_not_found s i v now :
  getVibe s i = Some v -> expiresAt v <= now ->
  (i <> ""%string ->
   handleGetVibe s (Some i) now = mkResponse 404 (JMessage (notFoundOrExpired i)))
  /\ _status (handleGetVibe s (Some i) now) <> 200
  /\ (forall w, _json (handleGetVibe s (Some i) now) <> JVibe w).
Proof.
  intros Hget Hexp. unfold handleGetVibe. rewrite Hget.
  apply Z.leb_le in Hexp. rewrite Hexp.
  destruct (String.eqb i "") eqn:E.
  - split; [|split]; simpl; try easy.
    intros Hi. apply String.eqb_eq in E. easy.
  - split; [|split]; simpl; easy.
Qed.

Lemma handleGetVibe_expired_not_found_witness :
  handleGetVibe storeA (Some "A"%string) (VIBE_LIFESPAN_MS + 5)
  = mkResponse 404 (JMessage (notFoundOrExpired "A")).
Proof.
  refine (proj1 (handleGetVibe_expired_not_found storeA "A"%string vibeA
                   (VIBE_LIFESPAN_MS + 5) _ _) _).
  - reflexivity.
  - vm_compute. discriminate.
  - discriminate.
Defined.

(** ** Runs of randomised code *)

Lemma bind_Some (A B : Type) (m : Rand A) (k : A -> Rand B) s r :
  (x <- m ;; k x) s = Some r ->
  exists a s', m s = Some (a, s') /\ k a s' = Some r.
Proof.
  unfold bind. destruct (m s) as [[a s']|]; [|discriminate].
  intros H. now exists a, s'.
Qed.

Lemma ret_Some (A : Type) (a : A) s r : ret a s = Some r -> r = (a, s).
Proof. unfold ret. now intros [= <-]. Qed.

Ltac run_inv H :=
  repeat
    (let a := fresh "a" in
     let s := fresh "rnd" in
     let Hm := fresh "Hrun" in
     apply bind_Some in H; destruct H as (a & s & Hm & H));
  try (apply ret_Some in H).

(** ** Store lookups by id *)

Lemma filterBoolean_length (A : Type) (l : list (option A)) :
  (List.length (filterBoolean l) <= List.length l)%nat.
Proof. induction l as [|[x|] l IH]; simpl; lia. Qed.

Lemma filterBoolean_full (A : Type) (l : list (option A)) :
  List.length (filterBoolean l) = List.length l ->
  map Some (filterBoolean l) = l.
Proof.
  induction l as [|[x|] l IH]; simpl; intros H.
  - reflexivity.
  - f_equal. apply IH. lia.
  - pose proof (filterBoolean_length A l). lia.
Qed.

Lemma filterBoolean_In (A : Type) (l : list (option A)) x :
  In x (filterBoolean l) <-> In (Some x) l.
Proof.
  induction l as [|[y|] l IH]; simpl.
  - tauto.
  - rewrite IH. split; intros [H | H]; auto; left; congruence.
  - rewrite IH. split; [auto | intros [H | H]; [discriminate | easy]].
Qed.

Lemma getVibesByIds_In s ids v :
  In v (getVibesByIds s ids) -> exists i, In i ids /\ getVibe s i = Some v.
Proof.
  unfold getVibesByIds. rewrite filterBoolean_In, in_map_iff.
  intros [i [Hget Hin]]. now exists i.
Qed.

Lemma getVibesByIds_missing s ids i :
  In i ids -> getVibe s i = None ->
  (List.length (getVibesByIds s ids) < List.length ids)%nat.
Proof.
  unfold getVibesByIds, getVibe. intros Hin Hnone.
  induction ids as [|j ids IH]; simpl in *; [easy|].
  destruct Hin as [-> | Hin].
  - rewrite Hnone.
    pose proof (filterBoolean_length _ (map (fun i => Map_get s i) ids)) as H.
    rewrite length_map in H. lia.
  - specialize (IH Hin). destruct (Map_get s j); simpl; lia.
Qed.

Lemma getVibesByIds_resolved s ids :
  storeWf s ->
  List.length (getVibesByIds s ids) = List.length ids ->
  map id (getVibesByIds s ids) = ids.
Proof.
  intros Hwf. unfold getVibesByIds.
  induction ids as [|i ids IH]; simpl; [easy|].
  destruct (Map_get s i) as [v|] eqn:E; simpl; intros Hlen.
  - f_equal; [eapply storeWf_get_id; eauto | apply IH; lia].
  - pose proof (filterBoolean_length _ (map (fun i => Map_get s i) ids)) as H.
    rewrite length_map in H. lia.
Qed.

(** ** Weaving *)

(** What a run of [weaveVibes] that returns a Vibe has done. *)
Lemma weaveVibes_success s ids now uuid rnd v s' rnd' :
  weaveVibes s ids now uuid rnd = Some (Some v, s', rnd') ->
  let parentVibes := getVibesByIds s ids in
  (1 <= List.length ids <= 3)%nat
  /\ List.length parentVibes = List.length ids
  /\ s' = saveVibe s v
  /\ id v = uuid /\ createdAt v = now
  /\ expiresAt v = now + VIBE_LIFESPAN_MS
  /\ _internal v =
       mkInternal (map id parentVibes) 0%Q
         (Math_max (map (fun p => generation (_internal p)) parentVibes) + 1)
         now
  /\ exists rnd1 rnd2,
       blendVisuals (map visual parentVibes) rnd1 = Some (visual v, rnd2).
Proof.
  unfold weaveVibes.
  destruct ((List.length ids =? 0)%nat || (3 <? List.length ids)%nat) eqn:Ecount.
  { intros H. apply ret_Some in H. discriminate. }
  destruct (negb (List.length (getVibesByIds s ids) =? List.length ids)%nat)
    eqn:Eres.
  { intros H. apply ret_Some in H. discriminate. }
  intros H. run_inv H. injection H as Hv Hs Hr. subst v s' rnd'. simpl.
  apply orb_false_iff in Ecount. destruct Ecount as [E0 E3].
  apply Nat.eqb_neq in E0. apply Nat.ltb_ge in E3.
  apply negb_false_iff, Nat.eqb_eq in Eres.
  repeat split; try lia; try easy.
  now exists rnd, rnd0.
Qed.

(** A weave with an id that the store does not hold fails before any
    random draw and leaves the store as it was. *)
Lemma weaveVibes_missing_parent s ids now uuid rnd i :
  In i ids -> getVibe s i = None ->
  weaveVibes s ids now uuid rnd = Some (None, s, rnd).
Proof.
  intros Hin Hnone. unfold weaveVibes.
  destruct ((List.length ids =? 0)%nat || (3 <? List.length ids)%nat);
    [reflexivity|].
  pose proof (getVibesByIds_missing s ids i Hin Hnone) as Hlt.
  destruct (List.length (getVibesByIds s ids) =? List.length ids)%nat eqn:E.
  - apply Nat.eqb_eq in E. lia.
  - reflexivity.
Qed.

Lemma weaveVibes_invalid_count s ids now uuid rnd :
  (List.length ids = 0 \/ 3 < List.length ids)%nat ->
  weaveVibes s ids now uuid rnd = Some (None, s, rnd).
Proof.
  intros H. unfold weaveVibes.
  destruct ((List.length ids =? 0)%nat || (3 <? List.length ids)%nat) eqn:E;
    [reflexivity|].
  apply orb_false_iff in E. destruct E as [E0 E3].
  apply Nat.eqb_neq in E0. apply Nat.ltb_ge in E3. lia.
Qed.

(** A failed weave never changes the store. *)
Lemma weaveVibes_failure_store s ids now uuid rnd s' rnd' :
  weaveVibes s ids now uuid rnd = Some (None, s', rnd') -> s' = s.
Proof.
  unfold weaveVibes.
  destruct ((List.length ids =? 0)%nat || (3 <? List.length ids)%nat).
  { intros H. apply ret_Some in H. congruence. }
  destruct (negb (List.length (getVibesByIds s ids) =? List.length ids)%nat).
  { intros H. apply ret_Some in H. congruence. }
  intros H. run_inv H. discriminate.
Qed.

(** ** Resonance *)

Lemma resonateWithVibe_missing s i now :
  getVibe s i = None -> resonateWithVibe s i now = (None, s).
Proof. intros H. unfold resonateWithVibe. now rewrite H. Qed.

Lemma resonateWithVibe_found s i v now :
  getVibe s i = Some v ->
  resonateWithVibe s i now =
    (Some (set_lastResonatedAt
             (set_resonanceScore v (resonanceScore (_internal v) + 1)%Q) now),
     saveVibe s
       (set_lastResonatedAt
          (set_resonanceScore v (resonanceScore (_internal v) + 1)%Q) now)).
Proof. intros H. unfold resonateWithVibe. now rewrite H. Qed.

(** C1. [resonateWithVibe] does not fail on an expired Vibe that the sweep
    has not removed yet: Vibe A, created at time 0, has expired 5 ms before
    the call, and the call returns it with its score raised from 0 to 1 and
    writes that to the store. *)
Theorem resonateWithVibe_expired_resonates :
  let now := VIBE_LIFESPAN_MS + 5 in
  (exists v, getVibe storeA "A" = Some v
             /\ expiresAt v <= now
             /\ (resonanceScore (_internal v) == 0)%Q)
  /\ (exists v', fst (resonateWithVibe storeA "A" now) = Some v'
                 /\ (resonanceScore (_internal v') == 1)%Q
                 /\ lastResonatedAt (_internal v') = now)
  /\ snd (resonateWithVibe storeA "A" now) <> storeA
  /\ _status (fst (handleResonateVibe storeA (Some "A"%string) now)) = 200.
Proof.
  split; [|split; [|split]].
  - eexists. split; [reflexivity|]. split; [vm_compute; discriminate | reflexivity].
  - eexists. split; [reflexivity|]. split; reflexivity.
  - vm_compute. discriminate.
  - reflexivity.
Qed.

(** C2. [weaveVibes] does not fail on a parent id that resolves only to
    an expired Vibe: Vibe M expired 5 ms before the call, and the weave of
    [[M]] returns a new Vibe W of generation 1 and saves it. *)
Theorem weaveVibes_expired_parent_weaves :
  let now := VIBE_LIFESPAN_MS + 5 in
  (exists p, getVibe storeMono "M" = Some p /\ expiresAt p <= now)
  /\ getAllActiveVibes storeMono now = []
  /\ exists w s' rnd',
       weaveVibes storeMono ["M"%string] now "W" [0; 0]%Q = Some (Some w, s', rnd')
       /\ parentVibeIds (_internal w) = ["M"%string]
       /\ generation (_internal w) = 1
       /\ getVibe s' "W" = Some w
       /\ s' <> storeMono.
Proof.
  split; [|split].
  - eexists. split; [reflexivity | vm_compute; discriminate].
  - reflexivity.
  - do 3 eexists. split; [vm_compute; reflexivity|].
    repeat split; try reflexivity. discriminate.
Qed.

(** C9. A successful weave on a store that files every Vibe under its own
    id yields a Vibe whose [parentVibeIds] is the list of ids the caller
    gave, in that order, whose [resonanceScore] is 0, and whose [expiresAt]
    is its [createdAt] plus the lifespan of 48 hours (172800000 ms). *)
Theorem weaveVibes_output_assembly s ids now uuid rnd v s' rnd' :
  storeWf s ->
  weaveVibes s ids now uuid rnd = Some (Some v, s', rnd') ->
  parentVibeIds (_internal v) = ids
  /\ resonanceScore (_internal v) = 0%Q
  /\ expiresAt v = createdAt v + VIBE_LIFESPAN_MS
  /\ VIBE_LIFESPAN_MS = 48 * 3600000.
Proof.
  intros Hwf Hrun. apply weaveVibes_success in Hrun. simpl in Hrun.
  destruct Hrun as (_ & Hlen & _ & _ & Hcreated & Hexp & Hint & _).
  rewrite Hint, Hexp, Hcreated. simpl.
  split; [now apply getVibesByIds_resolved | easy].
Qed.

Lemma storeAB_wf : storeWf storeAB.
Proof.
  unfold storeAB, storeA. do 2 (simpl; apply storeWf_save). apply storeWf_empty.
Qed.

Lemma weaveVibes_output_assembly_witness :
  exists v s' rnd',
    weaveVibes storeAB ["B"; "A"]%string 20 "W"
      [0; 0; 1 # 2; 1 # 3; 1 # 2; 3 # 4; 1 # 2; 0]%Q = Some (Some v, s', rnd')
    /\ parentVibeIds (_internal v) = ["B"; "A"]%string
    /\ resonanceScore (_internal v) = 0%Q
    /\ expiresAt v = createdAt v + VIBE_LIFESPAN_MS
    /\ VIBE_LIFESPAN_MS = 48 * 3600000.
Proof.
  destruct (weaveVibes storeAB ["B"; "A"]%string 20 "W"
              [0; 0; 1 # 2; 1 # 3; 1 # 2; 3 # 4; 1 # 2; 0]%Q)
    as [[[[v|] s'] rnd']|] eqn:E.
  - exists v, s', rnd'. split; [reflexivity|].
    exact (weaveVibes_output_assembly _ _ _ _ _ _ _ _ storeAB_wf E).
  - vm_compute in E. discriminate.
  - vm_compute in E. discriminate.
Defined.

(** ** Lineage *)

Lemma Math_max_fold_ge xs : forall x, x <= fold_left Z.max xs x.
Proof.
  induction xs as [|y xs IH]; simpl; intros x; [lia|].
  specialize (IH (Z.max x y)). lia.
Qed.

Lemma Math_max_fold_upper xs : forall x,
  Forall (fun y => y <= fold_left Z.max xs x) xs.
Proof.
  induction xs as [|y xs IH]; simpl; intros x; constructor.
  - pose proof (Math_max_fold_ge xs (Z.max x y)). lia.
  - apply IH.
Qed.

Lemma Math_max_fold_In xs : forall x,
  fold_left Z.max xs x = x \/ In (fold_left Z.max xs x) xs.
Proof.
  induction xs as [|y xs IH]; simpl; intros x; [now left|].
  destruct (IH (Z.max x y)) as [H | H]; [|right; now right].
  rewrite H. destruct (Z.max_spec x y) as [[_ ->] | [_ ->]]; [right; now left | now left].
Qed.

(** [Math_max] of a non-empty list is its greatest element. *)
Lemma Math_max_spec xs :
  xs <> [] -> In (Math_max xs) xs /\ Forall (fun x => x <= Math_max xs) xs.
Proof.
  destruct xs as [|x xs]; [easy|]. intros _. simpl. split.
  - destruct (Math_max_fold_In xs x) as [H | H]; [left; now rewrite H | now right].
  - constructor; [apply Math_max_fold_ge | apply Math_max_fold_upper].
Qed.

Lemma storeOk_save s v : storeOk s -> lineageOk v -> storeOk (saveVibe s v).
Proof.
  intros [Hwf Hall] Hv. split; [now apply storeWf_save|].
  rewrite Forall_forall in *. intros kv Hin.
  apply Map_set_In in Hin. destruct Hin as [-> | Hin]; [easy | now apply Hall].
Qed.

Lemma storeOk_get s i v : storeOk s -> getVibe s i = Some v -> lineageOk v.
Proof.
  intros [_ Hall] Hget. apply Map_get_In in Hget.
  rewrite Forall_forall in Hall. exact (Hall _ Hget).
Qed.

Lemma storeOk_value s v : storeOk s -> In v (Map_values s) -> lineageOk v.
Proof.
  intros [_ Hall] Hin. apply in_map_iff in Hin.
  destruct Hin as [kv [<- Hin]]. rewrite Forall_forall in Hall. now apply Hall.
Qed.

Lemma lineageOk_set_resonanceScore v x :
  lineageOk v -> lineageOk (set_resonanceScore v x).
Proof. easy. Qed.

Lemma lineageOk_set_lastResonatedAt v t :
  lineageOk v -> lineageOk (set_lastResonatedAt v t).
Proof. easy. Qed.

Lemma storeOk_decay_fold rate now (l : list Vibe) : forall s,
  Forall lineageOk l -> storeOk s ->
  storeOk (fold_left (decayStep rate now) l s).
Proof.
  induction l as [|x l IH]; simpl; intros s Hl Hs; [easy|].
  inversion Hl as [|? ? Hx Hl']; subst. apply IH; [easy|].
  unfold decayStep. destruct (Qgtb (hoursSince now x) 1); [|easy].
  apply storeOk_save; [easy | now apply lineageOk_set_resonanceScore].
Qed.

Lemma weaveVibes_lineage s ids now uuid rnd v s' rnd' :
  weaveVibes s ids now uuid rnd = Some (Some v, s', rnd') ->
  (1 <= List.length (parentVibeIds (_internal v)) <= 3)%nat
  /\ exists g,
       In g (map (fun p => generation (_internal p)) (getVibesByIds s ids))
       /\ Forall (fun x => x <= g)
            (map (fun p => generation (_internal p)) (getVibesByIds s ids))
       /\ generation (_internal v) = 1 + g.
Proof.
  intros Hrun. apply weaveVibes_success in Hrun. simpl in Hrun.
  destruct Hrun as (Hcount & Hlen & _ & _ & _ & _ & Hint & _).
  rewrite Hint. cbn [parentVibeIds generation].
  rewrite length_map, Hlen. split; [easy|].
  assert (Hne : map (fun p => generation (_internal p)) (getVibesByIds s ids) <> []).
  { intros H. apply (f_equal (@List.length Z)) in H.
    rewrite length_map in H. simpl in H. lia. }
  destruct (Math_max_spec _ Hne) as [Hin Hub].
  eexists. split; [exact Hin|]. split; [exact Hub | apply Z.add_comm].
Qed.

Lemma Reachable_storeOk s : Reachable s -> storeOk s.
Proof.
  induction 1 as [ | s vis aud hap txt now uuid _ IH
                   | s ids now uuid rnd r s' rnd' _ IH Hrun
                   | s i now _ IH | s rate now nowStore _ IH
                   | s now _ IH | s i _ IH | s i t _ IH | s _ IH ].
  - split; [apply storeWf_empty | constructor].
  - simpl. apply storeOk_save; [easy|]. repeat split; simpl; (easy || lia).
  - destruct r as [v|].
    + pose proof (weaveVibes_lineage _ _ _ _ _ _ _ _ Hrun) as [Hcount (g & Hin & _ & Hgen)].
      pose proof (weaveVibes_success _ _ _ _ _ _ _ _ Hrun) as Hs. simpl in Hs.
      destruct Hs as (_ & _ & -> & _). apply storeOk_save; [easy|].
      apply in_map_iff in Hin. destruct Hin as [p [<- Hp]].
      apply getVibesByIds_In in Hp. destruct Hp as [j [_ Hget]].
      destruct (storeOk_get _ _ _ IH Hget) as [Hge _].
      repeat split; try lia.
      intros Hnil. rewrite Hnil in Hcount. simpl in Hcount. lia.
    + apply weaveVibes_failure_store in Hrun. now subst.
  - unfold resonateWithVibe. destruct (getVibe s i) as [v|] eqn:E; simpl; [|easy].
    apply storeOk_save; [easy|]. exact (storeOk_get _ _ _ IH E).
  - unfold decayVibeResonance. apply storeOk_decay_fold; [|easy].
    rewrite Forall_forall. intros v Hin. apply filter_In in Hin.
    now apply (storeOk_value s).
  - destruct IH as [Hwf Hall]. split.
    + now apply deleteExpired_fold_wf.
    + rewrite Forall_forall in *. intros kv Hin. apply Hall.
      now apply (deleteExpired_fold_In s now).
  - destruct IH as [Hwf Hall]. simpl. split; [now apply storeWf_delete|].
    rewrite Forall_forall in *. intros kv Hin. apply Hall.
    now apply Map_delete_In in Hin.
  - unfold expireVibe. destruct (getVibe s i) as [v|] eqn:E; [|easy].
    apply storeOk_save; [easy|]. exact (storeOk_get _ _ _ IH E).
  - split; [apply storeWf_empty | constructor].
Qed.

(** C6. A Vibe made by [createNewVibe] has generation 0 and no parent ids;
    a Vibe made by a successful [weaveVibes] has 1 to 3 parent ids and its
    generation is 1 plus the greatest generation among the parents that the
    store resolved; and in every store reachable through the operations of
    the processor and the store, each stored Vibe has no parent ids exactly
    when its generation is 0. *)
Theorem lineage_invariant :
  (forall s vis aud hap txt now uuid,
     let v := fst (createNewVibe s vis aud hap txt now uuid) in
     generation (_internal v) = 0 /\ parentVibeIds (_internal v) = [])
  /\ (forall s ids now uuid rnd v s' rnd',
        weaveVibes s ids now uuid rnd = Some (Some v, s', rnd') ->
        (1 <= List.length (parentVibeIds (_internal v)) <= 3)%nat
        /\ exists g,
             In g (map (fun p => generation (_internal p)) (getVibesByIds s ids))
             /\ Forall (fun x => x <= g)
                  (map (fun p => generation (_internal p)) (getVibesByIds s ids))
             /\ generation (_internal v) = 1 + g)
  /\ (forall s, Reachable s ->
      forall i v, getVibe s i = Some v ->
        (parentVibeIds (_internal v) = [] <-> generation (_internal v) = 0)).
Proof.
  split; [|split].
  - intros. simpl. easy.
  - apply weaveVibes_lineage.
  - intros s Hs i v Hget. apply Reachable_storeOk in Hs.
    now destruct (storeOk_get _ _ _ Hs Hget) as (_ & H & _).
Qed.

Lemma storeAB_reachable : Reachable storeAB.
Proof. unfold storeAB, storeA. do 2 apply R_create. apply R_empty. Qed.

Lemma lineage_invariant_witness :
  (exists v s' rnd',
     weaveVibes storeAB ["B"; "A"]%string 20 "W"
       [0; 0; 1 # 2; 1 # 3; 1 # 2; 3 # 4; 1 # 2; 0]%Q = Some (Some v, s', rnd')
     /\ (1 <= List.length (parentVibeIds (_internal v)) <= 3)%nat
     /\ exists g,
          In g (map (fun p => generation (_internal p))
                  (getVibesByIds storeAB ["B"; "A"]%string))
          /\ Forall (fun x => x <= g)
               (map (fun p => generation (_internal p))
                  (getVibesByIds storeAB ["B"; "A"]%string))
          /\ generation (_internal v) = 1 + g)
  /\ (parentVibeIds (_internal vibeA) = []
      <-> generation (_internal vibeA) = 0).
Proof.
  split.
  - destruct (weaveVibes storeAB ["B"; "A"]%string 20 "W"
                [0; 0; 1 # 2; 1 # 3; 1 # 2; 3 # 4; 1 # 2; 0]%Q)
      as [[[[v|] s'] rnd']|] eqn:E.
    + exists v, s', rnd'. split; [reflexivity|].
      exact (proj1 (proj2 lineage_invariant) _ _ _ _ _ _ _ _ E).
    + vm_compute in E. discriminate.
    + vm_compute in E. discriminate.
  - exact (proj2 (proj2 lineage_invariant) storeAB storeAB_reachable
             "A"%string vibeA eq_refl).
Defined.

(** ** Decay *)

Lemma Qgtb_true x y : Qgtb x y = true <-> (y < x)%Q.
Proof.
  unfold Qgtb. rewrite negb_true_iff. split.
  - intros H. apply Qnot_le_lt. intros Hle.
    apply Qle_bool_iff in Hle. congruence.
  - intros H. destruct (Qle_bool x y) eqn:E; [|easy].
    apply Qle_bool_iff in E. exfalso. now apply (Qlt_not_le y x).
Qed.

Lemma Qgtb_false x y : Qgtb x y = false <-> (x <= y)%Q.
Proof.
  unfold Qgtb. rewrite negb_false_iff. apply Qle_bool_iff.
Qed.

Lemma decayStep_decayed rate now s v :
  decayStep rate now s v =
    if Qgtb (hoursSince now v) 1 then saveVibe s (decayed rate now v) else s.
Proof.
  unfold decayStep, decayed. now destruct (Qgtb (hoursSince now v) 1).
Qed.

Lemma decayed_id rate now v : id (decayed rate now v) = id v.
Proof. unfold decayed. now destruct (Qgtb (hoursSince now v) 1). Qed.

Lemma decayed_idle rate now v :
  Qgtb (hoursSince now v) 1 = false -> decayed rate now v = v.
Proof. unfold decayed. now intros ->. Qed.

(** The entry that a pass of the [forEach] leaves under each id. *)
Lemma decay_fold_get rate now (l : list Vibe) : forall s i,
  NoDup (map id l) ->
  getVibe (fold_left (decayStep rate now) l s) i =
    match find (fun v => String.eqb (id v) i) l with
    | Some v =>
        if Qgtb (hoursSince now v) 1 then Some (decayed rate now v)
        else getVibe s i
    | None => getVibe s i
    end.
Proof.
  induction l as [|x l IH]; simpl; intros s i Hnd; [reflexivity|].
  inversion Hnd as [|? ? Hnotin Hnd']; subst.
  rewrite IH by assumption. rewrite decayStep_decayed.
  destruct (String.eqb (id x) i) eqn:E.
  - apply String.eqb_eq in E. subst i.
    destruct (find (fun v => String.eqb (id v) (id x)) l) as [y|] eqn:F.
    + apply find_some in F. destruct F as [Hy Heq].
      apply String.eqb_eq in Heq. exfalso. apply Hnotin.
      rewrite <- Heq. now apply in_map.
    + destruct (Qgtb (hoursSince now x) 1); [|reflexivity].
      unfold getVibe, saveVibe. rewrite decayed_id. apply Map_get_set_same.
  - apply String.eqb_neq in E.
    assert (Hget : getVibe
                     (if Qgtb (hoursSince now x) 1
                      then saveVibe s (decayed rate now x) else s) i
                   = getVibe s i).
    { destruct (Qgtb (hoursSince now x) 1); [|reflexivity].
      unfold getVibe, saveVibe. rewrite decayed_id.
      now apply Map_get_set_other. }
    rewrite Hget. reflexivity.
Qed.

Lemma decay_fold_keys rate now (l : list Vibe) : forall s,
  Forall (fun v => In (id v) (Map_keys s)) l ->
  Map_keys (fold_left (decayStep rate now) l s) = Map_keys s.
Proof.
  induction l as [|x l IH]; simpl; intros s Hl; [reflexivity|].
  inversion Hl as [|? ? Hx Hl']; subst.
  assert (Hk : Map_keys (decayStep rate now s x) = Map_keys s).
  { rewrite decayStep_decayed. destruct (Qgtb (hoursSince now x) 1); [|reflexivity].
    unfold saveVibe. rewrite decayed_id. now apply Map_keys_set_has. }
  rewrite IH; [exact Hk|]. rewrite Hk. exact Hl'.
Qed.

Lemma decay_fold_wf rate now (l : list Vibe) : forall s,
  storeWf s -> storeWf (fold_left (decayStep rate now) l s).
Proof.
  induction l as [|x l IH]; simpl; intros s Hs; [easy|].
  apply IH. rewrite decayStep_decayed.
  destruct (Qgtb (hoursSince now x) 1); [now apply storeWf_save | easy].
Qed.

Lemma NoDup_map_filter (A B : Type) (f : A -> B) (p : A -> bool) l :
  NoDup (map f l) -> NoDup (map f (filter p l)).
Proof.
  induction l as [|x l IH]; simpl; intros Hnd; [constructor|].
  inversion Hnd as [|? ? Hnotin Hnd']; subst.
  destruct (p x); simpl; [|now apply IH].
  constructor; [|now apply IH].
  intros Hin. apply Hnotin. apply in_map_iff in Hin.
  destruct Hin as [y [Hy Hin]]. apply filter_In in Hin.
  rewrite <- Hy. apply in_map. tauto.
Qed.

Lemma active_ids_NoDup s now :
  storeWf s -> NoDup (map id (getAllActiveVibes s now)).
Proof.
  intros Hwf. unfold getAllActiveVibes. apply NoDup_map_filter.
  rewrite (storeWf_ids s Hwf). apply Hwf.
Qed.

Lemma getVibe_value s i v : getVibe s i = Some v -> In v (Map_values s).
Proof.
  intros H. apply Map_get_In in H. unfold Map_values.
  change v with (snd (i, v)). now apply in_map.
Qed.

(** What [decayVibeResonance] leaves under the id of a stored Vibe. *)
Lemma decay_get s rate now nowStore i v :
  storeWf s -> getVibe s i = Some v ->
  getVibe (decayVibeResonance s rate now nowStore) i =
    Some (if nowStore <? expiresAt v then decayed rate now v else v).
Proof.
  intros Hwf Hget. unfold decayVibeResonance.
  rewrite decay_fold_get by now apply active_ids_NoDup.
  destruct (find (fun w => String.eqb (id w) i) (getAllActiveVibes s nowStore))
    as [w|] eqn:F.
  - apply find_some in F. destruct F as [Hw Heq].
    apply String.eqb_eq in Heq. apply filter_In in Hw. destruct Hw as [Hw Hact].
    apply (storeWf_In_get s w Hwf) in Hw. rewrite Heq in Hw.
    assert (w = v) by congruence. subst w. rewrite Hact.
    destruct (Qgtb (hoursSince now v) 1) eqn:G; [reflexivity|].
    rewrite decayed_idle by assumption. exact Hget.
  - destruct (nowStore <? expiresAt v) eqn:Hact; [|exact Hget].
    assert (Hin : In v (getAllActiveVibes s nowStore)).
    { apply filter_In. split; [now apply (getVibe_value s i) | exact Hact]. }
    pose proof (find_none _ _ F v Hin) as Hf. simpl in Hf.
    rewrite (storeWf_get_id s i v Hwf Hget), String.eqb_refl in Hf.
    discriminate.
Qed.

Lemma decay_wf s rate now nowStore :
  storeWf s -> storeWf (decayVibeResonance s rate now nowStore).
Proof. apply decay_fold_wf. Qed.

Lemma decay_keys s rate now nowStore :
  storeWf s ->
  Map_keys (decayVibeResonance s rate now nowStore) = Map_keys s.
Proof.
  intros Hwf. apply decay_fold_keys. rewrite Forall_forall.
  intros v Hin. apply filter_In in Hin. destruct Hin as [Hin _].
  rewrite <- (storeWf_ids s Hwf). now apply in_map.
Qed.

Lemma decayed_score_idle rate now v :
  (hoursSince now v <= 1)%Q ->
  resonanceScore (_internal (decayed rate now v)) = resonanceScore (_internal v).
Proof.
  intros H. apply Qgtb_false in H. now rewrite decayed_idle.
Qed.

Lemma decayed_score_decay rate now v :
  (1 < hoursSince now v)%Q ->
  resonanceScore (_internal (decayed rate now v)) =
    Qmax 0 (resonanceScore (_internal v)
            - resonanceScore (_internal v) * rate * hoursSince now v)%Q.
Proof.
  intros H. apply Qgtb_true in H. unfold decayed. now rewrite H.
Qed.

Lemma decayed_score_nonneg rate now v :
  (0 <= resonanceScore (_internal v))%Q ->
  (0 <= resonanceScore (_internal (decayed rate now v)))%Q.
Proof.
  intros H. unfold decayed. destruct (Qgtb (hoursSince now v) 1); [|exact H].
  simpl. apply Q.le_max_l.
Qed.

(** C3. For every Vibe of the store that is active when [decayVibeResonance]
    runs, and every decay rate, one invocation leaves the score unchanged
    when at most one hour has elapsed since [lastResonatedAt], and otherwise
    sets it to [max(0, score - score * rate * hoursElapsed)], with
    [hoursElapsed = (now - lastResonatedAt) / 3600000]; the new score is
    never negative if the old one was not, and never negative at all after
    a reduction. *)
Theorem decay_score s rate now nowStore i v :
  storeWf s -> getVibe s i = Some v -> active nowStore v ->
  exists v',
    getVibe (decayVibeResonance s rate now nowStore) i = Some v'
    /\ hoursSince now v
       = (inject_Z (now - lastResonatedAt (_internal v)) / inject_Z 3600000)%Q
    /\ ((hoursSince now v <= 1)%Q ->
        resonanceScore (_internal v') = resonanceScore (_internal v))
    /\ ((1 < hoursSince now v)%Q ->
        resonanceScore (_internal v') =
          Qmax 0 (resonanceScore (_internal v)
                  - resonanceScore (_internal v) * rate * hoursSince now v)%Q
        /\ (0 <= resonanceScore (_internal v'))%Q)
    /\ ((0 <= resonanceScore (_internal v))%Q ->
        (0 <= resonanceScore (_internal v'))%Q).
Proof.
  intros Hwf Hget Hact. exists (decayed rate now v).
  split.
  { rewrite (decay_get s rate now nowStore i v Hwf Hget).
    unfold active in Hact. apply Z.ltb_lt in Hact. now rewrite Hact. }
  split; [reflexivity|].
  split; [apply decayed_score_idle|].
  split; [|apply decayed_score_nonneg].
  intros H. rewrite (decayed_score_decay rate now v H).
  split; [reflexivity | apply Q.le_max_l].
Qed.

Lemma createNewVibe_wf s vis aud hap txt now uuid :
  storeWf s -> storeWf (snd (createNewVibe s vis aud hap txt now uuid)).
Proof. intros H. simpl. now apply storeWf_save. Qed.

Lemma resonateWithVibe_wf s i now :
  storeWf s -> storeWf (snd (resonateWithVibe s i now)).
Proof.
  intros H. unfold resonateWithVibe. destruct (getVibe s i); simpl; [|exact H].
  now apply storeWf_save.
Qed.

Lemma storeResonated_wf : storeWf storeResonated.
Proof.
  unfold storeResonated. do 3 apply resonateWithVibe_wf.
  unfold storeAB, storeA. do 2 apply createNewVibe_wf. apply storeWf_empty.
Qed.

(** The scenario of the specification: a score of 3, decayed at rate 1 two
    hours after the last resonance, falls to [max(0, 3 - 3 * 1 * 2) = 0]. *)
Lemma decay_score_witness :
  exists v',
    getVibe
      (decayVibeResonance storeResonated 1 (30 + 7200000) (30 + 7200000)) "A"
    = Some v'
    /\ (resonanceScore (_internal v') == 0)%Q.
Proof.
  edestruct (decay_score storeResonated 1 (30 + 7200000) (30 + 7200000) "A")
    as (v' & Hv' & _ & _ & Hdec & _).
  - exact storeResonated_wf.
  - vm_compute. reflexivity.
  - vm_compute. reflexivity.
  - exists v'. split; [exact Hv'|].
    destruct Hdec as [Hscore _]; [vm_compute; reflexivity|].
    rewrite Hscore. vm_compute. reflexivity.
Defined.

(** C10. One invocation of [decayVibeResonance] changes nothing of a stored
    Vibe but, at most, its [resonanceScore]: the Vibe stays under its id
    with the same [id], [createdAt], [expiresAt], [visual], [audio],
    [haptic], [text], [parentVibeIds], [generation] and [lastResonatedAt],
    and the keys of the store and their order are unchanged.  Since
    [lastResonatedAt] is not refreshed, a second invocation measures the
    hours from the original [lastResonatedAt] and reduces the already
    reduced score again. *)
Theorem decay_frame s rate now nowStore i v :
  storeWf s -> getVibe s i = Some v ->
  (exists v',
     getVibe (decayVibeResonance s rate now nowStore) i = Some v'
     /\ id v' = id v /\ createdAt v' = createdAt v
     /\ expiresAt v' = expiresAt v
     /\ visual v' = visual v /\ audio v' = audio v
     /\ haptic v' = haptic v /\ text v' = text v
     /\ parentVibeIds (_internal v') = parentVibeIds (_internal v)
     /\ generation (_internal v') = generation (_internal v)
     /\ lastResonatedAt (_internal v') = lastResonatedAt (_internal v))
  /\ Map_keys (decayVibeResonance s rate now nowStore) = Map_keys s
  /\ (forall now2 nowStore2,
        active nowStore v -> active nowStore2 v ->
        (1 < hoursSince now v)%Q -> (1 < hoursSince now2 v)%Q ->
        exists v1 v2,
          getVibe (decayVibeResonance s rate now nowStore) i = Some v1
          /\ getVibe
               (decayVibeResonance (decayVibeResonance s rate now nowStore)
                  rate now2 nowStore2) i = Some v2
          /\ hoursSince now2 v1 = hoursSince now2 v
          /\ resonanceScore (_internal v1) =
               Qmax 0 (resonanceScore (_internal v)
                       - resonanceScore (_internal v) * rate
                         * hoursSince now v)%Q
          /\ resonanceScore (_internal v2) =
               Qmax 0 (resonanceScore (_internal v1)
                       - resonanceScore (_internal v1) * rate
                         * hoursSince now2 v)%Q).
Proof.
  intros Hwf Hget.
  pose proof (decay_get s rate now nowStore i v Hwf Hget) as Hget1.
  assert (Hframe : forall w, w = v \/ w = decayed rate now v ->
            id w = id v /\ createdAt w = createdAt v
            /\ expiresAt w = expiresAt v
            /\ visual w = visual v /\ audio w = audio v
            /\ haptic w = haptic v /\ text w = text v
            /\ parentVibeIds (_internal w) = parentVibeIds (_internal v)
            /\ generation (_internal w) = generation (_internal v)
            /\ lastResonatedAt (_internal w) = lastResonatedAt (_internal v)).
  { intros w [-> | ->]; [repeat split|].
    unfold decayed. destruct (Qgtb (hoursSince now v) 1); repeat split. }
  split; [|split].
  - eexists. split; [exact Hget1|]. apply Hframe.
    destruct (nowStore <? expiresAt v); [now right | now left].
  - now apply decay_keys.
  - intros now2 nowStore2 Hact Hact2 Hh Hh2.
    unfold active in Hact, Hact2.
    apply Z.ltb_lt in Hact. rewrite Hact in Hget1.
    destruct (Hframe (decayed rate now v) (or_intror eq_refl))
      as (_ & _ & Hexp & _ & _ & _ & _ & _ & _ & Hlast).
    assert (Hhours : hoursSince now2 (decayed rate now v) = hoursSince now2 v).
    { unfold hoursSince. now rewrite Hlast. }
    pose proof (decay_get _ rate now2 nowStore2 i _
                  (decay_wf s rate now nowStore Hwf) Hget1) as Hget2.
    rewrite Hexp in Hget2. apply Z.ltb_lt in Hact2. rewrite Hact2 in Hget2.
    exists (decayed rate now v), (decayed rate now2 (decayed rate now v)).
    split; [exact Hget1|]. split; [exact Hget2|]. split; [exact Hhours|].
    split; [now apply decayed_score_decay|].
    rewrite decayed_score_decay by now rewrite Hhours.
    now rewrite Hhours.
Qed.

Lemma decay_frame_witness :
  exists v',
    getVibe
      (decayVibeResonance storeResonated (1 # 4) (30 + 7200000) (30 + 7200000))
      "A"
    = Some v'
    /\ lastResonatedAt (_internal v') = 30
    /\ exists v2,
         getVibe
           (decayVibeResonance
              (decayVibeResonance storeResonated (1 # 4) (30 + 7200000)
                 (30 + 7200000))
              (1 # 4) (30 + 7200000) (30 + 7200000)) "A" = Some v2
         /\ (resonanceScore (_internal v') == 3 # 2)%Q
         /\ (resonanceScore (_internal v2) == 3 # 4)%Q.
Proof.
  edestruct (decay_frame storeResonated (1 # 4) (30 + 7200000) (30 + 7200000)
               "A") as ((v' & Hv' & Hfr) & _ & Htwice).
  - exact storeResonated_wf.
  - vm_compute. reflexivity.
  - exists v'. split; [exact Hv'|].
    split; [now rewrite (proj2 (proj2 (proj2 (proj2 (proj2 (proj2 (proj2 (proj2 (proj2 Hfr)))))))))|].
    destruct (Htwice (30 + 7200000) (30 + 7200000)) as (v1 & v2 & H1 & H2 & _ & Hs1 & Hs2);
      try (vm_compute; reflexivity).
    rewrite Hv' in H1. injection H1 as <-.
    exists v2. split; [exact H2|]. split.
    + rewrite Hs1. vm_compute. reflexivity.
    + rewrite Hs2, Hs1. vm_compute. reflexivity.
Defined.

(** ** Sorting, slicing and sets *)

Lemma In_firstn (A : Type) (n : nat) (l : list A) x :
  In x (firstn n l) -> In x l.
Proof.
  intros H. rewrite <- (firstn_skipn n l). apply in_or_app. now left.
Qed.

Lemma In_skipn (A : Type) (n : nat) (l : list A) x :
  In x (skipn n l) -> In x l.
Proof.
  intros H. rewrite <- (firstn_skipn n l). apply in_or_app. now right.
Qed.

Lemma slice0_nonneg (A : Type) (l : list A) e :
  0 <= e -> slice0 l e = firstn (Z.to_nat e) l.
Proof.
  intros He. unfold slice0.
  destruct (e <? 0) eqn:E; [apply Z.ltb_lt in E; lia|].
  destruct (Z.min_spec e (Z.of_nat (List.length l))) as [[Hlt ->] | [Hge ->]].
  - reflexivity.
  - rewrite Nat2Z.id. rewrite firstn_all. symmetry. apply firstn_all2. lia.
Qed.

Lemma slice0_length (A : Type) (l : list A) e :
  0 <= e ->
  Z.of_nat (List.length (slice0 l e)) = Z.min e (Z.of_nat (List.length l)).
Proof.
  intros He. rewrite slice0_nonneg by assumption. rewrite length_firstn. lia.
Qed.

Section SortFacts.
Variable A : Type.
Variable cmp : A -> A -> Q.

Lemma sort_insert_perm x l : Permutation (sort_insert cmp x l) (x :: l).
Proof.
  induction l as [|y l IH]; simpl; [reflexivity|].
  destruct (Qle_bool (cmp x y) 0); [reflexivity|].
  rewrite IH. apply perm_swap.
Qed.

Lemma Array_sort_perm l : Permutation (Array_sort cmp l) l.
Proof.
  induction l as [|x l IH]; simpl; [reflexivity|].
  rewrite sort_insert_perm. now constructor.
Qed.

Lemma Array_sort_length l : List.length (Array_sort cmp l) = List.length l.
Proof. apply Permutation_length, Array_sort_perm. Qed.

End SortFacts.

Lemma scoreGe_trans a b c : scoreGe a b -> scoreGe b c -> scoreGe a c.
Proof. unfold scoreGe. intros H1 H2. now apply (Qle_trans _ _ _ H2 H1). Qed.

Lemma byResonanceDesc_le a b :
  Qle_bool (byResonanceDesc a b) 0 = true -> scoreGe a b.
Proof.
  intros H. apply Qle_bool_iff in H. unfold byResonanceDesc in H.
  unfold scoreGe. lra.
Qed.

Lemma byResonanceDesc_gt a b :
  Qle_bool (byResonanceDesc a b) 0 = false -> scoreGe b a.
Proof.
  intros H. unfold scoreGe.
  destruct (Qlt_le_dec (resonanceScore (_internal b)) (resonanceScore (_internal a)))
    as [Hlt | Hle]; [|exact Hle].
  assert (Hc : Qle_bool (byResonanceDesc a b) 0 = true).
  { apply Qle_bool_iff. unfold byResonanceDesc. lra. }
  congruence.
Qed.

Lemma sort_insert_sorted x l :
  StronglySorted scoreGe l ->
  StronglySorted scoreGe (sort_insert byResonanceDesc x l).
Proof.
  induction 1 as [|y l Hs IH Hy]; simpl.
  - constructor; constructor.
  - destruct (Qle_bool (byResonanceDesc x y) 0) eqn:E.
    + apply byResonanceDesc_le in E. constructor; [now constructor|].
      constructor; [exact E|].
      rewrite Forall_forall in *. intros z Hz.
      apply (scoreGe_trans x y z E). now apply Hy.
    + apply byResonanceDesc_gt in E. constructor; [exact IH|].
      rewrite Forall_forall in *. intros z Hz.
      apply (Permutation_in _ (sort_insert_perm _ byResonanceDesc x l)) in Hz.
      destruct Hz as [<- | Hz]; [exact E | now apply Hy].
Qed.

(** The array sorted with the comparator of the streams is in descending
    order of score. *)
Lemma Array_sort_sorted l :
  StronglySorted scoreGe (Array_sort byResonanceDesc l).
Proof.
  induction l as [|x l IH]; simpl; [constructor | now apply sort_insert_sorted].
Qed.

Lemma StronglySorted_firstn (A : Type) (R : A -> A -> Prop) n : forall l,
  StronglySorted R l -> StronglySorted R (firstn n l).
Proof.
  induction n as [|n IH]; intros l Hs; simpl; [constructor|].
  destruct l as [|x l]; [constructor|].
  inversion Hs as [|? ? Hs' Hx]; subst. constructor; [now apply IH|].
  rewrite Forall_forall in *. intros y Hy. apply Hx. now apply In_firstn in Hy.
Qed.

Lemma StronglySorted_map_In (A B : Type) (R : A -> A -> Prop)
  (R' : B -> B -> Prop) (f : A -> B) l :
  (forall a b, In a l -> In b l -> R a b -> R' (f a) (f b)) ->
  StronglySorted R l -> StronglySorted R' (map f l).
Proof.
  intros Hf Hs. induction Hs as [|x l Hs IH Hx]; simpl; constructor.
  - apply IH. intros a b Ha Hb. apply Hf; now right.
  - rewrite Forall_forall in *. intros y Hy. apply in_map_iff in Hy.
    destruct Hy as [z [<- Hz]]. apply Hf; [now left | now right | now apply Hx].
Qed.

Lemma Set_add_fresh acc x : ~ In x acc -> Set_add acc x = acc ++ [x].
Proof.
  intros Hx. unfold Set_add.
  destruct (existsb (String.eqb x) acc) eqn:E; [|reflexivity].
  apply existsb_exists in E. destruct E as [y [Hy Heq]].
  apply String.eqb_eq in Heq. now subst.
Qed.

Lemma Set_add_NoDup acc x : NoDup acc -> NoDup (Set_add acc x).
Proof.
  intros Hnd. unfold Set_add.
  destruct (existsb (String.eqb x) acc) eqn:E; [exact Hnd|].
  apply NoDup_app; [exact Hnd | constructor; [intros [] | constructor] |].
  intros a Ha [Heq | []]. subst a.
  assert (Ht : existsb (String.eqb x) acc = true).
  { apply existsb_exists. exists x. split; [exact Ha | apply String.eqb_refl]. }
  congruence.
Qed.

Lemma Set_fold_NoDup l : forall acc,
  NoDup acc -> NoDup (fold_left Set_add l acc).
Proof.
  induction l as [|x l IH]; simpl; intros acc Hnd; [exact Hnd|].
  apply IH. now apply Set_add_NoDup.
Qed.

(** [Array.from(new Set(arr))] has no duplicate. *)
Lemma Set_from_NoDup l : NoDup (Set_from l).
Proof. apply Set_fold_NoDup. constructor. Qed.

Lemma Set_fold_distinct l : forall acc,
  NoDup (acc ++ l) -> fold_left Set_add l acc = acc ++ l.
Proof.
  induction l as [|x l IH]; simpl; intros acc Hnd.
  - now rewrite app_nil_r.
  - rewrite Set_add_fresh.
    + rewrite IH; rewrite <- app_assoc; [reflexivity | exact Hnd].
    + apply NoDup_remove_2 in Hnd. intros Hin. apply Hnd.
      apply in_or_app. now left.
Qed.

(** On an array without duplicates the set keeps every element. *)
Lemma Set_from_distinct l : NoDup l -> Set_from l = l.
Proof. intros H. unfold Set_from. now rewrite Set_fold_distinct. Qed.

Lemma Set_fold_head l : forall acc x,
  hd_error acc = Some x -> hd_error (fold_left Set_add l acc) = Some x.
Proof.
  induction l as [|y l IH]; simpl; intros acc x Hx; [exact Hx|].
  apply IH. unfold Set_add. destruct (existsb (String.eqb y) acc); [exact Hx|].
  destruct acc; [discriminate | exact Hx].
Qed.

(** The first element of an array is the first element of its set. *)
Lemma Set_from_head x l : hd_error (Set_from (x :: l)) = Some x.
Proof. unfold Set_from. simpl. now apply Set_fold_head. Qed.

(** ** Streams *)

Lemma active_in_store s now v :
  storeWf s -> In v (getAllActiveVibes s now) ->
  getVibe s (id v) = Some v /\ active now v
  /\ scoreOf s (id v) = resonanceScore (_internal v).
Proof.
  intros Hwf Hin. apply filter_In in Hin. destruct Hin as [Hin Hact].
  pose proof (storeWf_In_get s v Hwf Hin) as Hget.
  split; [exact Hget|]. split; [now apply Z.ltb_lt|].
  unfold scoreOf. now rewrite Hget.
Qed.

Lemma ranked_in_active s now v :
  In v (Array_sort byResonanceDesc (getAllActiveVibes s now)) ->
  In v (getAllActiveVibes s now).
Proof. apply Permutation_in, Array_sort_perm. Qed.

Lemma stream_ids_active s now (vs : list Vibe) :
  storeWf s ->
  (forall v, In v vs -> In v (getAllActiveVibes s now)) ->
  forall i, In i (map id vs) -> exists v, getVibe s i = Some v /\ active now v.
Proof.
  intros Hwf Hvs i Hi. apply in_map_iff in Hi. destruct Hi as [v [<- Hv]].
  exists v. destruct (active_in_store s now v Hwf (Hvs v Hv)) as (H1 & H2 & _).
  now split.
Qed.

Lemma stream_ids_no_expired s now (ids : list string) :
  (forall i, In i ids -> exists v, getVibe s i = Some v /\ active now v) ->
  forall i v, getVibe s i = Some v -> expiresAt v <= now -> ~ In i ids.
Proof.
  intros Hids i v Hget Hexp Hin. destruct (Hids i Hin) as [w [Hw Hact]].
  unfold active in Hact. assert (w = v) by congruence. subst w. lia.
Qed.

(** C4, as the code has it.  For every store and every limit that is not
    negative, the collective stream returns exactly
    [min(limit, number of active Vibes)] ids, in descending order of the
    scores of the Vibes they name, each the id of a stored Vibe with
    [now < expiresAt]; no id of a Vibe with [expiresAt <= now] is
    returned.  The ids are those of the first [limit] Vibes of the active
    Vibes ranked by descending score. *)
Theorem collective_stream shuffle s associatedId limit now :
  storeWf s -> 0 <= limit ->
  let stream := getStreamVibes shuffle s collective associatedId limit now in
  Z.of_nat (List.length stream)
  = Z.min limit (Z.of_nat (List.length (getAllActiveVibes s now)))
  /\ StronglySorted (fun i j => (scoreOf s j <= scoreOf s i)%Q) stream
  /\ (forall i, In i stream -> exists v, getVibe s i = Some v /\ active now v)
  /\ (forall i v, getVibe s i = Some v -> expiresAt v <= now -> ~ In i stream)
  /\ (exists ranked,
        Permutation ranked (getAllActiveVibes s now)
        /\ StronglySorted scoreGe ranked
        /\ stream = map id (firstn (Z.to_nat limit) ranked)).
Proof.
  intros Hwf Hlimit. simpl.
  assert (Hin : forall v,
            In v (slice0 (Array_sort byResonanceDesc (getAllActiveVibes s now)) limit) ->
            In v (getAllActiveVibes s now)).
  { intros v Hv. rewrite slice0_nonneg in Hv by assumption.
    apply In_firstn in Hv. now apply ranked_in_active. }
  assert (Hact : forall i,
            In i (map id (slice0 (Array_sort byResonanceDesc
                                    (getAllActiveVibes s now)) limit)) ->
            exists v, getVibe s i = Some v /\ active now v).
  { now apply stream_ids_active. }
  split; [|split; [|split; [|split]]].
  5:{ exists (Array_sort byResonanceDesc (getAllActiveVibes s now)).
      split; [apply Array_sort_perm|]. split; [apply Array_sort_sorted|].
      now rewrite slice0_nonneg. }
  - rewrite length_map, slice0_length by assumption.
    now rewrite Array_sort_length.
  - apply (StronglySorted_map_In _ _ scoreGe).
    + intros a b Ha Hb Hab.
      destruct (active_in_store s now a Hwf (Hin a Ha)) as (_ & _ & ->).
      destruct (active_in_store s now b Hwf (Hin b Hb)) as (_ & _ & ->).
      exact Hab.
    + rewrite slice0_nonneg by assumption.
      apply StronglySorted_firstn, Array_sort_sorted.
  - exact Hact.
  - now apply stream_ids_no_expired.
Qed.

Lemma collective_stream_witness :
  getStreamVibes (fun l => l) storeResonated collective "trends" 1 20
  = ["A"%string]
  /\ Z.of_nat
       (List.length
          (getStreamVibes (fun l => l) storeResonated collective "trends" 1 20))
     = Z.min 1 (Z.of_nat (List.length (getAllActiveVibes storeResonated 20))).
Proof.
  split; [vm_compute; reflexivity|].
  refine (proj1 (collective_stream (fun l => l) storeResonated "trends" 1 20 _ _)).
  - exact storeResonated_wf.
  - lia.
Defined.

(** The collective stream at the limit -1 over two active Vibes returns one
    id, not [min(-1, 2)] ids: [slice(0, -1)] drops the last element. *)
Lemma collective_stream_negative_limit :
  getStreamVibes (fun l => l) storeAB collective "trends" (-1) 20
  = ["A"%string]
  /\ Z.of_nat
       (List.length
          (getStreamVibes (fun l => l) storeAB collective "trends" (-1) 20))
     <> Z.min (-1) (Z.of_nat (List.length (getAllActiveVibes storeAB 20))).
Proof. split; [vm_compute; reflexivity | vm_compute; discriminate]. Qed.

Lemma includes_true (l : list Vibe) v : In v l -> includes l v = true.
Proof.
  intros H. apply existsb_exists. exists v. split; [exact H | apply String.eqb_refl].
Qed.

Lemma includes_false (l : list Vibe) v :
  ~ In (id v) (map id l) -> includes l v = false.
Proof.
  intros H. destruct (includes l v) eqn:E; [|reflexivity].
  apply existsb_exists in E. destruct E as [w [Hw Heq]].
  apply String.eqb_eq in Heq. exfalso. apply H. rewrite <- Heq. now apply in_map.
Qed.

Lemma filter_none (A : Type) (p : A -> bool) l :
  (forall x, In x l -> p x = false) -> filter p l = [].
Proof.
  induction l as [|x l IH]; simpl; intros H; [reflexivity|].
  rewrite (H x) by now left. apply IH. intros y Hy. apply H. now right.
Qed.

Lemma filter_all (A : Type) (p : A -> bool) l :
  (forall x, In x l -> p x = true) -> filter p l = l.
Proof.
  induction l as [|x l IH]; simpl; intros H; [reflexivity|].
  rewrite (H x) by now left. f_equal. apply IH. intros y Hy. apply H. now right.
Qed.

Lemma NoDup_app_disjoint (A : Type) (l1 l2 : list A) x :
  NoDup (l1 ++ l2) -> In x l1 -> ~ In x l2.
Proof.
  induction l1 as [|y l1 IH]; simpl; intros Hnd Hin; [easy|].
  inversion Hnd as [|? ? Hnotin Hnd']; subst.
  destruct Hin as [-> | Hin]; [|now apply IH].
  intros H2. apply Hnotin. apply in_or_app. now right.
Qed.

(** Filtering out what [highlyResonated] includes leaves the rest of the
    sorted array. *)
Lemma filter_not_included (l1 l2 : list Vibe) :
  NoDup (map id (l1 ++ l2)) ->
  filter (fun v => negb (includes l1 v)) (l1 ++ l2) = l2.
Proof.
  intros Hnd. rewrite filter_app.
  rewrite filter_none, filter_all; [reflexivity | |].
  - intros v Hv. rewrite includes_false; [reflexivity|].
    rewrite map_app in Hnd. intros Hin.
    apply (NoDup_app_disjoint _ _ _ (id v) Hnd Hin). now apply in_map.
  - intros v Hv. now rewrite includes_true.
Qed.

Lemma NoDup_app_firstn (A : Type) (l1 l2 : list A) n :
  NoDup (l1 ++ l2) -> NoDup (l1 ++ firstn n l2).
Proof.
  intros Hnd. rewrite <- (firstn_skipn n l2) in Hnd.
  rewrite app_assoc in Hnd. now apply NoDup_app_remove_r in Hnd.
Qed.

(** [Math.floor(limit * 0.7)] lies between 0 and [limit] for every limit
    from 0 to 1000, a range that contains the limits 1 to 100 that
    [handleGetStreamVibes] lets through. *)
Lemma popularCount_range_check :
  forallb (fun n => (0 <=? popularCount (Z.of_nat n))
                    && (popularCount (Z.of_nat n) <=? Z.of_nat n))
    (seq 0 (Z.to_nat 1001)) = true.
Proof. vm_compute. reflexivity. Qed.

Lemma popularCount_bounds limit :
  0 <= limit <= 1000 -> 0 <= popularCount limit <= limit.
Proof.
  intros H. pose proof popularCount_range_check as Hc.
  rewrite forallb_forall in Hc. specialize (Hc (Z.to_nat limit)).
  rewrite Z2Nat.id in Hc by lia.
  assert (Hin : In (Z.to_nat limit) (seq 0 (Z.to_nat 1001))) by (apply in_seq; lia).
  apply Hc in Hin. apply andb_true_iff in Hin. destruct Hin as [H1 H2].
  apply Z.leb_le in H1. apply Z.leb_le in H2. lia.
Qed.

(** Where the code's [Math.floor(limit * 0.7)] is the floor of seven
    tenths of the limit: at every limit from 0 to 100 but 90. *)
Lemma popularCount_exact_check :
  forallb (fun n => (n =? 90)%nat
                    || (popularCount (Z.of_nat n) =? 7 * Z.of_nat n / 10))
    (seq 0 101) = true.
Proof. vm_compute. reflexivity. Qed.

Lemma popularCount_exact limit :
  0 <= limit <= 100 -> limit <> 90 -> popularCount limit = 7 * limit / 10.
Proof.
  intros H Hne. pose proof popularCount_exact_check as Hc.
  rewrite forallb_forall in Hc. specialize (Hc (Z.to_nat limit)).
  rewrite Z2Nat.id in Hc by lia.
  assert (Hin : In (Z.to_nat limit) (seq 0 101)) by (apply in_seq; lia).
  apply Hc in Hin. apply orb_true_iff in Hin. destruct Hin as [H1 | H1].
  - apply Nat.eqb_eq in H1. lia.
  - now apply Z.eqb_eq in H1.
Qed.

(** At the limit 90 the product [90 * 0.7] is rounded to a binary64 number
    just below 63, and the code takes 62 popular Vibes where seven tenths
    of the limit are 63. *)
Lemma popularCount_90 : popularCount 90 = 62 /\ 7 * 90 / 10 = 63.
Proof. split; [vm_compute; reflexivity | reflexivity]. Qed.

(** C8, amended.  For every store and every limit that is not negative and
    at which the code's [Math.floor(limit * 0.7)] is [floor(limit * 0.7)],
    written [7 * limit / 10], the personal stream is the ids of the first
    [floor(limit * 0.7)] active Vibes in descending order of score (all of
    them when there are fewer), followed by the ids of the first
    [limit - popular count] Vibes of a shuffle of the remaining active
    Vibes; it has no duplicate id, holds [min(limit, number of active
    Vibes)] ids, hence at most [limit], and no id of a Vibe with
    [expiresAt <= now]. *)
Theorem personal_stream shuffle s associatedId limit now :
  (forall l, Permutation (shuffle l) l) ->
  storeWf s -> 0 <= limit -> popularCount limit = 7 * limit / 10 ->
  let actives := getAllActiveVibes s now in
  let ranked := Array_sort byResonanceDesc actives in
  let popular := firstn (Z.to_nat (7 * limit / 10)) ranked in
  let remaining := skipn (Z.to_nat (7 * limit / 10)) ranked in
  let discovery :=
    firstn (Z.to_nat limit - List.length popular) (shuffle remaining) in
  let stream := getStreamVibes shuffle s personal associatedId limit now in
  stream = map id popular ++ map id discovery
  /\ Z.of_nat (List.length popular)
     = Z.min (7 * limit / 10) (Z.of_nat (List.length actives))
  /\ Permutation ranked actives /\ StronglySorted scoreGe ranked
  /\ Permutation (shuffle remaining) remaining
  /\ NoDup stream
  /\ Z.of_nat (List.length stream)
     = Z.min limit (Z.of_nat (List.length actives))
  /\ Z.of_nat (List.length stream) <= limit
  /\ (forall i, In i stream -> exists v, getVibe s i = Some v /\ active now v)
  /\ (forall i v, getVibe s i = Some v -> expiresAt v <= now -> ~ In i stream).
Proof.
  intros Hshuffle Hwf Hlimit Hexact actives ranked popular remaining discovery
    stream.
  assert (Hpc : 0 <= 7 * limit / 10 <= limit).
  { split; [apply Z.div_pos; lia|]. apply Z.div_le_upper_bound; lia. }
  assert (Hperm : Permutation ranked actives) by apply Array_sort_perm.
  assert (Hsplit : popular ++ remaining = ranked) by apply firstn_skipn.
  assert (Hids : NoDup (map id (popular ++ remaining))).
  { rewrite Hsplit. apply (Permutation_NoDup (l := map id actives)).
    - apply Permutation_map. now symmetry.
    - now apply active_ids_NoDup. }
  assert (Hpop_len : Z.of_nat (List.length popular) <= limit).
  { unfold popular. rewrite length_firstn. lia. }
  assert (Hstream : stream = map id popular ++ map id discovery).
  { unfold stream, getStreamVibes. fold actives. fold ranked.
    rewrite Hexact. rewrite (slice0_nonneg _ ranked) by lia. fold popular.
    rewrite <- Hsplit at 1. rewrite (filter_not_included _ _ Hids).
    rewrite slice0_nonneg by lia.
    replace (Z.to_nat (limit - Z.of_nat (List.length popular)))
      with (Z.to_nat limit - List.length popular)%nat by lia.
    fold discovery. rewrite map_app. apply Set_from_distinct.
    unfold discovery. rewrite <- firstn_map. apply NoDup_app_firstn.
    apply (Permutation_NoDup (l := map id popular ++ map id remaining)).
    - apply Permutation_app_head, Permutation_map. symmetry. apply Hshuffle.
    - now rewrite <- map_app. }
  assert (Hin : forall v, In v (popular ++ discovery) -> In v actives).
  { intros v Hv. apply (Permutation_in _ Hperm). rewrite <- Hsplit.
    apply in_or_app. apply in_app_or in Hv. destruct Hv as [Hv | Hv].
    - now left.
    - right. apply In_firstn in Hv. now apply (Permutation_in _ (Hshuffle _)). }
  assert (Hact : forall i, In i stream ->
            exists v, getVibe s i = Some v /\ active now v).
  { rewrite Hstream, <- map_app. now apply stream_ids_active. }
  assert (Hlen : Z.of_nat (List.length stream)
                 = Z.min limit (Z.of_nat (List.length actives))).
  { rewrite Hstream, length_app, !length_map. unfold discovery.
    rewrite length_firstn, (Permutation_length (Hshuffle remaining)).
    unfold remaining, popular. rewrite length_skipn, length_firstn.
    rewrite (Permutation_length Hperm). lia. }
  split; [exact Hstream|]. split.
  { unfold popular. rewrite length_firstn, (Permutation_length Hperm). lia. }
  split; [exact Hperm|].
  split; [apply Array_sort_sorted|]. split; [apply Hshuffle|].
  split.
  { rewrite Hstream, <- map_app. unfold discovery. rewrite map_app.
    rewrite <- firstn_map. apply NoDup_app_firstn.
    apply (Permutation_NoDup (l := map id popular ++ map id remaining)).
    - apply Permutation_app_head, Permutation_map. symmetry. apply Hshuffle.
    - now rewrite <- map_app. }
  split; [exact Hlen|]. split; [lia|]. split; [exact Hact|].
  now apply stream_ids_no_expired.
Qed.

Lemma personal_stream_witness :
  getStreamVibes (fun l => rev l) storeResonated personal "user-123" 2 20
  = ["A"; "B"]%string
  /\ Z.of_nat
       (List.length
          (getStreamVibes (fun l => rev l) storeResonated personal "user-123"
             2 20)) <= 2.
Proof.
  split; [vm_compute; reflexivity|].
  refine (proj1 (proj2 (proj2 (proj2 (proj2 (proj2 (proj2 (proj2
            (personal_stream (fun l => rev l) storeResonated "user-123" 2 20
               _ _ _ _))))))))).
  - intros l. symmetry. apply Permutation_rev.
  - exact storeResonated_wf.
  - lia.
  - vm_compute. reflexivity.
Defined.

(** The personal stream at the limit -1 over two active Vibes returns one
    id, more than the limit: [Math.floor(-0.7)] is -1 and [slice(0, -1)]
    drops the last element. *)
Lemma personal_stream_negative_limit :
  getStreamVibes (fun l => l) storeAB personal "user-123" (-1) 20
  = ["A"%string]
  /\ ~ Z.of_nat
         (List.length
            (getStreamVibes (fun l => l) storeAB personal "user-123" (-1) 20))
       <= -1.
Proof. split; [vm_compute; reflexivity | vm_compute]. intros H. now apply H. Qed.

(** ** Blended palettes *)

Lemma Math_random_Some rnd r rnd' :
  Math_random rnd = Some (r, rnd') -> (0 <= r)%Q /\ (r < 1)%Q.
Proof.
  unfold Math_random. destruct rnd as [|x rnd]; [discriminate|].
  destruct (inUnit x) eqn:E; [|discriminate]. intros [= <- _].
  unfold inUnit in E. apply andb_true_iff in E. destruct E as [E0 E1].
  apply Qle_bool_iff in E0. split; [exact E0|].
  apply Qnot_le_lt. intros Hle. apply Qle_bool_iff in Hle.
  rewrite Hle in E1. discriminate.
Qed.

Lemma index_Some (A : Type) (arr : list A) i rnd a rnd' :
  index arr i rnd = Some (a, rnd') ->
  0 <= i /\ nth_error arr (Z.to_nat i) = Some a.
Proof.
  unfold index. destruct (i <? 0) eqn:E; [discriminate|].
  apply Z.ltb_ge in E.
  destruct (nth_error arr (Z.to_nat i)) as [x|]; [|discriminate].
  intros [= <- _]. now split.
Qed.

Lemma redrawWhileEqual_Some n idx1 rnd : forall idx2 j rnd',
  redrawWhileEqual n idx1 idx2 rnd = Some (j, rnd') -> j <> idx1.
Proof.
  induction rnd as [|r rnd IH]; simpl; intros idx2 j rnd'.
  - destruct (idx2 =? idx1) eqn:E; [discriminate|].
    intros [= <- _]. now apply Z.eqb_neq.
  - destruct (idx2 =? idx1) eqn:E.
    + destruct (inUnit r); [apply IH | discriminate].
    + intros [= <- _]. now apply Z.eqb_neq.
Qed.

Lemma interpolatedColor_spec rgbColors rnd c rnd' :
  interpolatedColor rgbColors rnd = Some (c, rnd') ->
  isInterpolation rgbColors c.
Proof.
  unfold interpolatedColor. intros H. run_inv H. injection H as Hc _.
  apply index_Some in Hrun3, Hrun4.
  destruct Hrun3 as [Hi1 Hc1], Hrun4 as [Hi2 Hc2].
  apply Math_random_Some in Hrun2. destruct Hrun2 as [Hf0 Hf1].
  exists (Z.to_nat a), (Z.to_nat a1), a3, a4, a2.
  repeat split; try assumption.
  intros Hlen. apply Nat.ltb_lt in Hlen. rewrite Hlen in Hrun1.
  apply redrawWhileEqual_Some in Hrun1. lia.
Qed.

Lemma interpolationLoop_prefix count rgbColors : forall acc rnd p rnd',
  interpolationLoop count rgbColors acc rnd = Some (p, rnd') ->
  exists more,
    p = acc ++ more /\ List.length more = count
    /\ Forall (isInterpolation rgbColors) more.
Proof.
  induction count as [|count IH]; simpl; intros acc rnd p rnd' H.
  - apply ret_Some in H. injection H as -> _. exists [].
    rewrite app_nil_r. repeat split. constructor.
  - run_inv H. apply IH in H. destruct H as (more & -> & Hlen & Hall).
    apply interpolatedColor_spec in Hrun.
    exists (a :: more). rewrite <- app_assoc. simpl.
    split; [reflexivity|]. split; [lia | now constructor].
Qed.

(** The outcomes of [blendHexPalettes]: an empty pool or a pool with no
    parseable colour gives the empty palette, a pool of one colour gives
    that colour, and any other pool gives the first [numColors] elements of
    the set made of the average colour and the interpolated ones. *)
Lemma blendHexPalettes_cases hexColors numColors rnd p rnd' :
  blendHexPalettes hexColors numColors rnd = Some (p, rnd') ->
  (hexColors = [] /\ p = [])
  \/ (exists c, hexColors = [c] /\ p = [c])
  \/ ((2 <= List.length hexColors)%nat
      /\ filterBoolean (map hexToRgb hexColors) = [] /\ p = [])
  \/ ((2 <= List.length hexColors)%nat
      /\ filterBoolean (map hexToRgb hexColors) <> []
      /\ exists more,
           List.length more = (numColors - 1)%nat
           /\ Forall (isInterpolation (filterBoolean (map hexToRgb hexColors)))
                more
           /\ p = firstn numColors
                    (Set_from
                       (rgbToHex
                          (averageChannel red
                             (filterBoolean (map hexToRgb hexColors)))
                          (averageChannel green
                             (filterBoolean (map hexToRgb hexColors)))
                          (averageChannel blue
                             (filterBoolean (map hexToRgb hexColors)))
                        :: more))).
Proof.
  unfold blendHexPalettes.
  destruct hexColors as [|c1 [|c2 rest]].
  - intros H. apply ret_Some in H. injection H as -> _. now left.
  - intros H. apply ret_Some in H. injection H as -> _. right; left. now exists c1.
  - remember (c1 :: c2 :: rest) as hexColors eqn:Hhex.
    assert (Hlen : (2 <= List.length hexColors)%nat) by (subst; simpl; lia).
    clear Hhex. remember (filterBoolean (map hexToRgb hexColors)) as rgbColors.
    destruct rgbColors as [|rgb rgbs].
    + intros H. apply ret_Some in H. injection H as -> _.
      right; right; left. easy.
    + intros H. run_inv H. injection H as -> _.
      apply interpolationLoop_prefix in Hrun.
      destruct Hrun as (more & -> & Hmore & Hall).
      right; right; right. split; [exact Hlen|]. split; [easy|].
      exists more. split; [exact Hmore|]. split; [exact Hall | reflexivity].
Qed.

Lemma NoDup_firstn (A : Type) n (l : list A) : NoDup l -> NoDup (firstn n l).
Proof.
  intros H. rewrite <- (firstn_skipn n l) in H. now apply NoDup_app_remove_r in H.
Qed.

(** Whatever the draws, a palette of [blendHexPalettes] has no duplicate
    and at most [numColors] entries. *)
Lemma blendHexPalettes_distinct hexColors numColors rnd p rnd' :
  (1 <= numColors)%nat ->
  blendHexPalettes hexColors numColors rnd = Some (p, rnd') ->
  NoDup p /\ (List.length p <= numColors)%nat.
Proof.
  intros Hn H. apply blendHexPalettes_cases in H.
  destruct H as [[_ ->] | [[c [_ ->]] | [(_ & _ & ->) | (_ & _ & more & _ & _ & ->)]]].
  - split; [constructor | simpl; lia].
  - split; [repeat constructor; easy | simpl; lia].
  - split; [constructor | simpl; lia].
  - split; [apply NoDup_firstn, Set_from_NoDup|].
    rewrite length_firstn. lia.
Qed.

Lemma blendVisuals_palette visuals rnd vis rnd' :
  blendVisuals visuals rnd = Some (vis, rnd') ->
  exists rnd1 rnd2,
    blendHexPalettes (flat_map Visual.palette visuals) 3 rnd1
    = Some (Visual.palette vis, rnd2).
Proof.
  unfold blendVisuals. intros H. run_inv H. injection H as Hvis Hrnd.
  subst vis. simpl. now exists rnd0, rnd1.
Qed.

(** C5, as the code has it.  For every successful weave the palette of the
    new Vibe is what [blendHexPalettes] makes of the pooled parent colours,
    taken as they are (no deduplication of the pool): it has no duplicate
    entry and at most 3 entries; an empty pool gives the empty palette, a
    pool of a single colour gives that colour alone, a pool of several
    colours none of which parses gives the empty palette, and a pool of
    several colours of which some parse gives a palette whose first entry
    is the rounded component-wise average of all parseable pool colours,
    followed by those of the two interpolated colours that differ from the
    entries before them. *)
Theorem weaveVibes_palette s ids now uuid rnd v s' rnd' :
  weaveVibes s ids now uuid rnd = Some (Some v, s', rnd') ->
  let pool := flat_map Visual.palette (map visual (getVibesByIds s ids)) in
  let rgbColors := filterBoolean (map hexToRgb pool) in
  let average :=
    rgbToHex (averageChannel red rgbColors) (averageChannel green rgbColors)
      (averageChannel blue rgbColors) in
  NoDup (Visual.palette (visual v))
  /\ (List.length (Visual.palette (visual v)) <= 3)%nat
  /\ (pool = [] -> Visual.palette (visual v) = [])
  /\ (forall c, pool = [c] -> Visual.palette (visual v) = [c])
  /\ ((2 <= List.length pool)%nat -> rgbColors = [] ->
      Visual.palette (visual v) = [])
  /\ ((2 <= List.length pool)%nat -> rgbColors <> [] ->
      exists c2 c3,
        isInterpolation rgbColors c2 /\ isInterpolation rgbColors c3
        /\ Visual.palette (visual v) = Set_from [average; c2; c3]).
Proof.
  intros Hrun pool rgbColors average.
  apply weaveVibes_success in Hrun. simpl in Hrun.
  destruct Hrun as (_ & _ & _ & _ & _ & _ & _ & rnd1 & rnd2 & Hvis).
  apply blendVisuals_palette in Hvis. destruct Hvis as (r1 & r2 & Hpal).
  fold pool in Hpal.
  destruct (blendHexPalettes_distinct pool 3 r1 _ r2 ltac:(lia) Hpal) as [Hnd Hlen].
  split; [exact Hnd|]. split; [exact Hlen|].
  apply blendHexPalettes_cases in Hpal. fold rgbColors in Hpal.
  destruct Hpal as [[Hp ->] | [[c [Hp ->]] | [(Hp & Hrgb & ->) | (Hp & Hrgb & more & Hmore & Hall & ->)]]].
  - rewrite Hp. simpl. split; [reflexivity|].
    split; [discriminate|]. split; [reflexivity|]. lia.
  - rewrite Hp. simpl. split; [discriminate|].
    split; [now intros c' [= ->]|]. split; lia.
  - split; [reflexivity|]. split; [|split; [reflexivity | easy]].
    intros c Hc. rewrite Hc in Hp. simpl in Hp. lia.
  - split; [intros Hc; rewrite Hc in Hp; simpl in Hp; lia|].
    split; [|split; [easy|]].
    + intros c Hc. rewrite Hc in Hp. simpl in Hp. lia.
    + intros _ _. destruct more as [|c2 [|c3 [|c4 more]]]; try discriminate.
      inversion Hall as [|? ? Hc2 Hall2]; subst.
      inversion Hall2 as [|? ? Hc3 _]; subst.
      exists c2, c3. split; [exact Hc2|]. split; [exact Hc3|].
      fold average. apply firstn_all2.
      pose proof (Set_from_NoDup [average; c2; c3]) as Hnd3.
      assert (Hincl : incl (Set_from [average; c2; c3]) [average; c2; c3]).
      { unfold Set_from. simpl. unfold Set_add. simpl.
        repeat (match goal with
                | |- context [if ?b then _ else _] => destruct b
                end; simpl);
          intros x Hx; simpl in *; tauto. }
      apply (NoDup_incl_length Hnd3 Hincl).
Qed.

(** The weave of the specification's scenario: Vibes A and B give a palette
    of three distinct colours that starts with the average of the four
    parent colours, an intensity of 73 and generation 1. *)
Lemma weaveVibes_palette_witness :
  exists v s' rnd',
    weaveVibes storeAB ["A"; "B"]%string 20 "W"
      [0; 0; 1 # 2; 1 # 3; 1 # 2; 3 # 4; 1 # 2; 0]%Q = Some (Some v, s', rnd')
    /\ Visual.palette (visual v) = ["#D6B67F"; "#C9A5A2"; "#FF9D24"]%string
    /\ NoDup (Visual.palette (visual v))
    /\ (List.length (Visual.palette (visual v)) <= 3)%nat.
Proof.
  destruct (weaveVibes storeAB ["A"; "B"]%string 20 "W"
              [0; 0; 1 # 2; 1 # 3; 1 # 2; 3 # 4; 1 # 2; 0]%Q)
    as [[[[v|] s'] rnd']|] eqn:E.
  - exists v, s', rnd'. split; [reflexivity|].
    pose proof (weaveVibes_palette _ _ _ _ _ _ _ _ E) as H.
    cbv zeta in H. destruct H as (Hnd & Hlen & _).
    split; [|split; [exact Hnd | exact Hlen]].
    vm_compute in E. injection E as <- _ _. reflexivity.
  - vm_compute in E. discriminate.
  - vm_compute in E. discriminate.
Defined.

(** The weave of the single Vibe M, whose palette is the single colour
    [#000000], succeeds with a palette of one entry, not three. *)
Lemma weaveVibes_palette_single_colour :
  exists v s' rnd',
    weaveVibes storeMono ["M"%string] 20 "W" [0; 0]%Q = Some (Some v, s', rnd')
    /\ Visual.palette (visual v) = ["#000000"%string]
    /\ List.length (Visual.palette (visual v)) <> 3%nat.
Proof.
  do 3 eexists. split; [vm_compute; reflexivity|].
  split; [reflexivity | discriminate].
Qed.

(** The pool is not deduplicated before the average: two blacks and one
    white average to [#555555], not to the [#808080] of one black and one
    white. *)
Example blendHexPalettes_counts_duplicates :
  blendHexPalettes ["#000000"; "#000000"; "#FFFFFF"]%string 3
    [0; 1 # 2; 0; 0; 1 # 2; 0]%Q
  = Some (["#555555"; "#000000"]%string, []).
Proof. vm_compute. reflexivity. Qed.

Example hexToRgb_shorthand : hexToRgb "#fA0" = Some (255, 170, 0).
Proof. reflexivity. Qed.

Example hexToRgb_rejects : hexToRgb "#12345" = None /\ hexToRgb "red" = None.
Proof. split; reflexivity. Qed.

Example rgbToHex_example : rgbToHex 174 198 207 = "#AEC6CF"%string.
Proof. vm_compute. reflexivity. Qed.

Example popularCount_examples :
  popularCount 5 = 3 /\ popularCount 10 = 7 /\ popularCount 90 = 62
  /\ popularCount (-1) = -1.
Proof. vm_compute. repeat split. Qed.

(** ** Runs that return *)

Lemma scaleIndex_zero n : scaleIndex 0 n = 0.
Proof. unfold scaleIndex, Qfloor, Qmult. simpl. apply Z.div_0_l. lia. Qed.

Lemma scaleIndex_half n : scaleIndex (1 # 2) n = Z.of_nat n / 2.
Proof.
  unfold scaleIndex, Qfloor, Qmult, inject_Z.
  cbn [Qnum Qden]. now rewrite Z.mul_1_l.
Qed.

Lemma alternatingIndex_range zero n :
  (1 <= n)%nat -> 0 <= alternatingIndex zero n < Z.of_nat n.
Proof.
  intros Hn. unfold alternatingIndex. destruct zero; [lia|].
  split; [apply Z.div_pos; lia | apply Z.div_lt_upper_bound; lia].
Qed.

Lemma alternatingIndex_differ zero n :
  (2 <= n)%nat -> alternatingIndex (negb zero) n <> alternatingIndex zero n.
Proof.
  intros Hn. unfold alternatingIndex.
  assert (1 <= Z.of_nat n / 2) by (apply Z.div_le_lower_bound; lia).
  destruct zero; simpl; lia.
Qed.

Lemma Math_random_alternating zero k :
  Math_random (alternating zero (S k))
  = Some ((if zero then 0 else 1 # 2)%Q, alternating (negb zero) k).
Proof. destruct zero; reflexivity. Qed.

Lemma randomIndex_alternating n zero k :
  randomIndex n (alternating zero (S k))
  = Some (alternatingIndex zero n, alternating (negb zero) k).
Proof.
  unfold randomIndex, bind. rewrite Math_random_alternating. unfold ret.
  destruct zero; unfold alternatingIndex;
    [now rewrite scaleIndex_zero | now rewrite scaleIndex_half].
Qed.

Lemma index_in_range (A : Type) (arr : list A) i rnd :
  0 <= i < Z.of_nat (List.length arr) ->
  exists a, index arr i rnd = Some (a, rnd).
Proof.
  intros Hi. unfold index.
  destruct (i <? 0) eqn:E; [apply Z.ltb_lt in E; lia|].
  destruct (nth_error arr (Z.to_nat i)) as [a|] eqn:N; [now exists a|].
  apply nth_error_None in N. lia.
Qed.

Lemma pickRandom_alternating (A : Type) (arr : list A) zero k :
  arr <> [] ->
  exists a, pickRandom arr (alternating zero (S k))
            = Some (a, alternating (negb zero) k).
Proof.
  intros Harr. unfold pickRandom, bind. rewrite randomIndex_alternating.
  apply index_in_range, alternatingIndex_range.
  destruct arr; [easy | simpl; lia].
Qed.

Lemma interpolatedColor_alternating rgbColors zero k :
  rgbColors <> [] ->
  exists c, interpolatedColor rgbColors (alternating zero (S (S (S k))))
            = Some (c, alternating (negb zero) k).
Proof.
  intros Hrgb.
  assert (Hn : (1 <= List.length rgbColors)%nat)
    by (destruct rgbColors; [easy | simpl; lia]).
  unfold interpolatedColor, bind.
  rewrite !randomIndex_alternating. rewrite negb_involutive.
  assert (Hredraw :
    forall body : Rand Z,
      body = (if (1 <? List.length rgbColors)%nat
              then redrawWhileEqual (List.length rgbColors)
                     (alternatingIndex zero (List.length rgbColors))
                     (alternatingIndex (negb zero) (List.length rgbColors))
              else ret (alternatingIndex (negb zero) (List.length rgbColors))) ->
      body (alternating zero (S k))
      = Some (alternatingIndex (negb zero) (List.length rgbColors),
              alternating zero (S k))).
  { intros body ->.
    destruct (1 <? List.length rgbColors)%nat eqn:E; [|reflexivity].
    apply Nat.ltb_lt in E. simpl.
    pose proof (alternatingIndex_differ zero (List.length rgbColors) E) as Hd.
    apply Z.eqb_neq in Hd. now rewrite Hd. }
  rewrite (Hredraw _ eq_refl), Math_random_alternating.
  destruct (index_in_range _ rgbColors
              (alternatingIndex zero (List.length rgbColors))
              (alternating (negb zero) k)
              (alternatingIndex_range zero _ Hn)) as [c1 ->].
  destruct (index_in_range _ rgbColors
              (alternatingIndex (negb zero) (List.length rgbColors))
              (alternating (negb zero) k)
              (alternatingIndex_range (negb zero) _ Hn)) as [c2 ->].
  unfold ret. eexists. reflexivity.
Qed.

(** On an alternating supply of at least 6 draws [blendHexPalettes] returns
    a palette, and leaves an alternating supply with at most 6 draws
    fewer. *)
Lemma blendHexPalettes_alternating hexColors zero k :
  exists p zero' k',
    (k <= k')%nat
    /\ blendHexPalettes hexColors 3 (alternating zero (6 + k))
       = Some (p, alternating zero' k').
Proof.
  unfold blendHexPalettes.
  destruct hexColors as [|c1 [|c2 rest]].
  - exists [], zero, (6 + k)%nat. split; [lia | reflexivity].
  - exists [c1], zero, (6 + k)%nat. split; [lia | reflexivity].
  - destruct (filterBoolean (map hexToRgb (c1 :: c2 :: rest))) as [|rgb rgbs] eqn:E.
    + exists [], zero, (6 + k)%nat. split; [lia | reflexivity].
    + assert (Hne : rgb :: rgbs <> []) by discriminate.
      change (3 - 1)%nat with 2%nat. cbn [interpolationLoop]. unfold bind.
      change (6 + k)%nat with (S (S (S (S (S (S k)))))).
      destruct (interpolatedColor_alternating (rgb :: rgbs) zero (S (S (S k))) Hne)
        as [x1 ->].
      destruct (interpolatedColor_alternating (rgb :: rgbs) (negb zero) k Hne)
        as [x2 ->].
      unfold ret. do 3 eexists. split; [|reflexivity]. lia.
Qed.

Lemma returnsWithin_ret (A : Type) (a : A) : returnsWithin (ret a) 0.
Proof.
  intros zero k _. exists a, zero, k. split; [lia | reflexivity].
Qed.

Lemma returnsWithin_bind (A B : Type) (m : Rand A) (f : A -> Rand B) n1 n2 :
  returnsWithin m n1 -> (forall a, returnsWithin (f a) n2) ->
  returnsWithin (x <- m ;; f x) (n1 + n2).
Proof.
  intros Hm Hf zero k Hk.
  destruct (Hm zero k ltac:(lia)) as (a & zero1 & k1 & Hk1 & Hrun1).
  destruct (Hf a zero1 k1 ltac:(lia)) as (b & zero2 & k2 & Hk2 & Hrun2).
  exists b, zero2, k2. split; [lia|].
  unfold bind. now rewrite Hrun1.
Qed.

Lemma returnsWithin_weaken (A : Type) (m : Rand A) n n' :
  (n <= n')%nat -> returnsWithin m n -> returnsWithin m n'.
Proof.
  intros Hn Hm zero k Hk.
  destruct (Hm zero k ltac:(lia)) as (a & zero1 & k1 & Hk1 & Hrun).
  exists a, zero1, k1. split; [lia | exact Hrun].
Qed.

Lemma returnsWithin_pickRandom (A : Type) (arr : list A) :
  arr <> [] -> returnsWithin (pickRandom arr) 1.
Proof.
  intros Harr zero k Hk. destruct k as [|k]; [lia|].
  destruct (pickRandom_alternating A arr zero k Harr) as [a Hrun].
  exists a, (negb zero), k. split; [lia | exact Hrun].
Qed.

Lemma returnsWithin_blendHexPalettes hexColors :
  returnsWithin (blendHexPalettes hexColors 3) 6.
Proof.
  intros zero k Hk.
  destruct (blendHexPalettes_alternating hexColors zero (k - 6))
    as (p & zero' & k' & Hk' & Hrun).
  replace (6 + (k - 6))%nat with k in Hrun by lia.
  now exists p, zero', k'.
Qed.

Lemma map_not_nil (A B : Type) (f : A -> B) l : l <> [] -> map f l <> [].
Proof. destruct l; [easy | discriminate]. Qed.

Lemma returnsWithin_blendVisuals visuals :
  visuals <> [] -> returnsWithin (blendVisuals visuals) 7.
Proof.
  intros Hv. unfold blendVisuals.
  apply (returnsWithin_bind _ _ _ _ 1 6);
    [now apply returnsWithin_pickRandom, map_not_nil|].
  intros a. apply (returnsWithin_bind _ _ _ _ 6 0);
    [apply returnsWithin_blendHexPalettes|].
  intros p. apply returnsWithin_ret.
Qed.

Lemma returnsWithin_blendAudios audios :
  audios <> [] -> returnsWithin (blendAudios audios) 1.
Proof.
  intros Ha. unfold blendAudios.
  apply (returnsWithin_bind _ _ _ _ 1 0);
    [now apply returnsWithin_pickRandom, map_not_nil|].
  intros a. apply returnsWithin_ret.
Qed.

Lemma returnsWithin_blendHaptics haptics :
  returnsWithin (blendHaptics haptics) 1.
Proof.
  unfold blendHaptics. destruct haptics as [|h haptics].
  - apply (returnsWithin_weaken _ _ 0); [lia | apply returnsWithin_ret].
  - apply (returnsWithin_bind _ _ _ _ 1 0);
      [apply returnsWithin_pickRandom; discriminate|].
    intros a. apply returnsWithin_ret.
Qed.

Lemma returnsWithin_blendTexts texts : returnsWithin (blendTexts texts) 3.
Proof.
  unfold blendTexts. destruct texts as [|t texts].
  - apply (returnsWithin_weaken _ _ 0); [lia | apply returnsWithin_ret].
  - apply (returnsWithin_bind _ _ _ _ 1 2);
      [apply returnsWithin_pickRandom; discriminate|].
    intros a. apply (returnsWithin_bind _ _ _ _ 1 1);
      [apply returnsWithin_pickRandom; discriminate|].
    intros b. apply (returnsWithin_bind _ _ _ _ 1 0);
      [apply returnsWithin_pickRandom; discriminate|].
    intros c. apply returnsWithin_ret.
Qed.

(** X25. [weaveVibes] returns a Vibe: for 1 to 3 parent ids that the store
    holds, the run on the alternating supply of 12 draws ends, with a new
    Vibe saved under the given id. *)
Lemma weaveVibes_returns s ids now uuid :
  (1 <= List.length ids <= 3)%nat ->
  List.length (getVibesByIds s ids) = List.length ids ->
  exists v rnd',
    weaveVibes s ids now uuid (alternating true 12)
    = Some (Some v, saveVibe s v, rnd').
Proof.
  intros Hcount Hres.
  assert (Hparents : getVibesByIds s ids <> []).
  { intros H. rewrite H in Hres. simpl in Hres. lia. }
  assert (Hret : returnsWithin (weaveVibes s ids now uuid) 12).
  { unfold weaveVibes.
    replace ((List.length ids =? 0)%nat || (3 <? List.length ids)%nat)
      with false.
    2:{ symmetry. apply orb_false_iff. split;
          [apply Nat.eqb_neq | apply Nat.ltb_ge]; lia. }
    rewrite Hres, Nat.eqb_refl. simpl negb. cbv iota.
    apply (returnsWithin_bind _ _ _ _ 7 5);
      [now apply returnsWithin_blendVisuals, map_not_nil|].
    intros vis. apply (returnsWithin_bind _ _ _ _ 1 4);
      [now apply returnsWithin_blendAudios, map_not_nil|].
    intros aud. apply (returnsWithin_bind _ _ _ _ 1 3);
      [apply returnsWithin_blendHaptics|].
    intros hap. apply (returnsWithin_bind _ _ _ _ 3 0);
      [apply returnsWithin_blendTexts|].
    intros txt. apply returnsWithin_ret. }
  destruct (Hret true 12%nat ltac:(lia)) as ([[v|] s'] & zero' & k' & _ & Hrun).
  - pose proof (weaveVibes_success _ _ _ _ _ _ _ _ Hrun) as Hs. simpl in Hs.
    destruct Hs as (_ & _ & -> & _). now exists v, (alternating zero' k').
  - exfalso. revert Hrun. unfold weaveVibes.
    replace ((List.length ids =? 0)%nat || (3 <? List.length ids)%nat)
      with false.
    2:{ symmetry. apply orb_false_iff. split;
          [apply Nat.eqb_neq | apply Nat.ltb_ge]; lia. }
    rewrite Hres, Nat.eqb_refl. simpl negb. cbv iota.
    intros H. run_inv H. discriminate.
Qed.

(** ** The stream handler *)

(** [handleGetStreamVibes] passes only limits from 1 to 100 to
    [getStreamVibes]; for those, [Math.floor(limit * 0.7)] lies between 0
    and the limit. *)
Lemma handleGetStreamVibes_limit shuffle s type aid n now vibes :
  handleGetStreamVibes shuffle s (Some type) (Some aid) (Some n) now
  = mkResponse 200 (JStream type aid vibes) ->
  1 <= n <= 100 /\ 0 <= popularCount n <= n
  /\ vibes = getVibesByIds s (getStreamVibes shuffle s type aid n now).
Proof.
  unfold handleGetStreamVibes.
  destruct (String.eqb aid ""); [discriminate|].
  destruct ((n <=? 0) || (100 <? n)) eqn:E; [discriminate|].
  apply orb_false_iff in E. destruct E as [E1 E2].
  apply Z.leb_gt in E1. apply Z.ltb_ge in E2.
  intros [= <-]. split; [lia|]. split; [apply popularCount_bounds; lia | reflexivity].
Qed.

Lemma handleGetStreamVibes_rejects shuffle s type aid n now :
  n <= 0 ->
  _status (handleGetStreamVibes shuffle s (Some type) (Some aid) (Some n) now)
  = 400.
Proof.
  intros Hn. unfold handleGetStreamVibes.
  destruct (String.eqb aid ""); [reflexivity|].
  apply Z.leb_le in Hn. now rewrite Hn.
Qed.

(** Through its handler too, the weave of an expired parent is answered
    with 201 and a new Vibe, although the text of the handler's 404 names
    expired parents. *)
Lemma handleWeaveVibes_expired_parent :
  exists r s' rnd',
    handleWeaveVibes storeMono (ArrayOf [Some "M"%string])
      (VIBE_LIFESPAN_MS + 5) "W" [0; 0]%Q = Some (r, s', rnd')
    /\ _status r = 201.
Proof. do 3 eexists. split; [vm_compute; reflexivity | reflexivity]. Qed.

(** * Further properties of the store *)

Section MapMoreFacts.
Variable V : Type.
Implicit Types (m : list (string * V)) (k : string) (v : V).

Lemma Map_set_set m k v w : Map_set (Map_set m k v) k w = Map_set m k w.
Proof.
  induction m as [|[k' v'] m IH]; simpl.
  - now rewrite String.eqb_refl.
  - destruct (String.eqb k' k) eqn:E; simpl.
    + now rewrite String.eqb_refl.
    + now rewrite E, IH.
Qed.

Lemma Map_keys_set_fresh m k v :
  ~ In k (Map_keys m) -> Map_keys (Map_set m k v) = Map_keys m ++ [k].
Proof.
  induction m as [|[k' v'] m IH]; simpl; intros H; [reflexivity|].
  destruct (String.eqb k' k) eqn:E.
  - apply String.eqb_eq in E. exfalso. apply H. now left.
  - simpl. f_equal. apply IH. intros Hin. apply H. now right.
Qed.

Lemma Map_delete_filter m k :
  NoDup (Map_keys m) ->
  Map_delete m k = filter (fun kv => negb (String.eqb (fst kv) k)) m.
Proof.
  induction m as [|[k' v'] m IH]; simpl; intros Hnd; [reflexivity|].
  inversion Hnd as [|? ? Hnotin Hnd']; subst.
  destruct (String.eqb k' k) eqn:E; simpl.
  - apply String.eqb_eq in E. subst k'. symmetry. apply filter_all.
    intros [k0 v0] Hin. simpl. apply negb_true_iff, String.eqb_neq.
    intros ->. apply Hnotin. change k with (fst (k, v0)). now apply in_map.
  - f_equal. now apply IH.
Qed.

Lemma filter_keys_NoDup (p : string * V -> bool) m :
  NoDup (Map_keys m) -> NoDup (Map_keys (filter p m)).
Proof. apply NoDup_map_filter. Qed.

Lemma Map_get_filter (p : string * V -> bool) m k :
  NoDup (Map_keys m) ->
  Map_get (filter p m) k =
    match Map_get m k with
    | Some v => if p (k, v) then Some v else None
    | None => None
    end.
Proof.
  induction m as [|[k' v'] m IH]; simpl; intros Hnd; [reflexivity|].
  inversion Hnd as [|? ? Hnotin Hnd']; subst.
  destruct (String.eqb k' k) eqn:E.
  - apply String.eqb_eq in E. subst k'.
    destruct (p (k, v')) eqn:P; simpl.
    + now rewrite String.eqb_refl.
    + rewrite IH by assumption.
      apply (Map_get_None_keys V m k) in Hnotin. now rewrite Hnotin.
  - destruct (p (k', v')); simpl; [rewrite E|]; now apply IH.
Qed.

Lemma filter_filter (A : Type) (f g : A -> bool) (l : list A) :
  filter f (filter g l) = filter (fun x => g x && f x) l.
Proof.
  induction l as [|x l IH]; simpl; [reflexivity|].
  destruct (g x); simpl; [destruct (f x); now rewrite IH | exact IH].
Qed.

End MapMoreFacts.

(** The sweep is a filter: it keeps, in their order, the entries that have
    not expired. *)
Lemma deleteExpired_fold_filter now (l : VibeStore) : forall m,
  NoDup (Map_keys m) ->
  fold_left (deleteIfExpired now) l m =
    filter
      (fun kv =>
         forallb
           (fun e => negb ((expiresAt (snd e) <=? now)
                           && String.eqb (fst kv) (fst e)))
           l)
      m.
Proof.
  induction l as [|e l IH]; simpl; intros m Hnd.
  - symmetry. now apply filter_all.
  - assert (Hstep : deleteIfExpired now m e =
              filter (fun kv => negb ((expiresAt (snd e) <=? now)
                                      && String.eqb (fst kv) (fst e))) m).
    { unfold deleteIfExpired. destruct (expiresAt (snd e) <=? now); simpl.
      - now apply Map_delete_filter.
      - symmetry. now apply filter_all. }
    rewrite IH.
    + rewrite Hstep. apply filter_filter.
    + rewrite Hstep. now apply filter_keys_NoDup.
Qed.

Lemma deleteExpired_filter s now :
  storeWf s ->
  deleteExpiredVibes s now
  = filter (fun kv => negb (expiresAt (snd kv) <=? now)) s.
Proof.
  intros [Hnd _]. unfold deleteExpiredVibes.
  rewrite deleteExpired_fold_filter by assumption.
  apply filter_ext_in. intros kv Hkv.
  destruct (expiresAt (snd kv) <=? now) eqn:E; simpl.
  - apply not_true_is_false. intros Hall.
    rewrite forallb_forall in Hall. specialize (Hall kv Hkv).
    rewrite E, String.eqb_refl in Hall. discriminate.
  - apply forallb_forall. intros e He.
    destruct (expiresAt (snd e) <=? now) eqn:Ee; [|reflexivity]. simpl.
    apply negb_true_iff, String.eqb_neq. intros Hk.
    assert (kv = e); [|subst; congruence].
    destruct kv as [k v], e as [k' v']. simpl in Hk. subst k'.
    f_equal. apply (In_Map_get _ s k v Hnd) in Hkv.
    apply (In_Map_get _ s k v' Hnd) in He. congruence.
Qed.

Lemma deleteExpired_get s now i :
  storeWf s ->
  getVibe (deleteExpiredVibes s now) i =
    match getVibe s i with
    | Some v => if expiresAt v <=? now then None else Some v
    | None => None
    end.
Proof.
  intros Hwf. rewrite deleteExpired_filter by assumption.
  unfold getVibe. rewrite Map_get_filter by apply Hwf.
  destruct (Map_get s i) as [v|]; [|reflexivity]. simpl.
  now destruct (expiresAt v <=? now).
Qed.

(** X1. [saveVibe] is an upsert by id: the saved Vibe is what [getVibe]
    returns under its id, every other id resolves as before, saving the
    same Vibe twice is saving it once, and of two Vibes saved under one id
    the last one stays. *)
Theorem saveVibe_upsert s v :
  getVibe (saveVibe s v) (id v) = Some v
  /\ (forall i, i <> id v -> getVibe (saveVibe s v) i = getVibe s i)
  /\ saveVibe (saveVibe s v) v = saveVibe s v
  /\ (forall w, id w = id v -> saveVibe (saveVibe s v) w = saveVibe s w)
  /\ (getVibe s (id v) <> None ->
      Map_keys (saveVibe s v) = Map_keys s)
  /\ (getVibe s (id v) = None ->
      Map_keys (saveVibe s v) = Map_keys s ++ [id v]).
Proof.
  unfold getVibe, saveVibe. split; [apply Map_get_set_same|].
  split. { intros i Hi. apply Map_get_set_other. congruence. }
  split; [apply Map_set_set|].
  split. { intros w Hw. rewrite Hw. apply Map_set_set. }
  split.
  - intros Hsome. apply Map_keys_set_has.
    destruct (in_dec string_dec (id v) (Map_keys s)) as [Hin | Hout]; [easy|].
    apply Map_get_None_keys in Hout. contradiction.
  - intros Hnone. apply Map_keys_set_fresh. now apply Map_get_None_keys.
Qed.

(** X2. On a store that files every Vibe under its own id, [getVibesByIds]
    returns the Vibes of exactly those requested ids that the store holds,
    in the order asked and with repetitions, and silently leaves the other
    ids out; every Vibe it returns is the one stored under its id. *)
Theorem getVibesByIds_resolves_in_order s ids :
  storeWf s ->
  map id (getVibesByIds s ids) = filter (fun i => Map_has s i) ids
  /\ (forall v, In v (getVibesByIds s ids) -> getVibe s (id v) = Some v)
  /\ (List.length (getVibesByIds s ids) <= List.length ids)%nat.
Proof.
  intros Hwf. split; [|split].
  - unfold getVibesByIds, Map_has.
    induction ids as [|i ids IH]; simpl; [reflexivity|].
    destruct (Map_get s i) as [v|] eqn:E; simpl; [|exact IH].
    f_equal; [exact (storeWf_get_id s i v Hwf E) | exact IH].
  - intros v Hv. apply getVibesByIds_In in Hv. destruct Hv as [i [_ Hget]].
    now rewrite (storeWf_get_id s i v Hwf Hget).
  - unfold getVibesByIds.
    pose proof (filterBoolean_length _ (map (fun i => Map_get s i) ids)) as H.
    now rewrite length_map in H.
Qed.

Lemma getVibesByIds_resolves_in_order_witness :
  map id (getVibesByIds storeAB ["B"; "ghost"; "A"; "B"]%string)
  = ["B"; "A"; "B"]%string.
Proof.
  rewrite (proj1 (getVibesByIds_resolves_in_order storeAB
                    ["B"; "ghost"; "A"; "B"]%string storeAB_wf)).
  reflexivity.
Defined.

(** X3. On a store that files every Vibe under its own id,
    [getAllActiveVibes] returns exactly the stored Vibes with
    [now < expiresAt], each once. *)
Theorem getAllActiveVibes_exact s now :
  storeWf s ->
  (forall v, In v (getAllActiveVibes s now)
             <-> getVibe s (id v) = Some v /\ now < expiresAt v)
  /\ NoDup (map id (getAllActiveVibes s now)).
Proof.
  intros Hwf. split; [|now apply active_ids_NoDup].
  intros v. unfold getAllActiveVibes. rewrite filter_In, Z.ltb_lt.
  split; intros [H1 H2]; (split; [|exact H2]).
  - now apply storeWf_In_get.
  - now apply (getVibe_value s (id v)).
Qed.

Lemma getAllActiveVibes_exact_witness :
  (In vibeA (getAllActiveVibes storeAB 20)
   <-> getVibe storeAB (id vibeA) = Some vibeA /\ 20 < expiresAt vibeA)
  /\ getAllActiveVibes storeAB (VIBE_LIFESPAN_MS + 5)
     = [fst (createNewVibe storeA visualB audioB None None 10 "B")].
Proof.
  split; [|reflexivity].
  exact (proj1 (getAllActiveVibes_exact storeAB 20 storeAB_wf) vibeA).
Defined.

(** X4. On a store that files every Vibe under its own id, [deleteVibe]
    returns [true] exactly when the id was stored; afterwards the id no
    longer resolves, every other id resolves as before, and the store
    still files every Vibe under its own id. *)
Theorem deleteVibe_removes s i :
  storeWf s ->
  (fst (deleteVibe s i) = true <-> getVibe s i <> None)
  /\ getVibe (snd (deleteVibe s i)) i = None
  /\ (forall j, j <> i -> getVibe (snd (deleteVibe s i)) j = getVibe s j)
  /\ storeWf (snd (deleteVibe s i)).
Proof.
  intros Hwf. simpl. unfold getVibe, Map_has.
  split; [|split; [|split]].
  - destruct (Map_get s i); split; try easy; intros H; now elim H.
  - rewrite Map_delete_filter by apply Hwf.
    rewrite Map_get_filter by apply Hwf.
    destruct (Map_get s i); [|reflexivity]. simpl. now rewrite String.eqb_refl.
  - intros j Hj. rewrite Map_delete_filter by apply Hwf.
    rewrite Map_get_filter by apply Hwf.
    destruct (Map_get s j); [|reflexivity]. simpl.
    apply String.eqb_neq in Hj. now rewrite Hj.
  - now apply storeWf_delete.
Qed.

Lemma deleteVibe_removes_witness :
  getVibe (snd (deleteVibe storeAB "A")) "A" = None
  /\ fst (deleteVibe storeAB "ghost") = false.
Proof.
  split; [|reflexivity].
  exact (proj1 (proj2 (deleteVibe_removes storeAB "A"%string storeAB_wf))).
Defined.

(** X5. On a store that files every Vibe under its own id, the sweep
    [deleteExpiredVibes] removes exactly the Vibes with [expiresAt <= now]:
    it leaves the other entries, in their order; an id resolves afterwards
    iff it resolved before to a Vibe that has not expired, and to the same
    Vibe; no stored Vibe is expired after it; the invariant of the store is
    kept. *)
Theorem deleteExpiredVibes_exact s now :
  storeWf s ->
  deleteExpiredVibes s now
  = filter (fun kv => negb (expiresAt (snd kv) <=? now)) s
  /\ (forall i v, getVibe (deleteExpiredVibes s now) i = Some v
                  <-> getVibe s i = Some v /\ now < expiresAt v)
  /\ (forall v, In v (Map_values (deleteExpiredVibes s now)) ->
                now < expiresAt v)
  /\ storeWf (deleteExpiredVibes s now).
Proof.
  intros Hwf. split; [now apply deleteExpired_filter|].
  split; [|split].
  - intros i v. rewrite deleteExpired_get by assumption.
    destruct (getVibe s i) as [w|]; [|split; [discriminate | now intros [H _]]].
    destruct (expiresAt w <=? now) eqn:E.
    + apply Z.leb_le in E. split; [discriminate|].
      intros [[= ->] H]. lia.
    + apply Z.leb_gt in E. split.
      * intros [= ->]. now split.
      * now intros [H _].
  - intros v Hv. rewrite deleteExpired_filter in Hv by assumption.
    unfold Map_values in Hv. apply in_map_iff in Hv.
    destruct Hv as [kv [<- Hkv]]. apply filter_In in Hkv.
    destruct Hkv as [_ Hkv]. apply negb_true_iff, Z.leb_gt in Hkv. exact Hkv.
  - now apply deleteExpired_fold_wf.
Qed.

Lemma deleteExpiredVibes_exact_witness :
  Map_keys (deleteExpiredVibes storeAB (VIBE_LIFESPAN_MS + 5)) = ["B"%string]
  /\ deleteExpiredVibes storeAB 20 = storeAB.
Proof.
  split.
  - rewrite (proj1 (deleteExpiredVibes_exact storeAB (VIBE_LIFESPAN_MS + 5)
                      storeAB_wf)).
    reflexivity.
  - reflexivity.
Defined.

Lemma active_values_filter (p : string * Vibe -> bool) (s : VibeStore) t :
  (forall kv, In kv s -> t < expiresAt (snd kv) -> p kv = true) ->
  getAllActiveVibes (filter p s) t = getAllActiveVibes s t.
Proof.
  unfold getAllActiveVibes, Map_values.
  induction s as [|kv s IH]; simpl; intros Hp; [reflexivity|].
  assert (IH' : filter (fun vibe => t <? expiresAt vibe) (map snd (filter p s))
                = filter (fun vibe => t <? expiresAt vibe) (map snd s)).
  { apply IH. intros kv' Hin. apply Hp. now right. }
  destruct (t <? expiresAt (snd kv)) eqn:E.
  - rewrite (Hp kv) by (try apply Z.ltb_lt; auto). simpl. now rewrite E, IH'.
  - destruct (p kv); simpl; [rewrite E|]; exact IH'.
Qed.

(** X6. The sweep changes nothing that a later reader can see: on a store
    that files every Vibe under its own id, after [deleteExpiredVibes] at
    time [now] every lookup through [handleGetVibe], the list of active
    Vibes and both streams at any time [t >= now] are what they would be
    without the sweep. *)
Theorem deleteExpiredVibes_invisible s now t :
  storeWf s -> now <= t ->
  (forall vibeId,
     handleGetVibe (deleteExpiredVibes s now) vibeId t = handleGetVibe s vibeId t)
  /\ getAllActiveVibes (deleteExpiredVibes s now) t = getAllActiveVibes s t
  /\ (forall shuffle streamType associatedId limit,
        getStreamVibes shuffle (deleteExpiredVibes s now) streamType
          associatedId limit t
        = getStreamVibes shuffle s streamType associatedId limit t).
Proof.
  intros Hwf Hle.
  assert (Hactive : getAllActiveVibes (deleteExpiredVibes s now) t
                    = getAllActiveVibes s t).
  { rewrite deleteExpired_filter by assumption. apply active_values_filter.
    intros kv _ Hact. apply negb_true_iff, Z.leb_gt. lia. }
  split; [|split; [exact Hactive|]].
  - intros [i|]; [|reflexivity]. unfold handleGetVibe.
    destruct (String.eqb i ""); [reflexivity|].
    rewrite deleteExpired_get by assumption.
    destruct (getVibe s i) as [v|]; [|reflexivity].
    destruct (expiresAt v <=? now) eqn:E; [|reflexivity].
    apply Z.leb_le in E.
    destruct (expiresAt v <=? t) eqn:E'; [reflexivity|].
    apply Z.leb_gt in E'. lia.
  - intros shuffle streamType associatedId limit.
    unfold getStreamVibes. now rewrite Hactive.
Qed.

Lemma deleteExpiredVibes_invisible_witness :
  getAllActiveVibes (deleteExpiredVibes storeAB (VIBE_LIFESPAN_MS + 5))
    (VIBE_LIFESPAN_MS + 7)
  = getAllActiveVibes storeAB (VIBE_LIFESPAN_MS + 7).
Proof.
  refine (proj1 (proj2 (deleteExpiredVibes_invisible storeAB
                          (VIBE_LIFESPAN_MS + 5) (VIBE_LIFESPAN_MS + 7)
                          storeAB_wf _))).
  vm_compute. discriminate.
Defined.

Lemma expireVibe_wf s i t : storeWf s -> storeWf (expireVibe s i t).
Proof.
  intros Hwf. unfold expireVibe. destruct (getVibe s i); [|exact Hwf].
  now apply storeWf_save.
Qed.

(** X7. The expiry scenario of the demonstration driver: on a store that
    files every Vibe under its own id, once [expiresAt] of the Vibe under
    an id is overwritten with a time that has passed and the sweep has
    run, the id no longer resolves and its lookup is answered 404; every
    other id resolves as after a sweep alone. *)
Theorem expire_then_sweep s i t now :
  storeWf s -> t <= now ->
  getVibe (deleteExpiredVibes (expireVibe s i t) now) i = None
  /\ (i <> ""%string ->
      _status (handleGetVibe (deleteExpiredVibes (expireVibe s i t) now)
                 (Some i) now) = 404)
  /\ (forall j, j <> i ->
        getVibe (deleteExpiredVibes (expireVibe s i t) now) j
        = getVibe (deleteExpiredVibes s now) j).
Proof.
  intros Hwf Hle.
  assert (Hnone : getVibe (deleteExpiredVibes (expireVibe s i t) now) i = None).
  { rewrite deleteExpired_get by now apply expireVibe_wf.
    unfold expireVibe. destruct (getVibe s i) as [v|] eqn:E.
    - pose proof (storeWf_get_id s i v Hwf E) as Hid.
      unfold getVibe, saveVibe. simpl. rewrite Hid, Map_get_set_same. simpl.
      apply Z.leb_le in Hle. now rewrite Hle.
    - now rewrite E. }
  split; [exact Hnone|]. split.
  - intros Hi. unfold handleGetVibe. apply String.eqb_neq in Hi.
    now rewrite Hi, Hnone.
  - intros j Hj. rewrite !deleteExpired_get by (try apply expireVibe_wf; assumption).
    unfold expireVibe. destruct (getVibe s i) as [v|] eqn:E; [|reflexivity].
    pose proof (storeWf_get_id s i v Hwf E) as Hid.
    unfold getVibe at 1, saveVibe. simpl. rewrite Hid.
    rewrite Map_get_set_other by congruence. reflexivity.
Qed.

Lemma expire_then_sweep_witness :
  getVibe (deleteExpiredVibes (expireVibe storeAB "A" 19) 20) "A" = None
  /\ getVibe (deleteExpiredVibes (expireVibe storeAB "A" 19) 20) "B"
     = getVibe storeAB "B".
Proof.
  split; [|reflexivity].
  refine (proj1 (expire_then_sweep storeAB "A"%string 19 20 storeAB_wf _)).
  vm_compute. discriminate.
Defined.

(** * Further properties of the processor *)

(** X8. The life of a created Vibe: [createNewVibe] files the new Vibe
    under its id without touching any other id and keeps the invariant of
    the store; for a non-empty id, the lookup through [handleGetVibe]
    answers 200 with that Vibe at every time before
    [now + VIBE_LIFESPAN_MS] and 404 from then on; and the new Vibe is
    among the active Vibes as soon as it is created. *)
Theorem createNewVibe_lifecycle s vis aud hap txt now uuid :
  let v := fst (createNewVibe s vis aud hap txt now uuid) in
  let s' := snd (createNewVibe s vis aud hap txt now uuid) in
  getVibe s' uuid = Some v
  /\ (forall j, j <> uuid -> getVibe s' j = getVibe s j)
  /\ (storeWf s -> storeWf s')
  /\ (uuid <> ""%string ->
      forall t,
        (t < now + VIBE_LIFESPAN_MS ->
         handleGetVibe s' (Some uuid) t = mkResponse 200 (JVibe v))
        /\ (now + VIBE_LIFESPAN_MS <= t ->
            _status (handleGetVibe s' (Some uuid) t) = 404))
  /\ In v (getAllActiveVibes s' now).
Proof.
  intros v s'. subst v s'. cbn [fst snd createNewVibe].
  set (v := mkVibe uuid now (now + VIBE_LIFESPAN_MS) vis aud hap txt
              (mkInternal [] 0%Q 0 now)).
  assert (Hget : getVibe (saveVibe s v) uuid = Some v).
  { unfold getVibe, saveVibe. apply Map_get_set_same. }
  split; [exact Hget|]. split; [|split; [|split]].
  - intros j Hj. unfold getVibe, saveVibe. apply Map_get_set_other. simpl.
    congruence.
  - intros Hwf. now apply storeWf_save.
  - intros Hid t. apply String.eqb_neq in Hid. unfold handleGetVibe.
    rewrite Hid, Hget. simpl expiresAt. split; intros Ht.
    + destruct (now + VIBE_LIFESPAN_MS <=? t) eqn:E;
        [apply Z.leb_le in E; lia | reflexivity].
    + apply Z.leb_le in Ht. now rewrite Ht.
  - unfold getAllActiveVibes. apply filter_In. split.
    + now apply (getVibe_value _ uuid).
    + apply Z.ltb_lt. simpl. unfold VIBE_LIFESPAN_MS. lia.
Qed.

(** X9. What [resonateWithVibe] does, on a store that files every Vibe
    under its own id: for an id that the store does not hold it returns
    [null] and the store as it was; for a stored Vibe it returns that Vibe
    with its score raised by exactly 1 and [lastResonatedAt] set to the
    time of the call, everything else being as before, files it under the
    same id, and changes no other entry nor the keys of the store. *)
Theorem resonateWithVibe_effect s i now :
  storeWf s ->
  match getVibe s i with
  | None => resonateWithVibe s i now = (None, s)
  | Some v =>
      exists v',
        resonateWithVibe s i now = (Some v', saveVibe s v')
        /\ getVibe (snd (resonateWithVibe s i now)) i = Some v'
        /\ resonanceScore (_internal v') = (resonanceScore (_internal v) + 1)%Q
        /\ lastResonatedAt (_internal v') = now
        /\ id v' = id v /\ createdAt v' = createdAt v
        /\ expiresAt v' = expiresAt v
        /\ visual v' = visual v /\ audio v' = audio v
        /\ haptic v' = haptic v /\ text v' = text v
        /\ parentVibeIds (_internal v') = parentVibeIds (_internal v)
        /\ generation (_internal v') = generation (_internal v)
        /\ (forall j, j <> i ->
              getVibe (snd (resonateWithVibe s i now)) j = getVibe s j)
        /\ Map_keys (snd (resonateWithVibe s i now)) = Map_keys s
  end.
Proof.
  intros Hwf. destruct (getVibe s i) as [v|] eqn:E;
    [|now apply resonateWithVibe_missing].
  pose proof (storeWf_get_id s i v Hwf E) as Hid.
  rewrite (resonateWithVibe_found s i v now E). eexists.
  split; [reflexivity|]. cbn [snd]. unfold getVibe, saveVibe. simpl.
  rewrite Hid. split; [apply Map_get_set_same|].
  repeat (split; [reflexivity|]). split.
  - intros j Hj. apply Map_get_set_other. congruence.
  - apply Map_keys_set_has.
    destruct (in_dec string_dec i (Map_keys s)) as [Hin | Hout]; [easy|].
    apply Map_get_None_keys in Hout. unfold getVibe in E. congruence.
Qed.

Lemma resonateWithVibe_effect_witness :
  (exists v', getVibe storeResonated "A" = Some v'
              /\ (resonanceScore (_internal v') == 3)%Q)
  /\ resonateWithVibe storeAB "ghost" 30 = (None, storeAB).
Proof.
  split.
  - eexists. split; reflexivity.
  - exact (resonateWithVibe_effect storeAB "ghost"%string 30 storeAB_wf).
Defined.

Lemma hoursSince_le_1 t v :
  (hoursSince t v <= 1)%Q <-> t - lastResonatedAt (_internal v) <= 3600000.
Proof.
  unfold hoursSince. change (inject_Z (1000 * 60 * 60)) with (inject_Z 3600000).
  generalize (t - lastResonatedAt (_internal v)). intros d.
  unfold Qle, Qdiv, Qmult, Qinv, inject_Z. simpl. lia.
Qed.

(** X10. Resonating restarts the hour of grace: on a store that files every
    Vibe under its own id, a [decayVibeResonance] that runs at most one
    hour (3600000 ms) after a Vibe was resonated leaves that Vibe exactly
    as the resonance left it, whatever the decay rate. *)
Theorem resonate_then_decay s i v now rate t nowStore :
  storeWf s -> getVibe s i = Some v -> t - now <= 3600000 ->
  getVibe
    (decayVibeResonance (snd (resonateWithVibe s i now)) rate t nowStore) i
  = getVibe (snd (resonateWithVibe s i now)) i.
Proof.
  intros Hwf Hget Ht.
  pose proof (storeWf_get_id s i v Hwf Hget) as Hid.
  assert (Hwf' : storeWf (snd (resonateWithVibe s i now)))
    by now apply resonateWithVibe_wf.
  rewrite (resonateWithVibe_found s i v now Hget) in *. cbn [snd] in *.
  set (v' := set_lastResonatedAt
               (set_resonanceScore v (resonanceScore (_internal v) + 1)%Q) now)
    in *.
  assert (Hget' : getVibe (saveVibe s v') i = Some v').
  { unfold getVibe, saveVibe. replace (id v') with i by (symmetry; exact Hid).
    apply Map_get_set_same. }
  rewrite (decay_get _ rate t nowStore i v' Hwf' Hget'), Hget'.
  destruct (nowStore <? expiresAt v'); [|reflexivity].
  f_equal. apply decayed_idle, Qgtb_false, hoursSince_le_1. exact Ht.
Qed.

Lemma resonate_then_decay_witness :
  getVibe
    (decayVibeResonance (snd (resonateWithVibe storeAB "A" 30)) 1
       (30 + 3600000) (30 + 3600000)) "A"
  = getVibe (snd (resonateWithVibe storeAB "A" 30)) "A".
Proof.
  refine (resonate_then_decay storeAB "A"%string vibeA 30 1 (30 + 3600000)
            (30 + 3600000) storeAB_wf _ _).
  - reflexivity.
  - vm_compute. discriminate.
Defined.

(** X11. With a decay rate that is not negative, [decayVibeResonance]
    never raises a score: on a store that files every Vibe under its own
    id, a stored Vibe whose score is not negative is still stored under its
    id afterwards, with a score between 0 and its old score. *)
Theorem decay_never_raises s rate now nowStore i v :
  storeWf s -> getVibe s i = Some v ->
  (0 <= rate)%Q -> (0 <= resonanceScore (_internal v))%Q ->
  exists v',
    getVibe (decayVibeResonance s rate now nowStore) i = Some v'
    /\ (0 <= resonanceScore (_internal v'))%Q
    /\ (resonanceScore (_internal v') <= resonanceScore (_internal v))%Q.
Proof.
  intros Hwf Hget Hrate Hscore.
  rewrite (decay_get s rate now nowStore i v Hwf Hget). eexists.
  split; [reflexivity|].
  assert (Hdec : forall h : Q, (1 < h)%Q ->
            (Qmax 0 (resonanceScore (_internal v)
                     - resonanceScore (_internal v) * rate * h)
             <= resonanceScore (_internal v))%Q).
  { intros h Hh. set (x := resonanceScore (_internal v)) in *.
    assert (Hprod : (0 <= x * rate * h)%Q).
    { apply Qmult_le_0_compat; [now apply Qmult_le_0_compat | lra]. }
    apply Q.max_lub; lra. }
  destruct (nowStore <? expiresAt v) eqn:Hact.
  - unfold decayed. destruct (Qgtb (hoursSince now v) 1) eqn:G.
    + apply Qgtb_true in G. pose proof (Hdec _ G) as Hle. simpl.
      split; [apply Q.le_max_l | exact Hle].
    + split; [exact Hscore | lra].
  - split; [exact Hscore | lra].
Qed.

Lemma decay_never_raises_witness :
  exists v',
    getVibe
      (decayVibeResonance storeResonated (1 # 4) (30 + 7200000) (30 + 7200000))
      "A" = Some v'
    /\ (0 <= resonanceScore (_internal v'))%Q
    /\ (resonanceScore (_internal v') <= 3)%Q.
Proof.
  edestruct (decay_never_raises storeResonated (1 # 4) (30 + 7200000)
               (30 + 7200000) "A") as (v' & Hv' & H0 & Hle).
  - exact storeResonated_wf.
  - vm_compute. reflexivity.
  - vm_compute. discriminate.
  - vm_compute. discriminate.
  - exists v'. split; [exact Hv'|]. split; [exact H0|].
    apply (Qle_trans _ _ _ Hle). vm_compute. discriminate.
Defined.

Lemma assoc_ext (V : Type) (m1 : list (string * V)) : forall m2,
  Map_keys m1 = Map_keys m2 -> NoDup (Map_keys m1) ->
  (forall k, Map_get m1 k = Map_get m2 k) -> m1 = m2.
Proof.
  induction m1 as [|[k1 v1] m1 IH]; intros [|[k2 v2] m2] Hk Hnd Hget;
    simpl in Hk; try discriminate; [reflexivity|].
  injection Hk as <- Hk. inversion Hnd as [|? ? Hnotin Hnd']; subst.
  pose proof (Hget k1) as H1. simpl in H1. rewrite String.eqb_refl in H1.
  injection H1 as <-. f_equal. apply IH; [exact Hk | exact Hnd'|].
  intros k. specialize (Hget k). simpl in Hget.
  destruct (String.eqb k1 k) eqn:E; [|exact Hget].
  apply String.eqb_eq in E. subst k.
  pose proof Hnotin as Hn2. rewrite Hk in Hn2.
  apply (Map_get_None_keys V m1 k1) in Hnotin.
  apply (Map_get_None_keys V m2 k1) in Hn2. congruence.
Qed.

(** X12. [decayVibeResonance] rewrites the store in place: on a store that
    files every Vibe under its own id, the store after one invocation is
    the old one, entry by entry and in the same order, with the score of
    each Vibe that is active and due for decay replaced; so at any time
    the ids of the active Vibes, in store order, are the same before and
    after. *)
Theorem decayVibeResonance_in_place s rate now nowStore :
  storeWf s ->
  decayVibeResonance s rate now nowStore
  = map (fun kv =>
           (fst kv,
            if nowStore <? expiresAt (snd kv)
            then decayed rate now (snd kv) else snd kv)) s
  /\ forall t,
       map id (getAllActiveVibes (decayVibeResonance s rate now nowStore) t)
       = map id (getAllActiveVibes s t).
Proof.
  intros Hwf.
  set (f := fun v : Vibe =>
              if nowStore <? expiresAt v then decayed rate now v else v).
  assert (Hf : forall v, id (f v) = id v /\ expiresAt (f v) = expiresAt v).
  { intros v. unfold f, decayed.
    destruct (nowStore <? expiresAt v); [|easy].
    destruct (Qgtb (hoursSince now v) 1); easy. }
  assert (Hmap : decayVibeResonance s rate now nowStore
                 = map (fun kv => (fst kv, f (snd kv))) s).
  { apply assoc_ext.
    - rewrite decay_keys by assumption. unfold Map_keys. rewrite map_map.
      reflexivity.
    - rewrite decay_keys by assumption. apply Hwf.
    - intros k. destruct (getVibe s k) as [v|] eqn:E.
      + pose proof (decay_get s rate now nowStore k v Hwf E) as Hd.
        unfold getVibe in Hd, E. rewrite Hd. fold (f v). symmetry. clear -E.
        induction s as [|[k' v'] s IH]; simpl in *; [discriminate|].
        destruct (String.eqb k' k); [now injection E as -> | now apply IH].
      + assert (Hk : ~ In k (Map_keys s)) by now apply Map_get_None_keys.
        transitivity (@None Vibe).
        * apply Map_get_None_keys. now rewrite decay_keys.
        * symmetry. apply Map_get_None_keys. unfold Map_keys.
          rewrite map_map. exact Hk. }
  split; [exact Hmap|].
  intros t. rewrite Hmap. unfold getAllActiveVibes, Map_values.
  rewrite map_map. simpl. clear Hmap Hwf.
  induction s as [|[k v] s IH]; simpl; [reflexivity|].
  destruct (Hf v) as [Hid Hexp]. rewrite Hexp.
  destruct (t <? expiresAt v); simpl; [now rewrite Hid, IH | exact IH].
Qed.

Lemma decayVibeResonance_in_place_witness :
  map id
    (getAllActiveVibes
       (decayVibeResonance storeResonated 1 (30 + 7200000) (30 + 7200000)) 40)
  = ["A"; "B"]%string.
Proof.
  rewrite (proj2 (decayVibeResonance_in_place storeResonated 1 (30 + 7200000)
                    (30 + 7200000) storeResonated_wf) 40).
  reflexivity.
Defined.

(** * Further properties of weaving *)

Lemma getVibesByIds_unresolved s ids :
  List.length (getVibesByIds s ids) <> List.length ids ->
  exists i, In i ids /\ getVibe s i = None.
Proof.
  unfold getVibesByIds, getVibe.
  induction ids as [|i ids IH]; simpl; intros H; [easy|].
  destruct (Map_get s i) as [v|] eqn:E.
  - simpl in H. destruct IH as [j [Hj Hn]]; [lia|]. exists j. split; [now right | exact Hn].
  - exists i. split; [now left | exact E].
Qed.

(** X13. When [weaveVibes] refuses: it returns [null] exactly when it is
    given no id, more than 3 ids, or an id that the store does not hold,
    and then it has changed nothing in the store and drawn no random
    number. *)
Theorem weaveVibes_refusal s ids now uuid rnd :
  (((List.length ids = 0 \/ 3 < List.length ids)%nat
    \/ exists i, In i ids /\ getVibe s i = None) ->
   weaveVibes s ids now uuid rnd = Some (None, s, rnd))
  /\ (forall s' rnd',
        weaveVibes s ids now uuid rnd = Some (None, s', rnd') ->
        s' = s /\ rnd' = rnd
        /\ ((List.length ids = 0 \/ 3 < List.length ids)%nat
            \/ exists i, In i ids /\ getVibe s i = None)).
Proof.
  split.
  - intros [Hcount | [i [Hin Hnone]]].
    + now apply weaveVibes_invalid_count.
    + now apply (weaveVibes_missing_parent s ids now uuid rnd i).
  - intros s' rnd'. unfold weaveVibes.
    destruct ((List.length ids =? 0)%nat || (3 <? List.length ids)%nat) eqn:Ec.
    + intros H. apply ret_Some in H. injection H as <- <-.
      split; [reflexivity|]. split; [reflexivity|]. left.
      apply orb_true_iff in Ec. destruct Ec as [E | E];
        [left; now apply Nat.eqb_eq | right; now apply Nat.ltb_lt].
    + destruct (List.length (getVibesByIds s ids) =? List.length ids)%nat eqn:Er;
        simpl.
      * intros H. run_inv H. discriminate.
      * intros H. apply ret_Some in H. injection H as <- <-.
        split; [reflexivity|]. split; [reflexivity|]. right.
        apply getVibesByIds_unresolved. now apply Nat.eqb_neq.
Qed.

(** X14. What a successful [weaveVibes] does to the store: the new Vibe is
    filed under the new id, no other id changes (the parents stay as they
    were unless the new id is theirs), the invariant of the store is kept,
    a fresh id is appended as the last key; the new Vibe is created and
    last resonated at the time of the call and is among the active Vibes
    at once. *)
Theorem weaveVibes_store_effect s ids now uuid rnd v s' rnd' :
  weaveVibes s ids now uuid rnd = Some (Some v, s', rnd') ->
  getVibe s' uuid = Some v
  /\ (forall j, j <> uuid -> getVibe s' j = getVibe s j)
  /\ (storeWf s -> storeWf s')
  /\ (getVibe s uuid = None -> Map_keys s' = Map_keys s ++ [uuid])
  /\ createdAt v = now /\ lastResonatedAt (_internal v) = now
  /\ In v (getAllActiveVibes s' now).
Proof.
  intros Hrun. apply weaveVibes_success in Hrun. simpl in Hrun.
  destruct Hrun as (_ & _ & -> & Hid & Hcreated & Hexp & Hint & _).
  assert (Hget : getVibe (saveVibe s v) uuid = Some v).
  { unfold getVibe, saveVibe. rewrite Hid. apply Map_get_set_same. }
  split; [exact Hget|]. split; [|split; [|split; [|split; [|split]]]].
  - intros j Hj. unfold getVibe, saveVibe. rewrite Hid.
    apply Map_get_set_other. congruence.
  - intros Hwf. now apply storeWf_save.
  - intros Hnone. unfold saveVibe. rewrite Hid.
    apply Map_keys_set_fresh. now apply Map_get_None_keys.
  - exact Hcreated.
  - now rewrite Hint.
  - unfold getAllActiveVibes. apply filter_In.
    split; [now apply (getVibe_value _ uuid)|].
    apply Z.ltb_lt. rewrite Hexp. unfold VIBE_LIFESPAN_MS. lia.
Qed.

Lemma weaveVibes_store_effect_witness :
  exists v s' rnd',
    weaveVibes storeAB ["A"; "B"]%string 20 "W"
      [0; 0; 1 # 2; 1 # 3; 1 # 2; 3 # 4; 1 # 2; 0]%Q = Some (Some v, s', rnd')
    /\ getVibe s' "W" = Some v
    /\ Map_keys s' = ["A"; "B"; "W"]%string.
Proof.
  destruct (weaveVibes storeAB ["A"; "B"]%string 20 "W"
              [0; 0; 1 # 2; 1 # 3; 1 # 2; 3 # 4; 1 # 2; 0]%Q)
    as [[[[v|] s'] rnd']|] eqn:E.
  - exists v, s', rnd'. split; [reflexivity|].
    destruct (weaveVibes_store_effect _ _ _ _ _ _ _ _ E)
      as (Hget & _ & _ & Hkeys & _).
    split; [exact Hget|]. now rewrite Hkeys.
  - vm_compute in E. discriminate.
  - vm_compute in E. discriminate.
Defined.

Lemma pickRandom_In (A : Type) (arr : list A) rnd a rnd' :
  pickRandom arr rnd = Some (a, rnd') -> In a arr.
Proof.
  unfold pickRandom. intros H. run_inv H. apply index_Some in H.
  destruct H as [_ H]. now apply nth_error_In in H.
Qed.

Ltac pick_inv :=
  repeat match goal with
         | H : pickRandom _ _ = Some _ |- _ => apply pickRandom_In in H
         end.

Lemma clampPercent_range x :
  (0 <= clampPercent x)%Q /\ (clampPercent x <= 100)%Q
  /\ exists z, clampPercent x = inject_Z z.
Proof.
  unfold clampPercent. split; [|split].
  - unfold Qle, inject_Z. simpl. lia.
  - unfold Qle, inject_Z. simpl. lia.
  - eexists. reflexivity.
Qed.

Lemma filterBoolean_nil (A : Type) (l : list (option A)) :
  filterBoolean l = [] <-> forall x, In x l -> x = None.
Proof.
  induction l as [|[a|] l IH]; simpl.
  - split; [intros _ x [] | reflexivity].
  - split; [discriminate|]. intros H. specialize (H (Some a) (or_introl eq_refl)).
    discriminate.
  - rewrite IH. split; intros H x; [intros [<- | Hx]; auto | intros Hx; apply H; now right].
Qed.

(** X15. The channel rules of a successful weave.  The animation type and
    the loop URL of the new Vibe are those of some parent; its visual
    intensity and its volume are the parents' averages rounded and clamped,
    whole numbers from 0 to 100; its pitch shift is the average of the
    parents' pitch shifts, a missing one counting as 0.  It has a haptic
    channel exactly when some parent has one, with the pattern of such a
    parent and an intensity from 0 to 100; it has a text exactly when some
    parent has one, and then its content, font style and colour are each
    taken from a parent that has a text. *)
Theorem weaveVibes_channels s ids now uuid rnd v s' rnd' :
  weaveVibes s ids now uuid rnd = Some (Some v, s', rnd') ->
  let parents := getVibesByIds s ids in
  let haptics := filterBoolean (map haptic parents) in
  let texts := filterBoolean (map text parents) in
  In (Visual.animationType (visual v))
    (map (fun p => Visual.animationType (visual p)) parents)
  /\ Visual.intensity (visual v)
     = clampPercent (averageOf Visual.intensity (map visual parents))
  /\ (0 <= Visual.intensity (visual v) <= 100)%Q
  /\ In (Audio.loopUrl (audio v))
       (map (fun p => Audio.loopUrl (audio p)) parents)
  /\ Audio.volume (audio v)
     = clampPercent (averageOf Audio.volume (map audio parents))
  /\ (0 <= Audio.volume (audio v) <= 100)%Q
  /\ Audio.pitchShift (audio v)
     = Some (averageOf pitchShiftOrZero (map audio parents))
  /\ (haptic v = None <-> forall p, In p parents -> haptic p = None)
  /\ (forall h, haptic v = Some h ->
        In (Haptic.pattern h) (map Haptic.pattern haptics)
        /\ Haptic.intensity h = clampPercent (averageOf Haptic.intensity haptics)
        /\ (0 <= Haptic.intensity h <= 100)%Q)
  /\ (text v = None <-> forall p, In p parents -> text p = None)
  /\ (forall t, text v = Some t ->
        In (Text.content t) (map Text.content texts)
        /\ In (Text.fontStyle t) (map Text.fontStyle texts)
        /\ In (Text.color t) (map Text.color texts)).
Proof.
  unfold weaveVibes.
  destruct ((List.length ids =? 0)%nat || (3 <? List.length ids)%nat).
  { intros H. apply ret_Some in H. discriminate. }
  destruct (negb (List.length (getVibesByIds s ids) =? List.length ids)%nat).
  { intros H. apply ret_Some in H. discriminate. }
  intros H. cbv zeta.
  set (parents := getVibesByIds s ids) in *.
  set (haptics := filterBoolean (map haptic parents)) in *.
  set (texts := filterBoolean (map text parents)) in *.
  run_inv H.
  injection H as Hv _ _. subst v. cbn [visual audio haptic text].
  (* visual *)
  unfold blendVisuals in Hrun. run_inv Hrun. injection Hrun as Ha _. subst a.
  pick_inv. cbn [Visual.animationType Visual.intensity].
  (* audio *)
  unfold blendAudios in Hrun0. run_inv Hrun0. injection Hrun0 as Ha0 _. subst a0.
  pick_inv. rewrite !map_map in *.
  cbn [Audio.loopUrl Audio.volume Audio.pitchShift].
  assert (Hnone : forall (B : Type) (f : Vibe -> option B),
            filterBoolean (map f parents) = [] <->
            forall p, In p parents -> f p = None).
  { intros B f. rewrite filterBoolean_nil. split.
    - intros H p Hp. apply H. now apply in_map.
    - intros H x Hx. apply in_map_iff in Hx. destruct Hx as [p [<- Hp]]. now apply H. }
  split; [assumption|]. split; [reflexivity|].
  split; [split; apply clampPercent_range|].
  split; [assumption|]. split; [reflexivity|].
  split; [split; apply clampPercent_range|].
  split; [reflexivity|].
  (* haptic *)
  assert (Hhap : (a1 = None <-> haptics = [])
                 /\ forall h, a1 = Some h ->
                      In (Haptic.pattern h) (map Haptic.pattern haptics)
                      /\ Haptic.intensity h
                         = clampPercent (averageOf Haptic.intensity haptics)
                      /\ (0 <= Haptic.intensity h <= 100)%Q).
  { unfold blendHaptics in Hrun1. destruct haptics as [|h0 hs].
    - apply ret_Some in Hrun1. injection Hrun1 as Ha1 _. subst a1.
      split; [easy | discriminate].
    - run_inv Hrun1. injection Hrun1 as Ha1 _. subst a1. pick_inv.
      split; [split; discriminate|].
      intros h [= <-]. cbn [Haptic.pattern Haptic.intensity].
      split; [assumption|]. split; [reflexivity | split; apply clampPercent_range]. }
  (* text *)
  assert (Htxt : (a2 = None <-> texts = [])
                 /\ forall t, a2 = Some t ->
                      In (Text.content t) (map Text.content texts)
                      /\ In (Text.fontStyle t) (map Text.fontStyle texts)
                      /\ In (Text.color t) (map Text.color texts)).
  { unfold blendTexts in Hrun2. destruct texts as [|t0 ts].
    - apply ret_Some in Hrun2. injection Hrun2 as Ha2 _. subst a2.
      split; [easy | discriminate].
    - run_inv Hrun2. injection Hrun2 as Ha2 _. subst a2. pick_inv.
      split; [split; discriminate|].
      intros t [= <-]. cbn [Text.content Text.fontStyle Text.color].
      repeat split; assumption. }
  destruct Hhap as [Hh1 Hh2], Htxt as [Ht1 Ht2].
  split; [rewrite Hh1; apply Hnone|]. split; [exact Hh2|].
  split; [rewrite Ht1; apply Hnone | exact Ht2].
Qed.

Lemma weaveVibes_channels_witness :
  exists v s' rnd',
    weaveVibes storeAB ["A"; "B"]%string 20 "W"
      [0; 0; 1 # 2; 1 # 3; 1 # 2; 3 # 4; 1 # 2; 0]%Q = Some (Some v, s', rnd')
    /\ (Visual.intensity (visual v) == 73)%Q
    /\ (Audio.volume (audio v) == 75)%Q
    /\ haptic v = None /\ text v = None.
Proof.
  destruct (weaveVibes storeAB ["A"; "B"]%string 20 "W"
              [0; 0; 1 # 2; 1 # 3; 1 # 2; 3 # 4; 1 # 2; 0]%Q)
    as [[[[v|] s'] rnd']|] eqn:E.
  - exists v, s', rnd'. split; [reflexivity|].
    pose proof (weaveVibes_channels _ _ _ _ _ _ _ _ E) as H. cbv zeta in H.
    destruct H as (_ & Hi & _ & _ & Hvol & _ & _ & Hhap & _ & Htxt & _).
    rewrite Hi, Hvol.
    split; [vm_compute; reflexivity|]. split; [vm_compute; reflexivity|].
    split; [apply Hhap | apply Htxt];
      intros p [<- | [<- | []]]; reflexivity.
  - vm_compute in E. discriminate.
  - vm_compute in E. discriminate.
Defined.

Lemma weaveVibes_returns_witness :
  exists v rnd',
    weaveVibes storeAB ["B"; "A"; "B"]%string 20 "W" (alternating true 12)
    = Some (Some v, saveVibe storeAB v, rnd').
Proof.
  refine (weaveVibes_returns storeAB ["B"; "A"; "B"]%string 20 "W" _ _).
  - simpl. lia.
  - reflexivity.
Defined.

(** * Further properties of the colour helpers *)

Ltac digit_cases k H :=
  assert (k = 0 \/ k = 1 \/ k = 2 \/ k = 3 \/ k = 4 \/ k = 5 \/ k = 6 \/ k = 7
          \/ k = 8 \/ k = 9 \/ k = 10 \/ k = 11 \/ k = 12 \/ k = 13 \/ k = 14
          \/ k = 15) as H by lia;
  repeat (destruct H as [H | H]; [subst k|]); [..|subst k].

Lemma of_hex_uint_acc_digit k rest acc :
  0 <= k < 16 ->
  Pos.of_hex_uint_acc (hexDigitUint k rest) acc
  = Pos.of_hex_uint_acc rest (Z.to_pos (16 * Z.pos acc + k)).
Proof. intros Hk. digit_cases k H; reflexivity. Qed.

Lemma string_of_uint_digit k rest :
  0 <= k < 16 ->
  toUpperCase (NilEmpty.string_of_uint (hexDigitUint k rest))
  = String (upperHexChar k) (toUpperCase (NilEmpty.string_of_uint rest)).
Proof. intros Hk. digit_cases k H; reflexivity. Qed.

Lemma upperHexChar_digit k :
  0 <= k < 16 ->
  isHexDigit (upperHexChar k) = true /\ hexDigitValue (upperHexChar k) = k.
Proof. intros Hk. digit_cases k H; split; reflexivity. Qed.

Lemma byte_digits_range x :
  0 <= x <= 255 -> 0 <= x / 16 < 16 /\ 0 <= x mod 16 < 16.
Proof.
  intros Hx. split.
  - split; [apply Z.div_pos; lia | apply Z.div_lt_upper_bound; lia].
  - apply Z.mod_pos_bound. lia.
Qed.

Lemma of_hex_uint_acc_byte x rest acc :
  0 <= x <= 255 ->
  Pos.of_hex_uint_acc (byteDigits x rest) acc
  = Pos.of_hex_uint_acc rest (Z.to_pos (256 * Z.pos acc + x)).
Proof.
  intros Hx. destruct (byte_digits_range x Hx) as [H1 H2].
  unfold byteDigits. rewrite !of_hex_uint_acc_digit by assumption.
  f_equal. f_equal. rewrite Z2Pos.id by lia.
  pose proof (Z.div_mod x 16 ltac:(lia)). lia.
Qed.

Lemma rgb_of_hex_uint r g b :
  0 <= r <= 255 -> 0 <= g <= 255 -> 0 <= b <= 255 ->
  N.of_hex_uint
    (Hexadecimal.D1 (byteDigits r (byteDigits g (byteDigits b Hexadecimal.Nil))))
  = Z.to_N (16777216 + r * 65536 + g * 256 + b).
Proof.
  intros Hr Hg Hb. unfold N.of_hex_uint.
  change (Pos.of_hex_uint (Hexadecimal.D1 ?d))
    with (Npos (Pos.of_hex_uint_acc d 1)).
  rewrite !of_hex_uint_acc_byte by assumption.
  cbn [Pos.of_hex_uint_acc].
  rewrite (Z2Pos.id (256 * 1 + r)) by lia.
  rewrite (Z2Pos.id (256 * (256 * 1 + r) + g)) by lia.
  rewrite <- Z2N.inj_pos. rewrite Z2Pos.id by lia. f_equal. lia.
Qed.

Lemma shl32_small x k :
  0 <= k -> 0 <= x -> x * 2 ^ k < 2 ^ 31 -> shl32 x k = x * 2 ^ k.
Proof.
  intros Hk Hx Hlt. unfold shl32, toInt32.
  assert (Hx31 : x < 2 ^ 31).
  { assert (1 <= 2 ^ k) by (apply Z.pow_le_mono_r with (b := 0) (c := k) (a := 2); lia).
    nia. }
  assert (H32 : 2 ^ 32 = 2 ^ 31 + 2 ^ 31) by reflexivity.
  rewrite (Z.mod_small (x + 2 ^ 31)) by lia.
  replace (x + 2 ^ 31 - 2 ^ 31) with x by lia.
  rewrite Z.shiftl_mul_pow2 by assumption.
  rewrite Z.mod_small by nia. lia.
Qed.

(** What [rgbToHex] prints for three bytes. *)
Lemma rgbToHex_bytes r g b :
  0 <= r <= 255 -> 0 <= g <= 255 -> 0 <= b <= 255 ->
  rgbToHex r g b = colourCode r g b.
Proof.
  intros Hr Hg Hb. unfold rgbToHex, colourCode. f_equal.
  assert (H1 : shl32 1 24 = 16777216) by reflexivity.
  assert (Hr' : shl32 r 16 = r * 65536).
  { rewrite shl32_small; [reflexivity | lia | lia |].
    change (2 ^ 16) with 65536. change (2 ^ 31) with 2147483648. lia. }
  assert (Hg' : shl32 g 8 = g * 256).
  { rewrite shl32_small; [reflexivity | lia | lia |].
    change (2 ^ 8) with 256. change (2 ^ 31) with 2147483648. lia. }
  rewrite H1, Hr', Hg'. unfold toString16.
  destruct (16777216 + r * 65536 + g * 256 + b <? 0) eqn:E;
    [apply Z.ltb_lt in E; lia|].
  rewrite Z.abs_eq by lia.
  rewrite <- (rgb_of_hex_uint r g b Hr Hg Hb).
  rewrite HexadecimalN.Unsigned.to_of.
  change (Hexadecimal.unorm (Hexadecimal.D1 ?d)) with (Hexadecimal.D1 d).
  change (NilEmpty.string_of_uint (Hexadecimal.D1 ?d))
    with (String "1" (NilEmpty.string_of_uint d)).
  cbn [slice1]. unfold byteDigits.
  destruct (byte_digits_range r Hr) as [Hr1 Hr2].
  destruct (byte_digits_range g Hg) as [Hg1 Hg2].
  destruct (byte_digits_range b Hb) as [Hb1 Hb2].
  rewrite !string_of_uint_digit by assumption. reflexivity.
Qed.

(** What [hexToRgb] reads in a colour code of three bytes. *)
Lemma hexToRgb_colourCode r g b :
  0 <= r <= 255 -> 0 <= g <= 255 -> 0 <= b <= 255 ->
  hexToRgb (colourCode r g b) = Some (r, g, b).
Proof.
  intros Hr Hg Hb.
  destruct (byte_digits_range r Hr) as [Hr1 Hr2].
  destruct (byte_digits_range g Hg) as [Hg1 Hg2].
  destruct (byte_digits_range b Hb) as [Hb1 Hb2].
  destruct (upperHexChar_digit _ Hr1) as [Ir1 Vr1].
  destruct (upperHexChar_digit _ Hr2) as [Ir2 Vr2].
  destruct (upperHexChar_digit _ Hg1) as [Ig1 Vg1].
  destruct (upperHexChar_digit _ Hg2) as [Ig2 Vg2].
  destruct (upperHexChar_digit _ Hb1) as [Ib1 Vb1].
  destruct (upperHexChar_digit _ Hb2) as [Ib2 Vb2].
  unfold hexToRgb, expandShorthand, colourCode.
  cbn [list_ascii_of_string stripHash].
  cbn [forallb]. rewrite Ir1, Ir2, Ig1, Ig2, Ib1, Ib2. cbn [andb].
  unfold parseHexPair. rewrite Vr1, Vr2, Vg1, Vg2, Vb1, Vb2.
  pose proof (Z.div_mod r 16 ltac:(lia)). pose proof (Z.div_mod g 16 ltac:(lia)).
  pose proof (Z.div_mod b 16 ltac:(lia)).
  repeat f_equal; lia.
Qed.

(** X16. Encoding then decoding a colour: for three components from 0 to
    255, [rgbToHex] gives a code of 7 characters, [#] and six upper-case
    hexadecimal digits, that [hexToRgb] reads back as the same three
    components. *)
Theorem rgbToHex_hexToRgb_roundtrip r g b :
  0 <= r <= 255 -> 0 <= g <= 255 -> 0 <= b <= 255 ->
  hexToRgb (rgbToHex r g b) = Some (r, g, b)
  /\ String.length (rgbToHex r g b) = 7%nat
  /\ toUpperCase (rgbToHex r g b) = rgbToHex r g b.
Proof.
  intros Hr Hg Hb. rewrite (rgbToHex_bytes r g b Hr Hg Hb).
  split; [now apply hexToRgb_colourCode|]. split; [reflexivity|].
  destruct (byte_digits_range r Hr) as [Hr1 Hr2].
  destruct (byte_digits_range g Hg) as [Hg1 Hg2].
  destruct (byte_digits_range b Hb) as [Hb1 Hb2].
  assert (Hup : forall k, 0 <= k < 16 -> upperChar (upperHexChar k) = upperHexChar k).
  { intros k Hk. digit_cases k H; reflexivity. }
  unfold colourCode. cbn [toUpperCase].
  rewrite !Hup by assumption. reflexivity.
Qed.

Lemma rgbToHex_hexToRgb_roundtrip_witness :
  hexToRgb (rgbToHex 174 198 207) = Some (174, 198, 207).
Proof.
  refine (proj1 (rgbToHex_hexToRgb_roundtrip 174 198 207 _ _ _)); lia.
Defined.

Lemma isHexDigit_value c :
  isHexDigit c = true -> 0 <= hexDigitValue c <= 15.
Proof.
  unfold isHexDigit, hexDigitValue.
  generalize (Z.of_nat (nat_of_ascii c)). intros n H.
  repeat match goal with
         | |- context [?a <=? ?b] => destruct (Z.leb_spec a b)
         | H : context [?a <=? ?b] |- _ => destruct (Z.leb_spec a b)
         end; simpl in H; try discriminate; lia.
Qed.

Lemma isHexDigit_stripHash c l :
  isHexDigit c = true -> stripHash (c :: l) = c :: l.
Proof.
  intros H. destruct c as [[] [] [] [] [] [] [] []];
    try reflexivity; discriminate H.
Qed.

(** [hexToRgb] by the characters that follow the optional [#]. *)
Lemma hexToRgb_unfold hex :
  hexToRgb hex =
    match stripHash (list_ascii_of_string hex) with
    | [x; y; z] =>
        if forallb isHexDigit [x; y; z]
        then Some (parseHexPair x x, parseHexPair y y, parseHexPair z z)
        else None
    | [r1; r2; g1; g2; b1; b2] =>
        if forallb isHexDigit [r1; r2; g1; g2; b1; b2]
        then Some (parseHexPair r1 r2, parseHexPair g1 g2, parseHexPair b1 b2)
        else None
    | _ => None
    end.
Proof.
  unfold hexToRgb, expandShorthand.
  destruct (stripHash (list_ascii_of_string hex))
    as [|a [|b [|c [|d [|e [|f [|g rest]]]]]]] eqn:E; try (rewrite E; reflexivity).
  cbn [forallb].
  destruct (isHexDigit a) eqn:Ha; cbn [andb]; [|now rewrite E].
  destruct (isHexDigit b) eqn:Hb; cbn [andb]; [|now rewrite E].
  destruct (isHexDigit c) eqn:Hc; cbn [andb]; [|now rewrite E].
  rewrite list_ascii_of_string_of_list_ascii.
  rewrite isHexDigit_stripHash by assumption.
  cbn [forallb]. now rewrite Ha, Hb, Hc.
Qed.

Lemma parseHexPair_range x y :
  isHexDigit x = true -> isHexDigit y = true -> 0 <= parseHexPair x y <= 255.
Proof.
  intros Hx Hy. unfold parseHexPair.
  pose proof (isHexDigit_value x Hx). pose proof (isHexDigit_value y Hy). lia.
Qed.

Lemma hexToRgb_bytes hex c : hexToRgb hex = Some c -> isByteColour c.
Proof.
  rewrite hexToRgb_unfold.
  destruct (stripHash (list_ascii_of_string hex))
    as [|a [|b [|c0 [|d [|e [|f [|g rest]]]]]]]; try discriminate.
  - destruct (forallb isHexDigit [a; b; c0]) eqn:E; [|discriminate].
    cbn [forallb] in E. repeat (apply andb_true_iff in E; destruct E as [? E]).
    intros [= <-]. unfold isByteColour, red, green, blue. cbn [fst snd].
    repeat split; now apply parseHexPair_range.
  - destruct (forallb isHexDigit [a; b; c0; d; e; f]) eqn:E; [|discriminate].
    cbn [forallb] in E. repeat (apply andb_true_iff in E; destruct E as [? E]).
    intros [= <-]. unfold isByteColour, red, green, blue. cbn [fst snd].
    repeat split; now apply parseHexPair_range.
Qed.

(** X17. Which strings [hexToRgb] accepts: after an optional leading [#],
    exactly 3 or exactly 6 characters, all hexadecimal digits of either
    case; anything else gives [null].  A code of 3 digits reads as the code
    of 6 in which each digit is doubled, and the components read are always
    from 0 to 255. *)
Theorem hexToRgb_accepts hex :
  let cs := stripHash (list_ascii_of_string hex) in
  (hexToRgb hex <> None
   <-> (List.length cs = 3%nat \/ List.length cs = 6%nat)
       /\ forallb isHexDigit cs = true)
  /\ (forall x y z,
        cs = [x; y; z] ->
        hexToRgb hex = hexToRgb (string_of_list_ascii [x; x; y; y; z; z]))
  /\ (forall c, hexToRgb hex = Some c -> isByteColour c).
Proof.
  intros cs. split; [|split; [|apply hexToRgb_bytes]].
  - rewrite hexToRgb_unfold. fold cs.
    destruct cs as [|a [|b [|c [|d [|e [|f [|g rest]]]]]]];
      try (split; [intros H; now elim H
                  | intros [[H | H] _]; simpl in H; lia]).
    + destruct (forallb isHexDigit [a; b; c]) eqn:E.
      * split; [intros _; split; [now left | reflexivity] | discriminate].
      * split; [intros H; now elim H | intros [_ H]; discriminate].
    + destruct (forallb isHexDigit [a; b; c; d; e; f]) eqn:E.
      * split; [intros _; split; [now right | reflexivity] | discriminate].
      * split; [intros H; now elim H | intros [_ H]; discriminate].
  - intros x y z Hcs. rewrite !hexToRgb_unfold. fold cs. rewrite Hcs.
    rewrite list_ascii_of_string_of_list_ascii.
    cbn [forallb].
    destruct (isHexDigit x) eqn:Hx; cbn [andb].
    + rewrite isHexDigit_stripHash by assumption. cbn [forallb].
      rewrite Hx. cbn [andb].
      destruct (isHexDigit y); cbn [andb]; [|reflexivity].
      destruct (isHexDigit z); reflexivity.
    + unfold stripHash.
      destruct x as [[] [] [] [] [] [] [] []]; cbn [forallb];
        try (rewrite Hx; reflexivity);
        destruct (isHexDigit y); cbn [andb]; try reflexivity;
        destruct (isHexDigit z); reflexivity.
Qed.

Lemma Math_round_between lo hi x :
  (inject_Z lo <= x)%Q -> (x <= inject_Z hi)%Q -> lo <= Math_round x <= hi.
Proof.
  intros Hlo Hhi. unfold Math_round. split.
  - rewrite <- (Qfloor_Z lo). apply Qfloor_resp_le. lra.
  - assert (Hf : Qfloor (inject_Z hi + (1 # 2)) = hi).
    { unfold Qfloor, Qplus, inject_Z. cbn [Qnum Qden].
      change (Z.pos (1 * 2)) with 2. symmetry.
      apply (Z.div_unique _ 2 hi 1); lia. }
    apply (Z.le_trans _ (Qfloor (inject_Z hi + (1 # 2)))); [|lia].
    apply Qfloor_resp_le. lra.
Qed.

Lemma mix_between (x y : Z) (f : Q) :
  (0 <= f)%Q -> (f <= 1)%Q ->
  (inject_Z (Z.min x y) <= inject_Z x + f * (inject_Z y - inject_Z x))%Q
  /\ (inject_Z x + f * (inject_Z y - inject_Z x) <= inject_Z (Z.max x y))%Q.
Proof.
  intros H0 H1.
  destruct (Z.le_ge_cases x y) as [Hxy | Hxy].
  - rewrite Z.min_l, Z.max_r by assumption.
    assert (Hd : (0 <= inject_Z y - inject_Z x)%Q)
      by (rewrite Zle_Qle in Hxy; lra).
    assert (Hp : (0 <= f * (inject_Z y - inject_Z x))%Q)
      by now apply Qmult_le_0_compat.
    assert (Hq : (f * (inject_Z y - inject_Z x)
                  <= 1 * (inject_Z y - inject_Z x))%Q)
      by now apply Qmult_le_compat_r.
    split; lra.
  - rewrite Z.min_r, Z.max_l by assumption.
    assert (Hd : (0 <= inject_Z x - inject_Z y)%Q)
      by (rewrite Zle_Qle in Hxy; lra).
    assert (Hp : (0 <= f * (inject_Z x - inject_Z y))%Q)
      by now apply Qmult_le_0_compat.
    assert (Hq : (f * (inject_Z x - inject_Z y)
                  <= 1 * (inject_Z x - inject_Z y))%Q)
      by now apply Qmult_le_compat_r.
    split; lra.
Qed.

Lemma interpolateRgb_channels c1 c2 f :
  (0 <= f)%Q -> (f <= 1)%Q ->
  Z.min (red c1) (red c2) <= red (interpolateRgb c1 c2 f)
    <= Z.max (red c1) (red c2)
  /\ Z.min (green c1) (green c2) <= green (interpolateRgb c1 c2 f)
       <= Z.max (green c1) (green c2)
  /\ Z.min (blue c1) (blue c2) <= blue (interpolateRgb c1 c2 f)
       <= Z.max (blue c1) (blue c2).
Proof.
  intros H0 H1. destruct c1 as [[r1 g1] b1], c2 as [[r2 g2] b2].
  unfold interpolateRgb, red, green, blue. cbn [fst snd].
  split; [|split]; apply Math_round_between; apply mix_between; assumption.
Qed.

(** X18. [interpolateRgb] stays between its two colours: for a factor from
    0 to 1 each component of the result lies between the corresponding
    components of the two colours, so the blend of two colours with byte
    components has byte components; the factor 0 gives the first colour
    and the factor 1 the second. *)
Theorem interpolateRgb_between c1 c2 f :
  (0 <= f)%Q -> (f <= 1)%Q ->
  (Z.min (red c1) (red c2) <= red (interpolateRgb c1 c2 f)
     <= Z.max (red c1) (red c2)
   /\ Z.min (green c1) (green c2) <= green (interpolateRgb c1 c2 f)
        <= Z.max (green c1) (green c2)
   /\ Z.min (blue c1) (blue c2) <= blue (interpolateRgb c1 c2 f)
        <= Z.max (blue c1) (blue c2))
  /\ (isByteColour c1 -> isByteColour c2 ->
      isByteColour (interpolateRgb c1 c2 f))
  /\ ((f == 0)%Q -> interpolateRgb c1 c2 f = c1)
  /\ ((f == 1)%Q -> interpolateRgb c1 c2 f = c2).
Proof.
  intros H0 H1.
  pose proof (interpolateRgb_channels c1 c2 f H0 H1) as Hch.
  split; [exact Hch|]. split; [|split].
  - intros (Hr1 & Hg1 & Hb1) (Hr2 & Hg2 & Hb2).
    destruct Hch as (Hr & Hg & Hb). unfold isByteColour. lia.
  - intros Hf. destruct c1 as [[r1 g1] b1], c2 as [[r2 g2] b2].
    unfold interpolateRgb.
    assert (Hx : forall x y : Z,
              Math_round (inject_Z x + f * (inject_Z y - inject_Z x)) = x).
    { intros x y.
      assert (x <= Math_round (inject_Z x + f * (inject_Z y - inject_Z x)) <= x);
        [|lia].
      apply Math_round_between; rewrite Hf; lra. }
    now rewrite !Hx.
  - intros Hf. destruct c1 as [[r1 g1] b1], c2 as [[r2 g2] b2].
    unfold interpolateRgb.
    assert (Hy : forall x y : Z,
              Math_round (inject_Z x + f * (inject_Z y - inject_Z x)) = y).
    { intros x y.
      assert (y <= Math_round (inject_Z x + f * (inject_Z y - inject_Z x)) <= y);
        [|lia].
      apply Math_round_between; rewrite Hf; lra. }
    now rewrite !Hy.
Qed.

Lemma interpolateRgb_between_witness :
  interpolateRgb (174, 198, 207) (255, 99, 71) 0 = (174, 198, 207)
  /\ isByteColour (interpolateRgb (174, 198, 207) (255, 99, 71) (1 # 3)).
Proof.
  split.
  - refine (proj1 (proj2 (proj2 (interpolateRgb_between (174, 198, 207)
                                   (255, 99, 71) 0 _ _))) _);
      [vm_compute; discriminate | vm_compute; discriminate | reflexivity].
  - refine (proj1 (proj2 (interpolateRgb_between (174, 198, 207) (255, 99, 71)
                            (1 # 3) _ _)) _ _);
      try (vm_compute; discriminate);
      unfold isByteColour, red, green, blue; cbn [fst snd]; lia.
Defined.

Lemma channel_sum_between (channel : RGB -> Z) lo hi (l : list RGB) :
  (forall c, In c l -> lo <= channel c <= hi) ->
  forall acc,
    acc + lo * Z.of_nat (List.length l)
    <= fold_left (fun sum c => sum + channel c) l acc
    <= acc + hi * Z.of_nat (List.length l).
Proof.
  induction l as [|c l IH]; intros Hl acc.
  - simpl. lia.
  - cbn [fold_left]. specialize (IH (fun c' H => Hl c' (or_intror H)) (acc + channel c)).
    specialize (Hl c (or_introl eq_refl)).
    cbn [List.length]. rewrite Nat2Z.inj_succ. lia.
Qed.

Lemma averageChannel_between (channel : RGB -> Z) lo hi (l : list RGB) :
  l <> [] ->
  (forall c, In c l -> lo <= channel c <= hi) ->
  lo <= averageChannel channel l <= hi.
Proof.
  intros Hne Hl. unfold averageChannel.
  pose proof (channel_sum_between channel lo hi l Hl 0) as Hsum.
  set (total := fold_left (fun sum c => sum + channel c) l 0) in *.
  assert (Hn : 0 < Z.of_nat (List.length l))
    by (destruct l; [easy | simpl; lia]).
  set (n := Z.of_nat (List.length l)) in *.
  assert (Hn' : (0 < inject_Z n)%Q) by (rewrite Zlt_Qlt in Hn; exact Hn).
  apply Math_round_between.
  - apply Qle_shift_div_l; [exact Hn'|].
    rewrite <- inject_Z_mult. rewrite <- Zle_Qle. lia.
  - apply Qle_shift_div_r; [exact Hn'|].
    rewrite <- inject_Z_mult. rewrite <- Zle_Qle. lia.
Qed.

Lemma Set_fold_incl x l : forall acc,
  In x (fold_left Set_add l acc) -> In x acc \/ In x l.
Proof.
  induction l as [|y l IH]; simpl; intros acc H; [now left|].
  apply IH in H. destruct H as [H | H]; [|right; now right].
  unfold Set_add in H. destruct (existsb (String.eqb y) acc); [now left|].
  apply in_app_or in H. destruct H as [H | [<- | []]]; [now left | right; now left].
Qed.

Lemma Set_from_incl x l : In x (Set_from l) -> In x l.
Proof.
  intros H. apply Set_fold_incl in H. now destruct H.
Qed.

Lemma parsed_pool_bytes hexColors c :
  In c (filterBoolean (map hexToRgb hexColors)) -> isByteColour c.
Proof.
  rewrite filterBoolean_In, in_map_iff. intros [hex [H _]].
  now apply (hexToRgb_bytes hex).
Qed.

(** X19. A blended palette is made of colour codes: when the pool has two
    colours or more, every entry of the palette that [blendHexPalettes]
    returns is a code of 7 characters that [hexToRgb] reads as a colour
    with components from 0 to 255, whatever the pool held and whatever
    the draws. *)
Theorem blendHexPalettes_well_formed hexColors numColors rnd p rnd' :
  blendHexPalettes hexColors numColors rnd = Some (p, rnd') ->
  (2 <= List.length hexColors)%nat ->
  Forall (fun e => String.length e = 7%nat
                   /\ exists c, hexToRgb e = Some c /\ isByteColour c) p.
Proof.
  intros Hrun Hlen. apply blendHexPalettes_cases in Hrun.
  destruct Hrun as [[Hp _] | [[c [Hp _]] | [(_ & _ & ->) | (_ & Hrgb & more & _ & Hall & ->)]]].
  - rewrite Hp in Hlen. simpl in Hlen. lia.
  - rewrite Hp in Hlen. simpl in Hlen. lia.
  - constructor.
  - set (rgbColors := filterBoolean (map hexToRgb hexColors)) in *.
    assert (Hbytes : forall c, In c rgbColors -> isByteColour c)
      by apply parsed_pool_bytes.
    assert (Hcode : forall c, isByteColour c ->
              String.length (rgbToHex (red c) (green c) (blue c)) = 7%nat
              /\ exists c', hexToRgb (rgbToHex (red c) (green c) (blue c)) = Some c'
                            /\ isByteColour c').
    { intros c (Hr & Hg & Hb). rewrite (rgbToHex_bytes _ _ _ Hr Hg Hb).
      split; [reflexivity|]. exists (red c, green c, blue c).
      split; [now apply hexToRgb_colourCode | now repeat split]. }
    rewrite Forall_forall. intros e He.
    apply In_firstn, Set_from_incl in He. destruct He as [<- | He].
    + apply (Hcode (averageChannel red rgbColors,
                    averageChannel green rgbColors,
                    averageChannel blue rgbColors)).
      unfold isByteColour, red at 1, green at 1, blue at 1. cbn [fst snd].
      split; [|split]; apply averageChannel_between; try assumption;
        intros c Hc; apply (Hbytes c Hc).
    + rewrite Forall_forall in Hall. specialize (Hall e He).
      destruct Hall as (i & j & c1 & c2 & f & Hc1 & Hc2 & _ & Hf0 & Hf1 & ->).
      apply Hcode.
      assert (Hle : (f <= 1)%Q) by lra.
      destruct (interpolateRgb_channels c1 c2 f Hf0 Hle) as (Hr & Hg & Hb).
      apply nth_error_In in Hc1, Hc2.
      destruct (Hbytes c1 Hc1) as (? & ? & ?), (Hbytes c2 Hc2) as (? & ? & ?).
      unfold isByteColour. lia.
Qed.

Lemma blendHexPalettes_well_formed_witness :
  Forall (fun e => String.length e = 7%nat
                   /\ exists c, hexToRgb e = Some c /\ isByteColour c)
    ["#555555"; "#000000"]%string.
Proof.
  refine (blendHexPalettes_well_formed
            ["#000"; "000000"; "#FFFFFF"]%string 3
            [0; 1 # 2; 0; 0; 1 # 2; 0]%Q _ [] _ _).
  - vm_compute. reflexivity.
  - simpl. lia.
Defined.

(** * Further properties of the request handlers *)

(** X20. The answers of [handleGetVibe]: 400 exactly when the id is
    missing or empty, 200 exactly when the id is stored and its Vibe has
    not expired at the time of the call, the body then being that Vibe,
    and 404 in every other case; the store is only read. *)
Theorem handleGetVibe_answers s vibeId now :
  let r := handleGetVibe s vibeId now in
  (_status r = 400 <-> vibeId = None \/ vibeId = Some ""%string)
  /\ (_status r = 200 <->
      exists i v, vibeId = Some i /\ i <> ""%string
                  /\ getVibe s i = Some v /\ now < expiresAt v)
  /\ (forall v, _json r = JVibe v <->
                _status r = 200
                /\ exists i, vibeId = Some i /\ getVibe s i = Some v)
  /\ (_status r = 400 \/ _status r = 404 \/ _status r = 200).
Proof.
  unfold handleGetVibe. cbv zeta.
  destruct vibeId as [i|];
    [destruct (String.eqb i "") eqn:Ei;
     [apply String.eqb_eq in Ei
     |apply String.eqb_neq in Ei;
      destruct (getVibe s i) as [v|] eqn:Eg;
      [destruct (expiresAt v <=? now) eqn:Ee;
       [apply Z.leb_le in Ee | apply Z.leb_gt in Ee]|]]|];
    cbn [_status _json];
    (split; [|split; [|split]]);
    try (intros w); try split; intros;
    repeat match goal with
           | H : exists _, _ |- _ => destruct H
           | H : _ /\ _ |- _ => destruct H
           | H : _ \/ _ |- _ => destruct H
           | H : Some _ = Some _ |- _ => injection H as H; subst
           end;
    subst; try discriminate; try congruence; try lia; auto.
  all: try (eexists; eexists; repeat split; eauto; fail).
  all: try (split; [reflexivity | eexists; split; eauto]; fail).
  all: try (assert (x0 = v) by congruence; subst; lia).
  injection H as <-. split; [reflexivity | now exists i].
Qed.

(** X21. The answers of [handleResonateVibe]: 400 for a missing or empty
    id and 404 for an id that the store does not hold, both without any
    change of the store; otherwise 200, whether the Vibe has expired or
    not, with the id of the Vibe and its score after the resonance, one
    more than before, and the store that [resonateWithVibe] leaves. *)
Theorem handleResonateVibe_answers s vibeId now :
  let r := fst (handleResonateVibe s vibeId now) in
  let s' := snd (handleResonateVibe s vibeId now) in
  ((vibeId = None \/ vibeId = Some ""%string) -> _status r = 400 /\ s' = s)
  /\ (forall i, vibeId = Some i -> i <> ""%string -> getVibe s i = None ->
        r = mkResponse 404 (JMessage (notFoundOrExpired i)) /\ s' = s)
  /\ (forall i v, vibeId = Some i -> i <> ""%string -> getVibe s i = Some v ->
        r = mkResponse 200
              (JResonance "Resonance recorded." (id v)
                 (resonanceScore (_internal v) + 1)%Q)
        /\ s' = snd (resonateWithVibe s i now))
  /\ (_status r = 400 \/ _status r = 404 \/ _status r = 200).
Proof.
  unfold handleResonateVibe. cbv zeta.
  destruct vibeId as [i|].
  2:{ cbn [fst snd _status]. split; [now intros _|].
      split; [discriminate|]. split; [discriminate | now left]. }
  destruct (String.eqb i "") eqn:Ei.
  - apply String.eqb_eq in Ei. subst i. cbn [fst snd _status].
    split; [now intros _|].
    split; [intros j [= <-] Hj; now elim Hj|].
    split; [intros j v [= <-] Hj; now elim Hj | now left].
  - apply String.eqb_neq in Ei.
    split; [intros [H | [= H]]; [discriminate | now subst]|].
    destruct (getVibe s i) as [v|] eqn:Eg.
    + rewrite (resonateWithVibe_found s i v now Eg). cbn [fst snd _status].
      split; [intros j [= <-] _ H; congruence|].
      split; [|right; now right].
      intros j w [= <-] _ Hw. assert (w = v) by congruence. subst w.
      rewrite (resonateWithVibe_found s i v now Eg). split; reflexivity.
    + rewrite (resonateWithVibe_missing s i now Eg). cbn [fst snd _status].
      split; [intros j [= <-] _ _; split; reflexivity|].
      split; [intros j w [= <-] _ Hw; congruence | right; now left].
Qed.

Lemma weave_count_ok (n : nat) :
  (n =? 0)%nat || (3 <? n)%nat = false <-> (1 <= n <= 3)%nat.
Proof.
  rewrite orb_false_iff, Nat.eqb_neq, Nat.ltb_ge. lia.
Qed.

(** X22. The answers of [handleWeaveVibes], for a run that returns.  A body
    that is not an array, that has no item or more than 3, or that has an
    item that is not a string is answered 400; a well-formed list of ids
    one of which the store does not hold is answered 404; in both cases the
    store is unchanged and no random number is drawn.  Every other request
    is answered 201 with the new Vibe, which the store then holds under
    the new id. *)
Theorem handleWeaveVibes_answers s body now uuid rnd r s' rnd' :
  handleWeaveVibes s body now uuid rnd = Some (r, s', rnd') ->
  let malformed :=
    match body with
    | NotAnArray => true
    | ArrayOf items =>
        (List.length items =? 0)%nat || (3 <? List.length items)%nat
        || existsb (@isNone string) items
    end in
  let ids := match body with
             | NotAnArray => []
             | ArrayOf items => filterBoolean items
             end in
  (malformed = true -> _status r = 400 /\ s' = s /\ rnd' = rnd)
  /\ (malformed = false ->
      (exists i, In i ids /\ getVibe s i = None) ->
      _status r = 404 /\ s' = s /\ rnd' = rnd)
  /\ (malformed = false ->
      (forall i, In i ids -> getVibe s i <> None) ->
      exists v,
        r = mkResponse 201 (JWoven "Vibes woven successfully" uuid v)
        /\ id v = uuid /\ s' = saveVibe s v /\ getVibe s' uuid = Some v)
  /\ (_status r = 400 \/ _status r = 404 \/ _status r = 201).
Proof.
  unfold handleWeaveVibes. destruct body as [|items]; cbv zeta.
  { intros H. apply ret_Some in H. injection H as -> -> ->.
    cbn [_status]. split; [now intros _|].
    split; [discriminate|]. split; [discriminate | now left]. }
  destruct ((List.length items =? 0)%nat || (3 <? List.length items)%nat) eqn:Ec;
    cbn [orb].
  { intros H. apply ret_Some in H. injection H as -> -> ->.
    cbn [_status]. split; [now intros _|].
    split; [discriminate|]. split; [discriminate | now left]. }
  destruct (existsb (@isNone string) items) eqn:En.
  { intros H. apply ret_Some in H. injection H as -> -> ->.
    cbn [_status]. split; [now intros _|].
    split; [discriminate|]. split; [discriminate | now left]. }
  assert (Hlen : List.length (filterBoolean items) = List.length items).
  { clear -En. induction items as [|[x|] items IH]; simpl in *;
      [reflexivity | f_equal; now apply IH | discriminate]. }
  intros H. run_inv H. destruct a as [[v|] s1].
  - apply ret_Some in H. injection H as -> -> ->.
    pose proof (weaveVibes_success _ _ _ _ _ _ _ _ Hrun) as Hs. cbv zeta in Hs.
    destruct Hs as (_ & Hres & -> & Hid & _).
    cbn [_status]. split; [discriminate|]. split.
    + intros _ [i [Hin Hnone]]. exfalso.
      pose proof (getVibesByIds_missing s _ i Hin Hnone). lia.
    + split; [|right; now right]. intros _ _. exists v. rewrite Hid.
      repeat split. unfold getVibe, saveVibe. rewrite Hid.
      apply Map_get_set_same.
  - apply ret_Some in H. injection H as -> -> ->.
    pose proof Hrun as Hrun'. apply weaveVibes_failure_store in Hrun'. subst s1.
    assert (Hmiss : exists i, In i (filterBoolean items) /\ getVibe s i = None).
    { apply getVibesByIds_unresolved. intros Heq.
      apply weave_count_ok in Ec. rewrite <- Hlen in Ec.
      revert Hrun. unfold weaveVibes.
      rewrite (proj2 (weave_count_ok (List.length (filterBoolean items))) Ec).
      rewrite Heq, Nat.eqb_refl. cbn [negb].
      intros H. run_inv H. discriminate. }
    destruct Hmiss as [i [Hin Hnone]].
    assert (Hrnd : rnd0 = rnd).
    { rewrite (weaveVibes_missing_parent s _ now uuid rnd i Hin Hnone) in Hrun.
      now injection Hrun. }
    subst rnd0. cbn [_status]. split; [discriminate|].
    split; [now intros _ _|]. split; [|right; now left].
    intros _ Hall. exfalso. now apply (Hall i Hin).
Qed.

Lemma handleWeaveVibes_answers_witness :
  exists r s' rnd',
    handleWeaveVibes storeAB (ArrayOf [Some "A"; Some "ghost"]%string) 20 "W"
      [0; 0]%Q = Some (r, s', rnd')
    /\ _status r = 404 /\ s' = storeAB /\ rnd' = [0; 0]%Q.
Proof.
  destruct (handleWeaveVibes storeAB (ArrayOf [Some "A"; Some "ghost"]%string)
              20 "W" [0; 0]%Q) as [[[r s'] rnd']|] eqn:E.
  - exists r, s', rnd'. split; [reflexivity|].
    refine (proj1 (proj2 (handleWeaveVibes_answers _ _ _ _ _ _ _ _ E)) _ _).
    + reflexivity.
    + exists "ghost"%string. split; [right; now left | reflexivity].
  - vm_compute in E. discriminate.
Defined.

(** * Further properties of the streams *)

Lemma In_slice0 (A : Type) (l : list A) e x : In x (slice0 l e) -> In x l.
Proof. unfold slice0. apply In_firstn. Qed.

Lemma slice0_length_le (A : Type) (l : list A) e :
  0 <= e -> Z.of_nat (List.length (slice0 l e)) <= e.
Proof. intros He. rewrite slice0_length by assumption. lia. Qed.

Lemma Set_from_length l : (List.length (Set_from l) <= List.length l)%nat.
Proof.
  apply NoDup_incl_length; [apply Set_from_NoDup|].
  intros x. apply Set_from_incl.
Qed.

Lemma getStreamVibes_ids_active shuffle s streamType associatedId limit now :
  (forall l, Permutation (shuffle l) l) ->
  forall i,
    In i (getStreamVibes shuffle s streamType associatedId limit now) ->
    In i (map id (getAllActiveVibes s now)).
Proof.
  intros Hshuffle i. unfold getStreamVibes.
  set (sorted := Array_sort byResonanceDesc (getAllActiveVibes s now)).
  assert (Hsorted : forall v, In v sorted -> In v (getAllActiveVibes s now)).
  { intros v. apply Permutation_in, Array_sort_perm. }
  destruct streamType.
  - intros Hi. apply Set_from_incl in Hi. apply in_map_iff in Hi.
    destruct Hi as [v [<- Hv]]. apply in_map, Hsorted.
    apply in_app_or in Hv. destruct Hv as [Hv | Hv].
    + now apply In_slice0 in Hv.
    + apply In_slice0 in Hv. apply (Permutation_in _ (Hshuffle _)) in Hv.
      apply filter_In in Hv. tauto.
  - intros Hi. apply in_map_iff in Hi. destruct Hi as [v [<- Hv]].
    apply in_map, Hsorted. now apply In_slice0 in Hv.
Qed.

Lemma getVibesByIds_all s ids :
  storeWf s -> (forall i, In i ids -> getVibe s i <> None) ->
  map id (getVibesByIds s ids) = ids.
Proof.
  intros Hwf Hall. apply getVibesByIds_resolved; [exact Hwf|].
  destruct (Nat.eq_dec (List.length (getVibesByIds s ids)) (List.length ids))
    as [E | E]; [exact E|].
  apply getVibesByIds_unresolved in E. destruct E as [i [Hin Hnone]].
  now elim (Hall i Hin).
Qed.

Lemma getStreamVibes_stored_active shuffle s streamType associatedId limit
  now :
  (forall l, Permutation (shuffle l) l) -> storeWf s ->
  forall i,
    In i (getStreamVibes shuffle s streamType associatedId limit now) ->
    exists v, getVibe s i = Some v /\ now < expiresAt v.
Proof.
  intros Hshuffle Hwf i Hi.
  apply (getStreamVibes_ids_active shuffle s streamType associatedId limit
           now Hshuffle) in Hi.
  apply in_map_iff in Hi. destruct Hi as [v [<- Hv]].
  exists v. destruct (active_in_store s now v Hwf Hv) as (H1 & H2 & _).
  now split.
Qed.

(** X23. Whatever the limit, negative ones included, a stream names only
    what is there: on a store that files every Vibe under its own id, each
    id of the personal and of the collective stream is the id of a stored
    Vibe with [now < expiresAt], no id comes twice, [getVibesByIds]
    resolves the stream to as many Vibes in the same order, and the limit
    0 gives the empty stream. *)
Theorem getStreamVibes_resolves shuffle s streamType associatedId limit now :
  (forall l, Permutation (shuffle l) l) -> storeWf s ->
  let stream := getStreamVibes shuffle s streamType associatedId limit now in
  NoDup stream
  /\ (forall i, In i stream ->
        exists v, getVibe s i = Some v /\ now < expiresAt v)
  /\ map id (getVibesByIds s stream) = stream
  /\ (limit = 0 -> stream = []).
Proof.
  intros Hshuffle Hwf stream.
  assert (Hact : forall i, In i stream ->
            exists v, getVibe s i = Some v /\ now < expiresAt v).
  { exact (getStreamVibes_stored_active shuffle s streamType associatedId
             limit now Hshuffle Hwf). }
  split; [|split; [exact Hact|split]].
  - unfold stream, getStreamVibes. destruct streamType.
    + apply Set_from_NoDup.
    + unfold slice0. rewrite <- firstn_map. apply NoDup_firstn.
      apply (Permutation_NoDup (l := map id (getAllActiveVibes s now))).
      * apply Permutation_map. symmetry. apply Array_sort_perm.
      * now apply active_ids_NoDup.
  - apply getVibesByIds_all; [exact Hwf|].
    intros i Hi. destruct (Hact i Hi) as [v [Hv _]]. congruence.
  - intros ->. unfold stream, getStreamVibes. destruct streamType.
    + change (popularCount 0) with 0.
      rewrite (slice0_nonneg _ _ 0) by lia. cbn [Z.to_nat firstn List.length].
      rewrite slice0_nonneg by (simpl; lia). reflexivity.
    + rewrite slice0_nonneg by lia. reflexivity.
Qed.

Lemma getStreamVibes_resolves_witness :
  NoDup (getStreamVibes (fun l => rev l) storeAB personal "user-123" (-1) 20)
  /\ map id
       (getVibesByIds storeAB
          (getStreamVibes (fun l => rev l) storeAB collective "trends" 5 20))
     = ["A"; "B"]%string.
Proof.
  split.
  - refine (proj1 (getStreamVibes_resolves (fun l => rev l) storeAB personal
                     "user-123" (-1) 20 _ storeAB_wf)).
    intros l. symmetry. apply Permutation_rev.
  - rewrite (proj1 (proj2 (proj2
               (getStreamVibes_resolves (fun l => rev l) storeAB collective
                  "trends" 5 20
                  (fun l => Permutation_sym (Permutation_rev l)) storeAB_wf)))).
    reflexivity.
Defined.

Lemma getStreamVibes_length_le shuffle s streamType associatedId limit now :
  0 <= popularCount limit <= limit ->
  Z.of_nat
    (List.length (getStreamVibes shuffle s streamType associatedId limit now))
  <= limit.
Proof.
  intros Hpc. unfold getStreamVibes. destruct streamType.
  - set (sorted := Array_sort byResonanceDesc (getAllActiveVibes s now)).
    set (popular := slice0 sorted (popularCount limit)).
    pose proof (slice0_length_le _ sorted (popularCount limit) ltac:(lia)) as Hp.
    fold popular in Hp.
    set (rest := shuffle (filter (fun v => negb (includes popular v)) sorted)).
    pose proof (slice0_length_le _ rest
                  (limit - Z.of_nat (List.length popular)) ltac:(lia)) as Hr.
    pose proof (Set_from_length
                  (map id (popular
                           ++ slice0 rest (limit - Z.of_nat (List.length popular)))))
      as Hs.
    rewrite length_map, length_app in Hs. lia.
  - rewrite length_map. apply slice0_length_le. lia.
Qed.

(** X24. The answers of [handleGetStreamVibes], on a store that files every
    Vibe under its own id: 200 exactly when the stream type is one of the
    two, the associated id is given and not empty, and the limit is a number
    from 1 to 100, and 400 otherwise.  The Vibes of a 200 are those that
    [getStreamVibes] names, in its order, each stored and not expired, and
    there are at most [limit] of them. *)
Theorem handleGetStreamVibes_answers shuffle s streamType associatedId limit
  now :
  (forall l, Permutation (shuffle l) l) -> storeWf s ->
  let r := handleGetStreamVibes shuffle s streamType associatedId limit now in
  (_status r = 200 <->
   exists type aid n,
     streamType = Some type /\ associatedId = Some aid /\ aid <> ""%string
     /\ limit = Some n /\ 1 <= n <= 100)
  /\ (_status r = 200 \/ _status r = 400)
  /\ (forall type aid vibes,
        _json r = JStream type aid vibes ->
        exists n,
          limit = Some n
          /\ map id vibes = getStreamVibes shuffle s type aid n now
          /\ Z.of_nat (List.length vibes) <= n
          /\ forall v, In v vibes ->
               getVibe s (id v) = Some v /\ now < expiresAt v).
Proof.
  intros Hshuffle Hwf. unfold handleGetStreamVibes. cbv zeta.
  destruct streamType as [type|].
  2:{ cbn [_status _json]. split; [|split; [now right | discriminate]].
      split; [discriminate | intros (? & ? & ? & H & _); discriminate]. }
  destruct associatedId as [aid|].
  2:{ cbn [_status _json]. split; [|split; [now right | discriminate]].
      split; [discriminate | intros (? & ? & ? & _ & H & _); discriminate]. }
  destruct (String.eqb aid "") eqn:Ea.
  { apply String.eqb_eq in Ea. subst aid. cbn [_status _json].
    split; [|split; [now right | discriminate]].
    split; [discriminate|].
    intros (? & ? & ? & _ & [= <-] & Hne & _). now elim Hne. }
  apply String.eqb_neq in Ea.
  destruct limit as [n|].
  2:{ cbn [_status _json]. split; [|split; [now right | discriminate]].
      split; [discriminate | intros (? & ? & ? & _ & _ & _ & H & _); discriminate]. }
  destruct ((n <=? 0) || (100 <? n)) eqn:El.
  { cbn [_status _json]. split; [|split; [now right | discriminate]].
    split; [discriminate|].
    intros (? & ? & m & _ & _ & _ & [= <-] & Hm).
    apply orb_true_iff in El. destruct El as [El | El];
      [apply Z.leb_le in El | apply Z.ltb_lt in El]; lia. }
  apply orb_false_iff in El. destruct El as [El1 El2].
  apply Z.leb_gt in El1. apply Z.ltb_ge in El2.
  cbn [_status _json]. split; [|split; [now left|]].
  - split; [intros _; exists type, aid, n; repeat split; (assumption || lia)
           | reflexivity].
  - intros type' aid' vibes [= <- <- <-]. exists n.
    pose proof (getStreamVibes_stored_active shuffle s type aid n now
                  Hshuffle Hwf) as Hact.
    assert (Hids : map id (getVibesByIds s (getStreamVibes shuffle s type aid
                                              n now))
                   = getStreamVibes shuffle s type aid n now).
    { apply getVibesByIds_all; [exact Hwf|].
      intros i Hi. destruct (Hact i Hi) as [v [Hv _]]. congruence. }
    split; [reflexivity|]. split; [exact Hids|]. split.
    + rewrite <- (length_map id), Hids.
      apply getStreamVibes_length_le. apply popularCount_bounds. lia.
    + intros v Hv. apply getVibesByIds_In in Hv.
      destruct Hv as [i [Hi Hget]].
      rewrite (storeWf_get_id s i v Hwf Hget). split; [exact Hget|].
      destruct (Hact i Hi) as [w [Hw Hlt]]. congruence.
Qed.

Lemma handleGetStreamVibes_answers_witness :
  (_status (handleGetStreamVibes (fun l => rev l) storeAB (Some personal)
              (Some "user-123"%string) (Some 5) 20) = 200 <->
   exists type aid n,
     Some personal = Some type /\ Some "user-123"%string = Some aid
     /\ aid <> ""%string /\ Some 5 = Some n /\ 1 <= n <= 100)
  /\ (_status (handleGetStreamVibes (fun l => rev l) storeAB (Some personal)
                 (Some "user-123"%string) (Some 5) 20) = 200
      \/ _status (handleGetStreamVibes (fun l => rev l) storeAB (Some personal)
                    (Some "user-123"%string) (Some 5) 20) = 400).
Proof.
  pose proof (handleGetStreamVibes_answers (fun l => rev l) storeAB
                (Some personal) (Some "user-123"%string) (Some 5) 20
                (fun l => Permutation_sym (Permutation_rev l)) storeAB_wf)
    as H.
  split; [exact (proj1 H) | exact (proj1 (proj2 H))].
Defined.
